(** * CipherStudio backend: the file hierarchy engine and its persistence layer

    A shallow embedding of [utils/fileHierarchy.js], [utils/database.js] and
    of [deleteProject] in [controllers/projectController.js].

    Conventions of the embedding.
    - A Mongo [ObjectId] is a 96-bit number; it is modelled by that number.
      [toString()] renders it as 24 hexadecimal digits, injectively, so a
      JavaScript [Map] keyed by [_id.toString()] is a map keyed by the id.
    - The [FileMetadata] collection is the list of its documents in natural
      order; [findById], [findOne] and [find] are the queries the code issues.
    - An [async] function that recurses or loops on what the store holds takes
      a [fuel] and answers [None] when the fuel is used up: [None] for every
      fuel is a call that never settles.
    - [throw] is a result of its own ([Throw]), never an exception of the
      meta-language. *)

From Stdlib Require Import ZArith Lia Sorting.Sorted.
From stdpp Require Import base option list relations strings gmap pretty.

Set Warnings "-register-all".

Open Scope Z_scope.
Open Scope list_scope.

(** ** The data model ([models/FileMetadata.js]) *)

Abbreviation ObjectId := N.

Inductive FileType : Type := file | folder.

#[global] Instance FileType_eq_dec : EqDecision FileType.
Proof. solve_decision. Defined.

Record FileMetadata : Type := mkFile {
  _id : ObjectId;
  projectId : ObjectId;
  name : string;
  type : FileType;
  parentId : option ObjectId;
  s3Key : option string;
  size : Z;
  mimeType : string
}.

#[global] Instance FileMetadata_eq_dec : EqDecision FileMetadata.
Proof. solve_decision. Defined.

(** A JavaScript [Error]: the fields the code reads. *)
Inductive Code : Type :=
  | NumCode (c : Z)
  | StrCode (c : string).

#[global] Instance Code_eq_dec : EqDecision Code.
Proof. solve_decision. Defined.

Record JsError : Type := mkError {
  err_name : string;
  err_message : option string;
  err_code : option Code;
  err_statusCode : option Z
}.

#[global] Instance JsError_eq_dec : EqDecision JsError.
Proof. solve_decision. Defined.

(** [new Error(msg)] *)
Definition newError (msg : string) : JsError :=
  {| err_name := "Error"; err_message := Some msg; err_code := None;
     err_statusCode := None |}.

Inductive Outcome (A : Type) : Type :=
  | Return (a : A)
  | Throw (e : JsError).
Arguments Return {A} a.
Arguments Throw {A} e.

(** ** The record store: the queries of the hierarchy engine *)

Section Store.

Definition isFolder (f : FileMetadata) : bool :=
  match type f with folder => true | file => false end.

Definition isFile (f : FileMetadata) : bool :=
  match type f with file => true | folder => false end.

(** [FileMetadata.findById(id)] *)
Definition findById (store : list FileMetadata) (id : ObjectId) : option FileMetadata :=
  List.find (fun f => N.eqb (_id f) id) store.

(** [FileMetadata.find({ parentId })] *)
Definition findByParent (store : list FileMetadata) (pid : ObjectId) : list FileMetadata :=
  filter (fun f => parentId f = Some pid) store.

(** [FileMetadata.findOne({ _id, projectId, type: 'folder' })] *)
Definition findFolderIn (store : list FileMetadata) (id proj : ObjectId) : option FileMetadata :=
  List.find (fun f => N.eqb (_id f) id && N.eqb (projectId f) proj && isFolder f) store.

End Store.

(** ** Ancestor walks: [isFileDescendant] and [validateHierarchyOperation] *)

Fixpoint isFileDescendant (fuel : nat) (store : list FileMetadata)
    (fileId ancestorId : ObjectId) : option bool :=
  match fuel with
  | O => None
  | S fuel' =>
      match findById store fileId with
      | None => Some false
      | Some f =>
          match parentId f with
          | None => Some false
          | Some p =>
              if N.eqb p ancestorId then Some true
              else isFileDescendant fuel' store p ancestorId
          end
      end
  end.

Definition validateHierarchyOperation (fuel : nat) (store : list FileMetadata)
    (fileId : ObjectId) (newParentId : option ObjectId) (proj : ObjectId)
    : option (Outcome bool) :=
  match newParentId with
  | None => Some (Return true)
  | Some np =>
      match findById store fileId with
      | None => Some (Throw (newError "File not found"))
      | Some f =>
          let isDescendant :=
            if isFolder f then isFileDescendant fuel store np fileId else Some false in
          match isDescendant with
          | None => None
          | Some true => Some (Throw (newError "Cannot move folder into its own descendant"))
          | Some false =>
              match findFolderIn store np proj with
              | None => Some (Throw (newError "New parent folder not found"))
              | Some _ => Some (Return true)
              end
          end
      end
  end.

(** ** Descendants and folder size *)

(** [for (const x of xs) { s = await body(x, s) }]: a loop whose body may not
    settle. *)
Fixpoint forEachM {A S : Type} (body : A -> S -> option S) (xs : list A) (s : S) : option S :=
  match xs with
  | [] => Some s
  | x :: xs' =>
      match body x s with
      | None => None
      | Some s' => forEachM body xs' s'
      end
  end.

(** The inner [getChildren] of [getAllDescendants]; [descendants] is the array
    the closure pushes to. *)
Fixpoint getChildren (fuel : nat) (store : list FileMetadata) (parent : ObjectId)
    (descendants : list FileMetadata) : option (list FileMetadata) :=
  match fuel with
  | O => None
  | S fuel' =>
      forEachM
        (fun child descendants =>
           let descendants := descendants ++ [child] in
           if isFolder child
           then getChildren fuel' store (_id child) descendants
           else Some descendants)
        (findByParent store parent) descendants
  end.

Definition getAllDescendants (fuel : nat) (store : list FileMetadata) (folderId : ObjectId)
    : option (list FileMetadata) :=
  getChildren fuel store folderId [].

(** [file.size || 0] *)
Definition sizeOrZero (f : FileMetadata) : Z :=
  if Z.eqb (size f) 0 then 0 else size f.

Definition calculateFolderSize (fuel : nat) (store : list FileMetadata) (folderId : ObjectId)
    : option Z :=
  match getAllDescendants fuel store folderId with
  | None => None
  | Some descendants =>
      let files := List.filter isFile descendants in
      Some (fold_left (fun total f => total + sizeOrZero f) files 0)
  end.

(** ** Sibling names *)

Section Strings.

(** [s.includes('.')] *)
Fixpoint includesChar (c : Ascii.ascii) (s : string) : bool :=
  match s with
  | EmptyString => false
  | String a s' => Ascii.eqb a c || includesChar c s'
  end.

(** [s.lastIndexOf('.')], [None] standing for -1 *)
Fixpoint lastIndexOf (c : Ascii.ascii) (s : string) : option nat :=
  match s with
  | EmptyString => None
  | String a s' =>
      match lastIndexOf c s' with
      | Some i => Some (S i)
      | None => if Ascii.eqb a c then Some O else None
      end
  end.

(** [s.split('.')] *)
Fixpoint split (c : Ascii.ascii) (s : string) : list string :=
  match s with
  | EmptyString => [EmptyString]
  | String a s' =>
      if Ascii.eqb a c then EmptyString :: split c s'
      else match split c s' with
           | [] => [String a EmptyString]
           | w :: ws => String a w :: ws
           end
  end.

(** [parts.pop()] on a non-empty array *)
Definition pop (parts : list string) : string := List.last parts EmptyString.

End Strings.

(** The character [.] (code 46). *)
Definition dot : Ascii.ascii := Ascii.Ascii false true true true false true false false.

Definition extensionOf (baseName : string) : string :=
  if includesChar dot baseName then String dot (pop (split dot baseName)) else EmptyString.

Definition nameWithoutExtOf (baseName : string) : string :=
  if includesChar dot baseName
  then match lastIndexOf dot baseName with
       | Some i => String.substring 0 i baseName
       | None => baseName
       end
  else baseName.

(** The template literal [`${nameWithoutExt} (${counter})${extension}`]. *)
Definition numbered (baseName : string) (counter : N) : string :=
  nameWithoutExtOf baseName +:+ " (" +:+ pretty counter +:+ ")" +:+ extensionOf baseName.

Definition checkNamingConflict (store : list FileMetadata) (proj : ObjectId) (nm : string)
    (parent excludeId : option ObjectId) : bool :=
  let query f :=
    N.eqb (projectId f) proj && String.eqb (name f) nm
    && bool_decide (parentId f = parent)
    && match excludeId with
       | Some x => negb (N.eqb (_id f) x)
       | None => true
       end in
  match List.find query store with
  | Some _ => true
  | None => false
  end.

(** The [while] loop of [generateUniqueName]: one unit of fuel pays for one
    evaluation of the loop condition, that is for one [checkNamingConflict]. *)
Fixpoint generateUniqueName_loop (fuel : nat) (store : list FileMetadata) (proj : ObjectId)
    (baseName : string) (parent excludeId : option ObjectId)
    (nm : string) (counter : N) : option string :=
  match fuel with
  | O => None
  | S fuel' =>
      if checkNamingConflict store proj nm parent excludeId
      then generateUniqueName_loop fuel' store proj baseName parent excludeId
             (numbered baseName counter) (counter + 1)%N
      else Some nm
  end.

Definition generateUniqueName (fuel : nat) (store : list FileMetadata) (proj : ObjectId)
    (baseName : string) (parent excludeId : option ObjectId) : option string :=
  generateUniqueName_loop fuel store proj baseName parent excludeId baseName 1%N.

(** ** [buildFileTree]

    The objects of [fileMap] are shared: [rootNodes] and every [children]
    array hold references to them, and [sortChildren] sorts the arrays in
    place. Each object is the value of exactly one key of [fileMap] from the
    end of the first pass on, so a reference is modelled by that key and the
    heap of tree objects by the map itself. *)

(** [Array.prototype.sort(compare)]: a stable sort; an element goes before the
    first one it does not compare greater than. For a consistent comparator
    this is the one order a stable sort can produce. *)
Section Sort.

Context {A : Type} (compare : A -> A -> Z).

Fixpoint js_insert (x : A) (l : list A) : list A :=
  match l with
  | [] => [x]
  | y :: l' => if Z.leb (compare x y) 0 then x :: y :: l' else y :: js_insert x l'
  end.

Fixpoint js_sort (l : list A) : list A :=
  match l with
  | [] => []
  | x :: l' => js_insert x (js_sort l')
  end.

End Sort.

(** [{ ...file.toObject(), children: [] }] *)
Record TreeObject : Type := mkObject {
  doc : FileMetadata;
  children : list ObjectId
}.

(** What the caller reads from a returned node: the document and, through the
    references of [children], the nodes below it. *)
Inductive TreeNode : Type :=
  | Node (d : FileMetadata) (kids : list TreeNode).

Definition rootDoc (t : TreeNode) : FileMetadata := match t with Node d _ => d end.
Definition subtrees (t : TreeNode) : list TreeNode := match t with Node _ kids => kids end.

Section BuildFileTree.

(** [String.prototype.localeCompare] of the host's collation: negative, zero
    or positive. *)
Variable localeCompare : string -> string -> Z.

(** The comparator of both [sort] calls. *)
Definition compareNodes (a b : FileMetadata) : Z :=
  if bool_decide (type a <> type b)
  then (if isFolder a then -1 else 1)
  else localeCompare (name a) (name b).

Definition compareRefs (fileMap : gmap N TreeObject) (a b : ObjectId) : Z :=
  match fileMap !! a, fileMap !! b with
  | Some x, Some y => compareNodes (doc x) (doc y)
  | _, _ => 0
  end.

(** First pass: [fileMap.set] and [rootFiles.push]. *)
Definition firstPass (files : list FileMetadata) : gmap N TreeObject * list ObjectId :=
  fold_left
    (fun '(fileMap, rootFiles) f =>
       (<[_id f := mkObject f []]> fileMap,
        match parentId f with
        | None => rootFiles ++ [_id f]
        | Some _ => rootFiles
        end))
    files (∅, []).

(** Second pass: [parent.children.push(child)]. *)
Definition secondPass (files : list FileMetadata) (fileMap : gmap N TreeObject)
    : gmap N TreeObject :=
  fold_left
    (fun fileMap f =>
       match parentId f with
       | Some p =>
           match fileMap !! p with
           | Some parent =>
               <[p := mkObject (doc parent) (children parent ++ [_id f])]> fileMap
           | None => fileMap
           end
       | None => fileMap
       end)
    files fileMap.

(** [sortChildren(node)]; [forEach] runs over the array just sorted. *)
Fixpoint sortChildren (fuel : nat) (node : ObjectId) (fileMap : gmap N TreeObject)
    : option (gmap N TreeObject) :=
  match fuel with
  | O => None
  | S fuel' =>
      match fileMap !! node with
      | None => Some fileMap
      | Some obj =>
          match children obj with
          | [] => Some fileMap
          | _ :: _ =>
              let sorted := js_sort (compareRefs fileMap) (children obj) in
              forEachM (sortChildren fuel') sorted
                (<[node := mkObject (doc obj) sorted]> fileMap)
          end
      end
  end.

(** The tree below a reference. *)
Fixpoint readTree (fuel : nat) (fileMap : gmap N TreeObject) (node : ObjectId)
    : option TreeNode :=
  match fuel with
  | O => None
  | S fuel' =>
      match fileMap !! node with
      | None => None
      | Some obj =>
          match mapM (readTree fuel' fileMap) (children obj) with
          | None => None
          | Some kids => Some (Node (doc obj) kids)
          end
      end
  end.

(** [files] is [None] for [null] and [undefined]. *)
Definition buildFileTree (fuel : nat) (files : option (list FileMetadata))
    : option (list TreeNode) :=
  match files with
  | None | Some [] => Some []
  | Some files =>
      let '(fileMap, rootFiles) := firstPass files in
      let fileMap := secondPass files fileMap in
      let rootNodes := js_sort (compareRefs fileMap) rootFiles in
      match forEachM (sortChildren fuel) rootNodes fileMap with
      | None => None
      | Some fileMap => mapM (readTree fuel fileMap) rootNodes
      end
  end.

End BuildFileTree.

(** ** The persistence layer ([utils/database.js]) *)

Section StringSearch.

Definition lowerChar (c : Ascii.ascii) : Ascii.ascii :=
  let n := Ascii.nat_of_ascii c in
  if (Nat.leb 65 n && Nat.leb n 90)%bool then Ascii.ascii_of_nat (n + 32) else c.

(** [s.toLowerCase()], on the ASCII letters *)
Fixpoint toLowerCase (s : string) : string :=
  match s with
  | EmptyString => EmptyString
  | String c s' => String (lowerChar c) (toLowerCase s')
  end.

(** [s.includes(needle)] *)
Fixpoint includes (needle s : string) : bool :=
  String.prefix needle s
  || match s with
     | EmptyString => false
     | String _ s' => includes needle s'
     end.

End StringSearch.

(** The codes [isRetryableError] lists, 11000 (duplicate key) first. *)
Definition retryableCodes : list Z := [11000; 16500; 189; 91; 7; 6; 89; 9001].

(** [error] is [None] for a thrown [null] or [undefined]. A [code] that is a
    string is no element of an array of numbers. *)
Definition isRetryableError (error : option JsError) : bool :=
  match error with
  | None => false
  | Some e =>
      let message :=
        match err_message e with
        | Some m => toLowerCase m
        | None => EmptyString
        end in
      if includes "connection" message || includes "timeout" message then true
      else if match err_code e with
              | Some (NumCode c) => negb (Z.eqb c 0) && existsb (Z.eqb c) retryableCodes
              | Some (StrCode _) | None => false
              end then true
      else if String.eqb (err_name e) "MongoNetworkError"
              || String.eqb (err_name e) "MongoTimeoutError" then true
      else false
  end.

(** The destructured [options], a field [None] when the caller left it out. *)
Record Options : Type := mkOptions {
  opt_maxRetries : option Z;
  opt_baseDelay : option Z;
  opt_enableRetry : option bool;
  opt_context : option (list (string * string))
}.

Definition defaultOptions : Options :=
  {| opt_maxRetries := None; opt_baseDelay := None;
     opt_enableRetry := None; opt_context := None |}.

Definition maxRetries (o : Options) : Z := default 3 (opt_maxRetries o).
Definition baseDelay (o : Options) : Z := default 1000 (opt_baseDelay o).
Definition enableRetry (o : Options) : bool := default true (opt_enableRetry o).
Definition context (o : Options) : list (string * string) := default [] (opt_context o).

(** The error [handlePersistenceOperation] builds when it gives up. *)
Record EnhancedError : Type := mkEnhanced {
  message : string;
  originalError : JsError;
  attempts : Z;
  retryable : bool;
  errContext : list (string * string);
  operationName : string
}.

Inductive Thrown : Type :=
  | ThrowError (e : JsError)          (* an error rethrown as it was caught *)
  | ThrowEnhanced (e : EnhancedError)
  | ThrowUndefined.                   (* [throw lastError] with nothing caught *)

Inductive Settled (A : Type) : Type :=
  | Resolved (a : A)
  | Rejected (t : Thrown).
Arguments Resolved {A} a.
Arguments Rejected {A} t.

Inductive LogLine : Type :=
  | LogError (prefix : string) (e : JsError)               (* console.error *)
  | LogSucceeded (operation : string) (attempt max : Z)    (* console.log *)
  | WarnRetrying (operation : string) (attempt max : Z) (e : JsError) (delay : Z).

(** What a call has done to its surroundings: how often it asked
    [isConnected()], how often it invoked [operation], and what it wrote to
    the console. The delay of [WarnRetrying] is the one computed from
    [baseDelay], before the random jitter is added; the wait itself changes
    nothing the model observes. *)
Record Trace : Type := mkTrace {
  asked : nat;
  invoked : nat;
  console : list LogLine
}.

Definition noTrace : Trace := {| asked := 0; invoked := 0; console := [] |}.

Section Persistence.

Context {A : Type}.

(** The surroundings of a call: [connected k] is what the [k]-th
    [isConnected()] answers, [operation k] how the [k]-th invocation of the
    wrapped operation settles (both counted from 0). *)
Variable connected : nat -> bool.
Variable operation : nat -> Outcome A.

Definition messageOf (e : JsError) : string :=
  default "undefined" (err_message e).

(** One [try] block of either handler: the connectivity check, then the
    operation. *)
Definition attemptOnce (lost : string) (t : Trace) : Outcome A * Trace :=
  if connected (asked t)
  then (operation (invoked t),
        {| asked := S (asked t); invoked := S (invoked t); console := console t |})
  else (Throw (newError lost),
        {| asked := S (asked t); invoked := invoked t; console := console t |}).

Definition handleDatabaseOperation (errorMessage : string) (t : Trace)
    : Settled A * Trace :=
  match attemptOnce "Database not connected" t with
  | (Return v, t') => (Resolved v, t')
  | (Throw e, t') =>
      (Rejected (ThrowError e),
       {| asked := asked t'; invoked := invoked t';
          console := console t' ++ [LogError (errorMessage +:+ ":") e] |})
  end.

(** The [for] loop of [handlePersistenceOperation]; [remaining] counts the
    iterations left, [maxRetries - attempt + 1]. *)
Fixpoint retryLoop (opName : string) (o : Options) (remaining : nat) (attempt : Z)
    (lastError : option JsError) (t : Trace) : Settled A * Trace :=
  match remaining with
  | O => (Rejected (match lastError with
                    | Some e => ThrowError e
                    | None => ThrowUndefined
                    end), t)
  | S remaining' =>
      match attemptOnce "Database connection lost" t with
      | (Return result, t') =>
          (Resolved result,
           if Z.ltb 1 attempt
           then {| asked := asked t'; invoked := invoked t';
                   console := console t' ++ [LogSucceeded opName attempt (maxRetries o)] |}
           else t')
      | (Throw error, t') =>
          let isRetryable := isRetryableError (Some error) in
          if Z.eqb attempt (maxRetries o) || negb isRetryable
          then (Rejected (ThrowEnhanced
                  {| message := opName +:+ " failed after " +:+ pretty attempt
                                +:+ " attempts: " +:+ messageOf error;
                     originalError := error;
                     attempts := attempt;
                     retryable := isRetryable;
                     errContext := context o;
                     operationName := opName |}), t')
          else
            let delay := baseDelay o * 2 ^ (attempt - 1) in
            retryLoop opName o remaining' (attempt + 1) (Some error)
              {| asked := asked t'; invoked := invoked t';
                 console := console t'
                            ++ [WarnRetrying opName attempt (maxRetries o) error delay] |}
      end
  end.

Definition handlePersistenceOperation (opName : string) (o : Options) (t : Trace)
    : Settled A * Trace :=
  if negb (enableRetry o)
  then handleDatabaseOperation (opName +:+ " failed") t
  else retryLoop opName o (Z.to_nat (maxRetries o)) 1 None t.

End Persistence.

(** ** [deleteProject] ([controllers/projectController.js]) *)

Record Project : Type := mkProject {
  project_id : ObjectId;
  userId : string;
  projectName : string;
  description : string
}.

(** The record store's two collections and the keys held by the bucket. *)
Record Db : Type := mkDb {
  projects : list Project;
  fileMetadata : list FileMetadata;
  bucket : list string
}.

(** How the batch delete of the blob store answers: it throws, or it reports
    the keys it could not delete in [Errors]. *)
Inductive S3Reply : Type :=
  | S3Throws (e : JsError)
  | S3Deleted (errors : list string).

Inductive Response : Type :=
  | JsonSuccess (deletedFiles deletedS3Objects : nat)
  | JsonFailure (status : Z) (code : Code) (msg : string).

(** [Project.findById(id)], then [Project.findOne({ _id: id })] *)
Definition findProject (ps : list Project) (id : ObjectId) : option Project :=
  List.find (fun p => N.eqb (project_id p) id) ps.

(** [Project.findByIdAndDelete(id)] / [Project.findOneAndDelete({ _id: id })] *)
Fixpoint deleteFirst (id : ObjectId) (ps : list Project) : list Project :=
  match ps with
  | [] => []
  | p :: ps' => if N.eqb (project_id p) id then ps' else p :: deleteFirst id ps'
  end.

Definition projectNotFound : JsError :=
  {| err_name := "Error"; err_message := Some "Project not found";
     err_code := Some (StrCode "PROJECT_NOT_FOUND"); err_statusCode := Some 404 |}.

(** [file.s3Key] is truthy *)
Definition truthyKey (f : FileMetadata) : option string :=
  match s3Key f with
  | Some EmptyString | None => None
  | Some k => Some k
  end.

(** [s3Service.deleteFiles(keys)] on the bucket *)
Definition deleteFiles (s3 : S3Reply) (keys : list string) (b : list string)
    : Outcome (list string) :=
  match keys with
  | [] => Return b
  | _ :: _ =>
      match s3 with
      | S3Throws e =>
          Throw (newError ("Failed to delete files: " +:+ default "undefined" (err_message e)))
      | S3Deleted errors =>
          Return (filter (fun k => k ∉ keys \/ k ∈ errors) b)
      end
  end.

(** The [catch] of [deleteProject]. *)
Definition failureResponse (t : Thrown) : Response :=
  match t with
  | ThrowError e =>
      JsonFailure
        (match err_statusCode e with
         | Some c => if Z.eqb c 0 then 500 else c
         | None => 500
         end)
        (match err_code e with
         | Some (NumCode 0) | Some (StrCode EmptyString) | None =>
             StrCode "DELETE_PROJECT_FAILED"
         | Some c => c
         end)
        (match err_message e with
         | Some EmptyString | None => "Failed to delete project"
         | Some m => m
         end)
  | ThrowEnhanced e => JsonFailure 500 (StrCode "DELETE_PROJECT_FAILED") (message e)
  | ThrowUndefined => JsonFailure 500 (StrCode "DELETE_PROJECT_FAILED") "Failed to delete project"
  end.

Definition deleteProject (connected : nat -> bool) (s3 : S3Reply) (db : Db) (id : ObjectId)
    : Response * Db :=
  let lookup _ :=
    match findProject (projects db) id with
    | Some proj => Return proj
    | None => Throw projectNotFound
    end in
  match handleDatabaseOperation connected lookup "Failed to find project for deletion" noTrace with
  | (Rejected e, _) => (failureResponse e, db)
  | (Resolved _, t1) =>
      let fetch _ := Return (filter (fun f => projectId f = id) (fileMetadata db)) in
      match handleDatabaseOperation connected fetch
              "Failed to fetch project files for deletion" t1 with
      | (Rejected e, _) => (failureResponse e, db)
      | (Resolved files, t2) =>
          let s3Keys := omap truthyKey files in
          let bucket1 :=
            match s3Keys with
            | [] => bucket db
            | _ :: _ =>
                match deleteFiles s3 s3Keys (bucket db) with
                | Return b => b
                | Throw _ => bucket db
                end
            end in
          let db1 := {| projects := projects db; fileMetadata := fileMetadata db;
                        bucket := bucket1 |} in
          let deleteMany _ :=
            Return (filter (fun f => projectId f <> id) (fileMetadata db1)) in
          match handleDatabaseOperation connected deleteMany
                  "Failed to delete project files from database" t2 with
          | (Rejected e, _) => (failureResponse e, db1)
          | (Resolved remaining, t3) =>
              let db2 := {| projects := projects db1; fileMetadata := remaining;
                            bucket := bucket db1 |} in
              let deleteOne _ := Return (deleteFirst id (projects db2)) in
              match handleDatabaseOperation connected deleteOne
                      "Failed to delete project" t3 with
              | (Rejected e, _) => (failureResponse e, db2)
              | (Resolved ps, _) =>
                  (JsonSuccess (length files) (length s3Keys),
                   {| projects := ps; fileMetadata := fileMetadata db2;
                      bucket := bucket db2 |})
              end
          end
      end
  end.

(** The names [generateUniqueName] tries, in order: [baseName] itself, then
    the numbered ones from 1 on. *)
Definition candidate (baseName : string) (k : nat) : string :=
  match k with
  | O => baseName
  | S _ => numbered baseName (N.of_nat k)
  end.

(** I3 asks that no live sibling bears the name: a document of the project
    in the directory [parent], other than the excluded one, is called [nm]. *)
Definition nameTaken (store : list FileMetadata) (proj : ObjectId) (nm : string)
    (parent excludeId : option ObjectId) : Prop :=
  exists f, f ∈ store /\ projectId f = proj /\ name f = nm /\ parentId f = parent
            /\ excludeId <> Some (_id f).

(** A document that [checkNamingConflict] can meet while [generateUniqueName]
    runs: it lies in the directory asked about, is not the excluded one, and
    bears one of the candidate names. *)
Definition conflictingSibling (store : list FileMetadata) (proj : ObjectId)
    (baseName : string) (parent excludeId : option ObjectId) (f : FileMetadata) : Prop :=
  f ∈ store /\ projectId f = proj /\ parentId f = parent /\ excludeId <> Some (_id f)
  /\ exists k, name f = candidate baseName k.

(** The sum of [size] over a collection of documents. *)
Definition sumSizes (fs : list FileMetadata) : Z :=
  foldr (fun f total => size f + total) 0 fs.

(** ** The shape of a forest *)

(** The nodes of a tree at every depth, the tree itself first. *)
Fixpoint allSubtrees (t : TreeNode) : list TreeNode :=
  match t with
  | Node _ kids => t :: flat_map allSubtrees kids
  end.

(** The documents a forest holds, with repetitions if it has any. *)
Definition nodes (forest : list TreeNode) : list FileMetadata :=
  rootDoc <$> flat_map allSubtrees forest.

Section Ordering.

Variable localeCompare : string -> string -> Z.

(** [a] may stand before [b] among siblings: a folder before a file, and
    within one type the name that [localeCompare] does not put after. *)
Definition precedes (a b : FileMetadata) : Prop :=
  (type a = folder /\ type b = file)
  \/ (type a = type b /\ localeCompare (name a) (name b) <= 0).

Definition siblingsOrdered (l : list FileMetadata) : Prop :=
  StronglySorted precedes l.

(** The root list and the child list of every node are ordered. *)
Definition orderedForest (forest : list TreeNode) : Prop :=
  siblingsOrdered (rootDoc <$> forest)
  /\ forall t, t ∈ flat_map allSubtrees forest -> siblingsOrdered (rootDoc <$> subtrees t).

End Ordering.

(** ** The shape of a store

    The invariants of the data model that the walks rely on, stated over the
    parent pointers the ancestor walks follow. *)

(** The parent the ancestor walk moves to from [x]. *)
Definition parentOf (store : list FileMetadata) (x : ObjectId) : option ObjectId :=
  match findById store x with
  | Some f => parentId f
  | None => None
  end.

Definition parentRel (store : list FileMetadata) (x y : ObjectId) : Prop :=
  parentOf store x = Some y.

(** [x] is a proper descendant of [a]: the parent chain of [x] meets [a]. *)
Definition descendantOf (store : list FileMetadata) (x a : ObjectId) : Prop :=
  tc (parentRel store) x a.

(** The parent chain of [f] ends at a document without parent. *)
Definition rooted (files : list FileMetadata) (f : FileMetadata) : Prop :=
  exists r, r ∈ files /\ parentId r = None /\ rtc (parentRel files) (_id f) (_id r).

(** I2: no node is its own ancestor. *)
Definition acyclic (store : list FileMetadata) : Prop :=
  forall x, ~ descendantOf store x x.

(** Identity: no two documents share an [_id]. *)
Definition uniqueIds (store : list FileMetadata) : Prop :=
  NoDup (_id <$> store).

(** I4, as far as the type goes: a document that is the parent of another one
    is a folder. *)
Definition parentsAreFolders (store : list FileMetadata) : Prop :=
  forall f g, f ∈ store -> g ∈ store -> parentId f = Some (_id g) -> type g = folder.

(** [id] names a folder of project [proj]. *)
Definition folderOf (store : list FileMetadata) (id proj : ObjectId) : Prop :=
  exists g, g ∈ store /\ _id g = id /\ projectId g = proj /\ type g = folder.

(** A sufficient check for [acyclic]: every parent id is smaller than the id
    of its child. *)
Definition parentsBelow (store : list FileMetadata) : bool :=
  forallb (fun f => match parentId f with
                    | Some p => N.ltb p (_id f)
                    | None => true
                    end) store.

(** ** Sample data *)

Module Sample.

Definition mk (id : ObjectId) (nm : string) (ty : FileType) (parent : option ObjectId)
    (sz : Z) : FileMetadata :=
  {| _id := id; projectId := 1%N; name := nm; type := ty; parentId := parent;
     s3Key := match ty with
              | file => Some ("projects/1/files/" +:+ pretty id +:+ "/" +:+ nm)
              | folder => None
              end;
     size := sz; mimeType := "text/plain" |}.

(** A duplicate-key error as the driver raises it. *)
Definition duplicateKey : JsError :=
  {| err_name := "MongoServerError";
     err_message := Some "E11000 duplicate key error collection: cipherstudio.filemetadatas";
     err_code := Some (NumCode 11000); err_statusCode := None |}.

Definition networkTimeout : JsError :=
  {| err_name := "MongoNetworkError"; err_message := Some "socket hang up";
     err_code := Some (NumCode 89); err_statusCode := None |}.

Definition validationFailed : JsError :=
  {| err_name := "ValidationError"; err_message := Some "File name is required";
     err_code := None; err_statusCode := None |}.

(** Two folders that are each other's parent. *)
Definition loop : list FileMetadata :=
  [mk 1 "a" folder (Some 2%N) 0; mk 2 "b" folder (Some 1%N) 0].

(** A root directory where [App.js] and [App (1).js] are taken. *)
Definition taken : list FileMetadata :=
  [mk 1 "App.js" file None 10; mk 2 "App (1).js" file None 10;
   mk 3 "App (2).js" file (Some 9%N) 10].

(** [src/] with two files and a nested folder holding a third one. *)
Definition tree : list FileMetadata :=
  [mk 1 "src" folder None 0;
   mk 2 "App.js" file (Some 1%N) 100;
   mk 3 "index.js" file (Some 1%N) 250;
   mk 4 "components" folder (Some 1%N) 0;
   mk 5 "Button.js" file (Some 4%N) 50].

(** A folder at the root and a file whose parent is not among the
    documents. *)
Definition orphaned : list FileMetadata :=
  [mk 1 "src" folder None 0; mk 5 "lost.js" file (Some 99%N) 10].

(** A comparator for the examples: code-unit order of the lower-cased
    names. *)
Definition ciCompare (a b : string) : Z :=
  if String.leb (toLowerCase a) (toLowerCase b)
  then (if String.leb (toLowerCase b) (toLowerCase a) then 0 else -1)
  else 1.

Definition online (_ : nat) : bool := true.

(** An operation that fails twice with [networkTimeout], then resolves. *)
Definition flaky (k : nat) : Outcome Z :=
  match k with
  | 0%nat | 1%nat => Throw networkTimeout
  | _ => Return 42
  end.

Definition saveContext : list (string * string) :=
  [("projectId", "1"); ("operation", "save")].

Definition withContext : Options :=
  {| opt_maxRetries := None; opt_baseDelay := None; opt_enableRetry := None;
     opt_context := Some saveContext |}.

(** One project with a single file whose blob is in the bucket. *)
Definition appJs : FileMetadata := mk 2 "App.js" file None 120.

Definition oneProject : Db :=
  {| projects := [ {| project_id := 1%N; userId := "user-1"; projectName := "demo";
                      description := "" |} ];
     fileMetadata := [appJs];
     bucket := ["projects/1/files/2/App.js"] |}.

Definition accessDenied : JsError :=
  {| err_name := "AccessDenied"; err_message := Some "Access Denied";
     err_code := Some (StrCode "AccessDenied"); err_statusCode := Some 403 |}.

End Sample.

(** The options of a caller that passes a context and nothing else, as
    [handleProjectSave] and its siblings do when called without options. *)
Definition contextOnly (ctx : list (string * string)) : Options :=
  {| opt_maxRetries := None; opt_baseDelay := None; opt_enableRetry := None;
     opt_context := Some ctx |}.

(** ** Paths ([getFilePath], and [getFullPath] of the model) *)

(** [parts.join(sep)] *)
Fixpoint join (sep : string) (parts : list string) : string :=
  match parts with
  | [] => EmptyString
  | [p] => p
  | p :: ps => p +:+ sep +:+ join sep ps
  end.

(** The [while (currentFile)] loop of [getFilePath]; one unit of fuel pays
    for one evaluation of the loop condition. [path.unshift] puts a name in
    front. *)
Fixpoint getFilePath_loop (fuel : nat) (store : list FileMetadata)
    (currentFile : option FileMetadata) (path : list string) : option (list string) :=
  match fuel with
  | O => None
  | S fuel' =>
      match currentFile with
      | None => Some path
      | Some f =>
          let path := name f :: path in
          match parentId f with
          | Some p => getFilePath_loop fuel' store (findById store p) path
          | None => Some path
          end
      end
  end.

Definition getFilePath (fuel : nat) (store : list FileMetadata) (fileId : ObjectId)
    : option string :=
  match getFilePath_loop fuel store (findById store fileId) [] with
  | None => None
  | Some path => Some (join "/" path)
  end.

(** [fileMetadataSchema.methods.getFullPath], called on the document
    [this]. *)
Fixpoint getFullPath (fuel : nat) (store : list FileMetadata) (this : FileMetadata)
    : option string :=
  match fuel with
  | O => None
  | S fuel' =>
      match parentId this with
      | None => Some (name this)
      | Some p =>
          match findById store p with
          | None => Some (name this)
          | Some parent =>
              match getFullPath fuel' store parent with
              | None => None
              | Some parentPath => Some (parentPath +:+ "/" +:+ name this)
              end
          end
      end
  end.

(** The names on the parent chain of a document, the topmost first, as far
    as the chain can be followed in the store. *)
Inductive chainNames (store : list FileMetadata) : FileMetadata -> list string -> Prop :=
  | chain_root f :
      parentId f = None -> chainNames store f [name f]
  | chain_dangling f p :
      parentId f = Some p -> findById store p = None -> chainNames store f [name f]
  | chain_step f p parent names :
      parentId f = Some p -> findById store p = Some parent ->
      chainNames store parent names -> chainNames store f (names ++ [name f]).

(** ** [findAllChildren] of the model ([models/FileMetadata.js]) *)

Fixpoint findAllChildren (fuel : nat) (store : list FileMetadata) (parent : ObjectId)
    : option (list FileMetadata) :=
  match fuel with
  | O => None
  | S fuel' =>
      let children := findByParent store parent in
      forEachM
        (fun child allChildren =>
           if isFolder child
           then match findAllChildren fuel' store (_id child) with
                | None => None
                | Some grandChildren => Some (allChildren ++ grandChildren)
                end
           else Some allChildren)
        children children
  end.

(** ** [retryOperation] and the wrappers of [handlePersistenceOperation] *)

(** What a call of [retryOperation] did: how often it invoked the operation
    and the delays it waited for, in order. *)
Record RetryTrace : Type := mkRetryTrace {
  tries : nat;
  waits : list Z
}.

Section RetryOperation.

Context {A : Type}.
Variable operation : nat -> Outcome A.

(** The [for] loop of [retryOperation]; [break] leaves it for
    [throw lastError]. *)
Fixpoint retryOperation_loop (maxRetries baseDelay : Z) (remaining : nat) (attempt : Z)
    (lastError : option JsError) (t : RetryTrace) : Settled A * RetryTrace :=
  match remaining with
  | O => (Rejected (match lastError with
                    | Some e => ThrowError e
                    | None => ThrowUndefined
                    end), t)
  | S remaining' =>
      match operation (tries t) with
      | Return v => (Resolved v, {| tries := S (tries t); waits := waits t |})
      | Throw error =>
          if Z.eqb attempt maxRetries
          then (Rejected (ThrowError error), {| tries := S (tries t); waits := waits t |})
          else retryOperation_loop maxRetries baseDelay remaining' (attempt + 1) (Some error)
                 {| tries := S (tries t);
                    waits := waits t ++ [baseDelay * 2 ^ (attempt - 1)] |}
      end
  end.

(** [maxRetries] and [baseDelay] are [None] when the caller leaves them
    out. *)
Definition retryOperation (maxRetries baseDelay : option Z) : Settled A * RetryTrace :=
  let maxRetries := default 3 maxRetries in
  let baseDelay := default 1000 baseDelay in
  retryOperation_loop maxRetries baseDelay (Z.to_nat maxRetries) 1 None
    {| tries := 0; waits := [] |}.

Variable connected : nat -> bool.

(** [{ ...options, context: ctx }] *)
Definition withContextOf (options : Options) (ctx : list (string * string)) : Options :=
  {| opt_maxRetries := opt_maxRetries options;
     opt_baseDelay := opt_baseDelay options;
     opt_enableRetry := opt_enableRetry options;
     opt_context := Some ctx |}.

Definition handleProjectSave (projectId : string) (options : Options) (t : Trace)
    : Settled A * Trace :=
  handlePersistenceOperation connected operation
    ("Project save (" +:+ projectId +:+ ")")
    (withContextOf options [("projectId", projectId); ("operation", "save")]) t.

Definition handleProjectLoad (projectId : string) (options : Options) (t : Trace)
    : Settled A * Trace :=
  handlePersistenceOperation connected operation
    ("Project load (" +:+ projectId +:+ ")")
    (withContextOf options [("projectId", projectId); ("operation", "load")]) t.

Definition handleFileOperation (fileId operationType : string) (options : Options)
    (t : Trace) : Settled A * Trace :=
  handlePersistenceOperation connected operation
    ("File " +:+ operationType +:+ " (" +:+ fileId +:+ ")")
    (withContextOf options [("fileId", fileId); ("operation", operationType)]) t.

End RetryOperation.

(** ** [generateS3Key] ([services/s3Service.js]) *)

(** The ids are what the template literal renders them to. *)
Definition generateS3Key (projectId fileId fileName : string) : string :=
  "projects/" +:+ projectId +:+ "/files/" +:+ fileId +:+ "/" +:+ fileName.

(** The character [/] (code 47). *)
Definition slash : Ascii.ascii := Ascii.Ascii true true true true false true false false.

(** ** [deleteFile] ([controllers/fileController.js]) *)

(** [FileMetadata.findByIdAndDelete(id)] *)
Fixpoint deleteFirstFile (id : ObjectId) (fs : list FileMetadata) : list FileMetadata :=
  match fs with
  | [] => []
  | f :: fs' => if N.eqb (_id f) id then fs' else f :: deleteFirstFile id fs'
  end.

Definition fileNotFound : JsError :=
  {| err_name := "Error"; err_message := Some "File not found";
     err_code := Some (StrCode "FILE_NOT_FOUND"); err_statusCode := Some 404 |}.

(** The [catch] of a controller, with the code and the message it falls back
    to. *)
Definition failureResponseWith (fallbackCode fallbackMessage : string) (t : Thrown)
    : Response :=
  match t with
  | ThrowError e =>
      JsonFailure
        (match err_statusCode e with
         | Some c => if Z.eqb c 0 then 500 else c
         | None => 500
         end)
        (match err_code e with
         | Some (NumCode 0) | Some (StrCode EmptyString) | None => StrCode fallbackCode
         | Some c => c
         end)
        (match err_message e with
         | Some EmptyString | None => fallbackMessage
         | Some m => m
         end)
  | ThrowEnhanced e => JsonFailure 500 (StrCode fallbackCode) (message e)
  | ThrowUndefined => JsonFailure 500 (StrCode fallbackCode) fallbackMessage
  end.

(** [None] when [findAllChildren] does not settle within the fuel. *)
Definition deleteFile (fuel : nat) (connected : nat -> bool) (s3 : S3Reply) (db : Db)
    (id : ObjectId) : option (Response * Db) :=
  let fail := failureResponseWith "DELETE_FILE_FAILED" "Failed to delete file" in
  let lookup _ :=
    match findById (fileMetadata db) id with
    | Some f => Return f
    | None => Throw fileNotFound
    end in
  match handleDatabaseOperation connected lookup "Failed to find file" noTrace with
  | (Rejected e, _) => Some (fail e, db)
  | (Resolved fileMetadata0, t1) =>
      match (if isFolder fileMetadata0
             then findAllChildren fuel (fileMetadata db) id
             else Some []) with
      | None => None
      | Some allChildren =>
          let deletedFiles := fileMetadata0 :: allChildren in
          let s3Keys :=
            if isFolder fileMetadata0 then omap truthyKey allChildren
            else match truthyKey fileMetadata0 with
                 | Some k => [k]
                 | None => []
                 end in
          let bucket1 :=
            match s3Keys with
            | [] => bucket db
            | _ :: _ =>
                match deleteFiles s3 s3Keys (bucket db) with
                | Return b => b
                | Throw _ => bucket db
                end
            end in
          let db1 := {| projects := projects db; fileMetadata := fileMetadata db;
                        bucket := bucket1 |} in
          let childIds := _id <$> allChildren in
          let deleteMany _ :=
            Return (filter (fun f => _id f ∉ childIds) (fileMetadata db1)) in
          let afterChildren :=
            if isFolder fileMetadata0
            then match childIds with
                 | [] => (Resolved (fileMetadata db1), t1)
                 | _ :: _ =>
                     handleDatabaseOperation connected deleteMany
                       "Failed to delete child files" t1
                 end
            else (Resolved (fileMetadata db1), t1) in
          match afterChildren with
          | (Rejected e, _) => Some (fail e, db1)
          | (Resolved remaining, t2) =>
              let db2 := {| projects := projects db1; fileMetadata := remaining;
                            bucket := bucket db1 |} in
              let deleteOne _ := Return (deleteFirstFile id (fileMetadata db2)) in
              match handleDatabaseOperation connected deleteOne
                      "Failed to delete file" t2 with
              | (Rejected e, _) => Some (fail e, db2)
              | (Resolved fs, _) =>
                  Some (JsonSuccess (length deletedFiles) (length s3Keys),
                        {| projects := projects db2; fileMetadata := fs;
                           bucket := bucket db2 |})
              end
          end
      end
  end.

(** ** More sample data *)

Module Sample2.

(** The project of [Sample.tree] with its three blobs, beside a document and
    a blob of another project. *)
Definition workspace : Db :=
  {| projects := [ {| project_id := 1%N; userId := "user-1"; projectName := "demo";
                      description := "" |};
                   {| project_id := 2%N; userId := "user-2"; projectName := "other";
                      description := "" |} ];
     fileMetadata := Sample.tree ++
       [ {| _id := 9%N; projectId := 2%N; name := "notes.md"; type := file;
            parentId := None; s3Key := Some "projects/2/files/9/notes.md";
            size := 7; mimeType := "text/markdown" |} ];
     bucket := ["projects/1/files/2/App.js"; "projects/1/files/3/index.js";
                "projects/1/files/5/Button.js"; "projects/2/files/9/notes.md"] |}.

(** Fails twice, then resolves. *)
Definition twice (k : nat) : Outcome Z :=
  match k with
  | 0%nat | 1%nat => Throw Sample.validationFailed
  | _ => Return 7
  end.

Definition offline (_ : nat) : bool := false.

End Sample2.

(** * Properties *)

(** ** The persistence layer *)

Section PersistenceFacts.

Context {A : Type}.
Implicit Types (connected : nat -> bool) (operation : nat -> Outcome A).

Lemma attemptOnce_connected connected operation lost t :
  connected (asked t) = true ->
  attemptOnce connected operation lost t
  = (operation (invoked t),
     {| asked := S (asked t); invoked := S (invoked t); console := console t |}).
Proof. intros H. unfold attemptOnce. now rewrite H. Qed.

(** A retryable error before the last attempt leads to the next iteration. *)
Lemma retryLoop_retry connected operation opName o remaining attempt lastError t e :
  connected (asked t) = true ->
  operation (invoked t) = Throw e ->
  isRetryableError (Some e) = true ->
  attempt <> maxRetries o ->
  retryLoop connected operation opName o (S remaining) attempt lastError t
  = retryLoop connected operation opName o remaining (attempt + 1) (Some e)
      {| asked := S (asked t); invoked := S (invoked t);
         console := console t
                    ++ [WarnRetrying opName attempt (maxRetries o) e
                          (baseDelay o * 2 ^ (attempt - 1))] |}.
Proof.
  intros Hc Hop Hr Hne. cbn [retryLoop].
  rewrite attemptOnce_connected by assumption. rewrite Hop, Hr.
  destruct (Z.eqb_spec attempt (maxRetries o)); [contradiction | reflexivity].
Qed.

(** An error on the last attempt, or one that is not retryable, is raised
    enriched. *)
Lemma retryLoop_raise connected operation opName o remaining attempt lastError t e :
  connected (asked t) = true ->
  operation (invoked t) = Throw e ->
  attempt = maxRetries o \/ isRetryableError (Some e) = false ->
  retryLoop connected operation opName o (S remaining) attempt lastError t
  = (Rejected (ThrowEnhanced
       {| message := opName +:+ " failed after " +:+ pretty attempt
                     +:+ " attempts: " +:+ messageOf e;
          originalError := e;
          attempts := attempt;
          retryable := isRetryableError (Some e);
          errContext := context o;
          operationName := opName |}),
     {| asked := S (asked t); invoked := S (invoked t); console := console t |}).
Proof.
  intros Hc Hop Hor. cbn [retryLoop].
  rewrite attemptOnce_connected by assumption. rewrite Hop.
  destruct Hor as [-> | ->].
  - now rewrite Z.eqb_refl.
  - now rewrite orb_true_r.
Qed.

End PersistenceFacts.

Section RetryExhausted.

Context {A : Type}.
Variables (connected : nat -> bool) (operation : nat -> Outcome A).
Variable e : nat -> JsError.
Hypothesis always_connected : forall k, connected k = true.
Hypothesis always_throws : forall k, operation k = Throw (e k).
Hypothesis always_retryable : forall k, isRetryableError (Some (e k)) = true.

(** An operation that keeps failing with retryable errors is invoked on every
    remaining attempt, and the failure of the last one is raised. *)
Lemma retryLoop_exhausts opName o r :
  forall attempt lastError t,
    attempt = maxRetries o - Z.of_nat r ->
    exists x t',
      retryLoop connected operation opName o (S r) attempt lastError t
      = (Rejected (ThrowEnhanced x), t')
      /\ attempts x = maxRetries o
      /\ retryable x = true
      /\ originalError x = e (invoked t + r)%nat
      /\ errContext x = context o
      /\ invoked t' = (invoked t + S r)%nat.
Proof.
  induction r as [|r IH]; intros attempt lastError t Hat.
  - rewrite (retryLoop_raise _ _ _ _ _ _ _ _ (e (invoked t)))
      by (auto; left; cbn in Hat; lia).
    eexists _, _. split; [reflexivity|].
    cbn [attempts retryable originalError errContext invoked].
    rewrite always_retryable, Nat.add_0_r. cbn in Hat. repeat split; lia.
  - rewrite (retryLoop_retry _ _ _ _ _ _ _ _ (e (invoked t))) by (auto; lia).
    edestruct (IH (attempt + 1) (Some (e (invoked t)))) as (x & t' & Heq & ? & ? & Ho & ? & Hi);
      [lia|].
    exists x, t'. split; [exact Heq|]. cbn in Ho, Hi.
    repeat split; try assumption.
    + rewrite Ho. f_equal. lia.
    + lia.
Qed.

End RetryExhausted.

Lemma duplicateKey_code_retryable (e : JsError) :
  err_code e = Some (NumCode 11000) -> isRetryableError (Some e) = true.
Proof.
  intros Hc. unfold isRetryableError. rewrite Hc.
  destruct (includes "connection" _ || includes "timeout" _); reflexivity.
Qed.

(** C2 (as the code has it): a store error with the duplicate-key code 11000
    is classified retryable, so an operation that keeps failing with it while
    the connection is up is invoked on every one of the [maxRetries] attempts,
    and the failure raised at the end says [retryable = true]. *)
Theorem duplicate_key_is_retryable {A : Type}
    (connected : nat -> bool) (operation : nat -> Outcome A) (e : nat -> JsError)
    (opName : string) (o : Options) :
  (forall k, connected k = true) ->
  (forall k, operation k = Throw (e k)) ->
  (forall k, err_code (e k) = Some (NumCode 11000)) ->
  enableRetry o = true ->
  1 <= maxRetries o ->
  (forall k, isRetryableError (Some (e k)) = true)
  /\ exists x t',
       handlePersistenceOperation connected operation opName o noTrace
       = (Rejected (ThrowEnhanced x), t')
       /\ attempts x = maxRetries o
       /\ retryable x = true
       /\ invoked t' = Z.to_nat (maxRetries o).
Proof.
  intros Hc Hop Hcode Hen Hmax.
  assert (Hr : forall k, isRetryableError (Some (e k)) = true)
    by (intros k; apply duplicateKey_code_retryable, Hcode).
  split; [exact Hr|].
  unfold handlePersistenceOperation. rewrite Hen. cbn [negb].
  destruct (Z.to_nat (maxRetries o)) as [|r] eqn:Hn; [lia|].
  destruct (retryLoop_exhausts connected operation e Hc Hop Hr opName o r 1 None noTrace)
    as (x & t' & Heq & ? & ? & _ & _ & Hi); [lia|].
  exists x, t'. repeat split; assumption.
Qed.

Lemma duplicate_key_is_retryable_witness :
  isRetryableError (Some Sample.duplicateKey) = true
  /\ exists x t',
       handlePersistenceOperation Sample.online
         (fun _ => Throw Sample.duplicateKey : Outcome Z) "File create (7)"
         defaultOptions noTrace
       = (Rejected (ThrowEnhanced x), t')
       /\ attempts x = 3
       /\ retryable x = true
       /\ invoked t' = 3%nat.
Proof.
  destruct (duplicate_key_is_retryable Sample.online
              (fun _ => Throw Sample.duplicateKey : Outcome Z)
              (fun _ => Sample.duplicateKey) "File create (7)" defaultOptions)
    as [Hr Hx]; try reflexivity; try (cbn; lia).
  split; [exact (Hr 0%nat) | exact Hx].
Defined.

(** C2 (as the spec states it) fails: the classifier answers [true] on a
    duplicate-key error, and the wrapped operation is invoked three times
    before the failure is raised. *)
Lemma duplicate_key_not_fatal :
  isRetryableError (Some Sample.duplicateKey) = true
  /\ invoked (snd (handlePersistenceOperation Sample.online
                     (fun _ => Throw Sample.duplicateKey : Outcome Z)
                     "File create (7)" defaultOptions noTrace)) = 3%nat.
Proof. split; reflexivity. Qed.

(** C5: with the default [maxRetries], [baseDelay] and [enableRetry] and the
    connection up, an operation that fails twice with retryable errors and then
    resolves makes [handlePersistenceOperation] resolve to its value after
    three invocations, the success being logged as attempt 3 of 3; an
    operation that always fails with an error that is not retryable is invoked
    once, and the failure raised carries [attempts = 1], [retryable = false],
    the error caught and the caller's context. *)
Theorem withRetry_defaults {A : Type}
    (connected : nat -> bool) (operation : nat -> Outcome A)
    (opName : string) (ctx : list (string * string)) :
  (forall e0 e1 v,
      connected 0%nat = true -> connected 1%nat = true -> connected 2%nat = true ->
      operation 0%nat = Throw e0 -> isRetryableError (Some e0) = true ->
      operation 1%nat = Throw e1 -> isRetryableError (Some e1) = true ->
      operation 2%nat = Return v ->
      handlePersistenceOperation connected operation opName (contextOnly ctx) noTrace
      = (Resolved v,
         {| asked := 3; invoked := 3;
            console := [WarnRetrying opName 1 3 e0 1000;
                        WarnRetrying opName 2 3 e1 2000;
                        LogSucceeded opName 3 3] |}))
  /\ (forall e,
      connected 0%nat = true ->
      (forall k, operation k = Throw e) -> isRetryableError (Some e) = false ->
      handlePersistenceOperation connected operation opName (contextOnly ctx) noTrace
      = (Rejected (ThrowEnhanced
           {| message := opName +:+ " failed after 1 attempts: " +:+ messageOf e;
              originalError := e;
              attempts := 1;
              retryable := false;
              errContext := ctx;
              operationName := opName |}),
         {| asked := 1; invoked := 1; console := [] |})).
Proof.
  split.
  - intros e0 e1 v Hc0 Hc1 Hc2 H0 Hr0 H1 Hr1 H2.
    unfold handlePersistenceOperation. cbn [enableRetry contextOnly opt_enableRetry default negb].
    change (Z.to_nat (maxRetries (contextOnly ctx))) with 3%nat.
    rewrite (retryLoop_retry _ _ _ _ _ _ _ _ e0) by (assumption || discriminate).
    rewrite (retryLoop_retry _ _ _ _ _ _ _ _ e1) by (assumption || discriminate).
    cbn [retryLoop]. rewrite attemptOnce_connected by assumption.
    unfold noTrace. cbn [invoked asked console]. rewrite H2. reflexivity.
  - intros e Hc0 Hop Hr.
    unfold handlePersistenceOperation. cbn [enableRetry contextOnly opt_enableRetry default negb].
    change (Z.to_nat (maxRetries (contextOnly ctx))) with 3%nat.
    rewrite (retryLoop_raise _ _ _ _ _ _ _ _ e) by (auto).
    rewrite Hr. reflexivity.
Qed.

Lemma withRetry_defaults_witness :
  handlePersistenceOperation Sample.online Sample.flaky "Project save (1)"
    (contextOnly Sample.saveContext) noTrace
  = (Resolved 42,
     {| asked := 3; invoked := 3;
        console := [WarnRetrying "Project save (1)" 1 3 Sample.networkTimeout 1000;
                    WarnRetrying "Project save (1)" 2 3 Sample.networkTimeout 2000;
                    LogSucceeded "Project save (1)" 3 3] |})
  /\ handlePersistenceOperation Sample.online
       (fun _ => Throw Sample.validationFailed : Outcome Z) "Project save (1)"
       (contextOnly Sample.saveContext) noTrace
     = (Rejected (ThrowEnhanced
          {| message := "Project save (1) failed after 1 attempts: File name is required";
             originalError := Sample.validationFailed;
             attempts := 1;
             retryable := false;
             errContext := Sample.saveContext;
             operationName := "Project save (1)" |}),
        {| asked := 1; invoked := 1; console := [] |}).
Proof.
  split.
  - apply (proj1 (withRetry_defaults Sample.online Sample.flaky "Project save (1)"
                    Sample.saveContext) Sample.networkTimeout Sample.networkTimeout 42);
      reflexivity.
  - apply (proj2 (withRetry_defaults Sample.online
                    (fun _ => Throw Sample.validationFailed : Outcome Z) "Project save (1)"
                    Sample.saveContext) Sample.validationFailed);
      reflexivity.
Defined.

(** ** [deleteProject] *)

(** What a successful [deleteProject] has gone through: four connectivity
    checks that passed and a project that was found. *)
Lemma deleteProject_success connected s3 db id n m db' :
  deleteProject connected s3 db id = (JsonSuccess n m, db') ->
  let files := filter (fun f => projectId f = id) (fileMetadata db) in
  let s3Keys := omap truthyKey files in
  fileMetadata db' = filter (fun f => projectId f <> id) (fileMetadata db)
  /\ projects db' = deleteFirst id (projects db)
  /\ bucket db' = match deleteFiles s3 s3Keys (bucket db) with
                  | Return b => b
                  | Throw _ => bucket db
                  end
  /\ n = length files /\ m = length s3Keys.
Proof.
  unfold deleteProject, handleDatabaseOperation, attemptOnce, noTrace.
  cbn [asked invoked console].
  destruct (connected 0%nat); [|discriminate].
  destruct (findProject (projects db) id); [|discriminate].
  cbn [asked invoked console].
  destruct (connected 1%nat); [|discriminate].
  cbn [asked invoked console].
  destruct (connected 2%nat); [|discriminate].
  cbn [asked invoked console].
  destruct (connected 3%nat); [|discriminate].
  intros [= <- <- <-]. cbn [fileMetadata projects bucket].
  repeat split.
  destruct (omap truthyKey _); reflexivity.
Qed.

(** C9 (as the code has it): after a successful [deleteProject] no
    [FileMetadata] document of the project is left; a blob of the project is
    gone from the bucket when the batch delete of the blob store answered and
    did not report its key among the errors. When the batch delete throws,
    the deletion goes on and the bucket is as it was. *)
Theorem deleteProject_cascade connected s3 db id n m db' :
  deleteProject connected s3 db id = (JsonSuccess n m, db') ->
  (forall f, f ∈ fileMetadata db' -> projectId f <> id)
  /\ (forall errors f k,
         s3 = S3Deleted errors ->
         f ∈ fileMetadata db -> projectId f = id -> truthyKey f = Some k ->
         k ∉ errors -> k ∉ bucket db')
  /\ (forall e, s3 = S3Throws e -> bucket db' = bucket db).
Proof.
  intros H. apply deleteProject_success in H. cbv zeta in H.
  destruct H as (Hf & _ & Hb & _ & _).
  split; [|split].
  - intros f Hin. rewrite Hf in Hin. apply list_elem_of_filter in Hin. tauto.
  - intros errors f k -> Hin Hp Hk Hne.
    assert (Hkeys : k ∈ omap truthyKey (filter (fun f => projectId f = id) (fileMetadata db))).
    { apply list_elem_of_omap. exists f. split; [|exact Hk].
      apply list_elem_of_filter. split; assumption. }
    rewrite Hb. unfold deleteFiles.
    destruct (omap truthyKey _) as [|k0 ks] eqn:Hks.
    + inversion Hkeys.
    + intros Hin'. apply list_elem_of_filter in Hin'. tauto.
  - intros e ->. rewrite Hb. unfold deleteFiles.
    destruct (omap truthyKey _); reflexivity.
Qed.

Lemma deleteProject_cascade_witness :
  let db' := {| projects := []; fileMetadata := []; bucket := [] |} in
  deleteProject Sample.online (S3Deleted []) Sample.oneProject 1%N = (JsonSuccess 1 1, db')
  /\ (forall f, f ∈ fileMetadata db' -> projectId f <> 1%N)
  /\ "projects/1/files/2/App.js" ∉ bucket db'.
Proof.
  intros db'.
  assert (H : deleteProject Sample.online (S3Deleted []) Sample.oneProject 1%N
              = (JsonSuccess 1 1, db')) by (vm_compute; reflexivity).
  split; [exact H|].
  destruct (deleteProject_cascade _ _ _ _ _ _ _ H) as (Hfiles & Hblobs & _).
  split; [exact Hfiles|].
  apply (Hblobs [] Sample.appJs); try reflexivity.
  - apply list_elem_of_here.
  - apply not_elem_of_nil.
Defined.

(** C9 (as the spec states it) fails: the blob store refuses the batch
    delete, [deleteProject] answers success all the same, and the blob of the
    deleted project's file is still in the bucket. *)
Lemma deleteProject_leaves_blob :
  deleteProject Sample.online (S3Throws Sample.accessDenied) Sample.oneProject 1%N
  = (JsonSuccess 1 1,
     {| projects := []; fileMetadata := [];
        bucket := ["projects/1/files/2/App.js"] |})
  /\ s3Key Sample.appJs = Some "projects/1/files/2/App.js".
Proof. split; vm_compute; reflexivity. Qed.

(** ** Parent chains *)

Section Chains.

Variable store : list FileMetadata.

Lemma findById_Some id f :
  findById store id = Some f -> f ∈ store /\ _id f = id.
Proof.
  unfold findById. intros H. apply find_some in H as [Hin Heq].
  split; [now apply list_elem_of_In | now apply N.eqb_eq].
Qed.

Lemma findById_None id f : findById store id = None -> f ∈ store -> _id f <> id.
Proof.
  unfold findById. intros H Hin Heq.
  apply list_elem_of_In in Hin.
  apply (find_none _ _ H) in Hin. apply N.eqb_neq in Hin. contradiction.
Qed.

Lemma parentOf_Some x y :
  parentOf store x = Some y ->
  exists f, findById store x = Some f /\ parentId f = Some y.
Proof.
  unfold parentOf. destruct (findById store x) as [f|]; [|discriminate].
  intros H. now exists f.
Qed.

Lemma parentRel_id x y : parentRel store x y -> x ∈ (_id <$> store).
Proof.
  intros (f & Hf & _)%parentOf_Some. apply findById_Some in Hf as [Hin <-].
  now apply list_elem_of_fmap_2.
Qed.

(** The walk is a function: a node has at most one parent. *)
Lemma parentRel_functional x y z : parentRel store x y -> parentRel store x z -> y = z.
Proof. unfold parentRel. congruence. Qed.

(** No more distinct ids than documents. *)
Lemma visited_bound (vis : list ObjectId) :
  NoDup vis -> (forall v, v ∈ vis -> v ∈ (_id <$> store)) ->
  (length vis <= length store)%nat.
Proof.
  intros Hnd Hsub. rewrite <- (length_fmap _id store).
  apply submseteq_length, NoDup_submseteq; assumption.
Qed.

Lemma parentsBelow_spec x y :
  parentsBelow store = true -> parentRel store x y -> (y < x)%N.
Proof.
  unfold parentsBelow. rewrite forallb_forall.
  intros Hall (f & Hf & Hp)%parentOf_Some.
  apply findById_Some in Hf as [Hin <-].
  apply list_elem_of_In in Hin. specialize (Hall f Hin).
  rewrite Hp in Hall. now apply N.ltb_lt.
Qed.

Lemma parentsBelow_tc x y :
  parentsBelow store = true -> tc (parentRel store) x y -> (y < x)%N.
Proof.
  intros Hb. induction 1 as [x y H | x y z H _ IH].
  - eapply parentsBelow_spec; eassumption.
  - pose proof (parentsBelow_spec _ _ Hb H). lia.
Qed.

Lemma parentsBelow_acyclic : parentsBelow store = true -> acyclic store.
Proof. intros Hb x Hx. apply (parentsBelow_tc _ _ Hb) in Hx. lia. Qed.

(** The ancestor walk settles as soon as the fuel outlasts the documents it
    has not yet been at. *)
Lemma isFileDescendant_settles (Hacyclic : acyclic store) a :
  forall fuel vis c,
    NoDup vis ->
    (forall v, v ∈ vis -> tc (parentRel store) v c) ->
    (forall v, v ∈ vis -> v ∈ (_id <$> store)) ->
    (length store < fuel + length vis)%nat ->
    is_Some (isFileDescendant fuel store c a).
Proof.
  induction fuel as [|fuel IH]; intros vis c Hnd Hreach Hids Hlen.
  - pose proof (visited_bound vis Hnd Hids). cbn in Hlen. lia.
  - cbn [isFileDescendant].
    destruct (findById store c) as [f|] eqn:Hf; [|eauto].
    destruct (parentId f) as [p|] eqn:Hp; [|eauto].
    destruct (N.eqb p a); [eauto|].
    assert (Hstep : parentRel store c p).
    { unfold parentRel, parentOf. now rewrite Hf. }
    apply (IH (c :: vis)).
    + apply NoDup_cons. split; [|assumption].
      intros Hin. apply (Hacyclic c), Hreach, Hin.
    + intros v [->|Hin]%elem_of_cons.
      * now apply tc_once.
      * eapply tc_r; [apply Hreach, Hin | exact Hstep].
    + intros v [->|Hin]%elem_of_cons; [|auto].
      eapply parentRel_id, Hstep.
    + cbn [length]. lia.
Qed.

(** What the walk answers is whether the chain meets the ancestor. *)
Lemma isFileDescendant_true a :
  forall fuel c, isFileDescendant fuel store c a = Some true -> descendantOf store c a.
Proof.
  induction fuel as [|fuel IH]; intros c; [discriminate|].
  cbn [isFileDescendant].
  destruct (findById store c) as [f|] eqn:Hf; [|discriminate].
  destruct (parentId f) as [p|] eqn:Hp; [|discriminate].
  assert (Hstep : parentRel store c p).
  { unfold parentRel, parentOf. now rewrite Hf. }
  destruct (N.eqb_spec p a) as [->|Hne].
  - intros _. now apply tc_once.
  - intros H. eapply tc_l; [exact Hstep | apply IH, H].
Qed.

Lemma isFileDescendant_false a :
  forall fuel c, isFileDescendant fuel store c a = Some false -> ~ descendantOf store c a.
Proof.
  induction fuel as [|fuel IH]; intros c; [discriminate|].
  cbn [isFileDescendant]. unfold descendantOf.
  destruct (findById store c) as [f|] eqn:Hf.
  - destruct (parentId f) as [p|] eqn:Hp.
    + assert (Hstep : parentRel store c p).
      { unfold parentRel, parentOf. now rewrite Hf. }
      destruct (N.eqb_spec p a) as [->|Hne]; [discriminate|].
      intros H Htc. apply (IH _ H). unfold descendantOf.
      inversion Htc as [? ? H1 | ? y ? H1 H2]; subst.
      * now rewrite (parentRel_functional _ _ _ Hstep H1) in Hne.
      * now rewrite (parentRel_functional _ _ _ Hstep H1).
    + intros _ Htc.
      assert (exists y, parentRel store c y) as [y Hy]
        by (inversion Htc; eauto).
      unfold parentRel, parentOf in Hy. rewrite Hf in Hy. congruence.
  - intros _ Htc.
    assert (exists y, parentRel store c y) as [y Hy]
      by (inversion Htc; eauto).
    unfold parentRel, parentOf in Hy. rewrite Hf in Hy. discriminate.
Qed.

End Chains.

(** ** [isFileDescendant] *)

(** On an acyclic store, one unit of fuel more than there are documents is
    enough. *)
Lemma isFileDescendant_fuel store :
  acyclic store ->
  forall candidateId ancestorId,
    is_Some (isFileDescendant (S (length store)) store candidateId ancestorId).
Proof.
  intros Hacyclic c a.
  apply (isFileDescendant_settles store Hacyclic a (S (length store)) [] c).
  - constructor.
  - intros v Hv. inversion Hv.
  - intros v Hv. inversion Hv.
  - cbn [length]. lia.
Qed.

(** C4 (as the code has it): the walk has no bound of its own; it settles on
    every store whose parent chains are acyclic (invariant I2), within one
    lookup more than the store has documents, and then answers whether the
    chain from the candidate meets the ancestor. *)
Theorem isFileDescendant_settles_acyclic store :
  acyclic store ->
  forall candidateId ancestorId,
    exists b,
      isFileDescendant (S (length store)) store candidateId ancestorId = Some b
      /\ (b = true <-> descendantOf store candidateId ancestorId).
Proof.
  intros Hacyclic c a.
  destruct (isFileDescendant_fuel store Hacyclic c a) as [b Hb].
  exists b. split; [exact Hb|]. destruct b.
  - split; [intros _; eapply isFileDescendant_true, Hb | reflexivity].
  - split; [discriminate|].
    intros Hd. now apply (isFileDescendant_false _ _ _ _ Hb) in Hd.
Qed.

Lemma isFileDescendant_settles_acyclic_witness :
  exists b,
    isFileDescendant 6 Sample.tree 5 1 = Some b
    /\ (b = true <-> descendantOf Sample.tree 5 1).
Proof.
  apply (isFileDescendant_settles_acyclic Sample.tree).
  apply parentsBelow_acyclic. reflexivity.
Defined.

Lemma isFileDescendant_loop_step fuel :
  isFileDescendant fuel Sample.loop 1 3 = None
  /\ isFileDescendant fuel Sample.loop 2 3 = None.
Proof.
  induction fuel as [|fuel [IH1 IH2]]; [split; reflexivity|].
  split; cbn [isFileDescendant]; [exact IH2 | exact IH1].
Qed.

(** C4 (as the spec states it) fails: on two folders that are each other's
    parent, the walk towards a third id settles for no amount of fuel. *)
Lemma isFileDescendant_never_settles :
  ~ exists fuel, is_Some (isFileDescendant fuel Sample.loop 1 3).
Proof.
  intros [fuel [b Hb]].
  rewrite (proj1 (isFileDescendant_loop_step fuel)) in Hb. discriminate.
Qed.

(** ** [validateHierarchyOperation] *)

Lemma findFolderIn_Some store id proj g :
  findFolderIn store id proj = Some g -> folderOf store id proj.
Proof.
  unfold findFolderIn. intros H. apply find_some in H as [Hin Hq].
  apply andb_prop in Hq as [Hq Hty]. apply andb_prop in Hq as [Hid Hpr].
  exists g. repeat split.
  - now apply list_elem_of_In.
  - now apply N.eqb_eq.
  - now apply N.eqb_eq.
  - unfold isFolder in Hty. destruct (type g); [discriminate | reflexivity].
Qed.

Lemma findFolderIn_None store id proj :
  findFolderIn store id proj = None -> ~ folderOf store id proj.
Proof.
  unfold findFolderIn. intros H (g & Hin & Hid & Hpr & Hty).
  apply list_elem_of_In in Hin. apply (find_none _ _ H) in Hin.
  unfold isFolder in Hin. rewrite Hid, Hpr, Hty, !N.eqb_refl in Hin. discriminate.
Qed.

(** C3 (as the code has it): a move to the root ([newParentId] null) is
    accepted without any lookup. For a move under another node
    [newParentId]: the call settles on every acyclic store; it fails with
    "File not found" when the moved node is absent; else, when the node is a
    folder and [newParentId] is a proper descendant of it, with "Cannot move
    folder into its own descendant"; else, when [newParentId] is not a folder
    of the project (absent, a file, or of another project alike), with "New
    parent folder not found"; and it succeeds otherwise. *)
Theorem validateHierarchyOperation_checks store fileId proj :
  (forall fuel, validateHierarchyOperation fuel store fileId None proj = Some (Return true))
  /\ (forall np, np <> fileId ->
        (acyclic store ->
           exists r, validateHierarchyOperation (S (length store)) store fileId (Some np) proj
                     = Some r)
        /\ (forall fuel r,
              validateHierarchyOperation fuel store fileId (Some np) proj = Some r ->
              (findById store fileId = None /\ r = Throw (newError "File not found"))
              \/ (exists f, findById store fileId = Some f
                  /\ ((type f = folder /\ descendantOf store np fileId
                       /\ r = Throw (newError "Cannot move folder into its own descendant"))
                      \/ (~ (type f = folder /\ descendantOf store np fileId)
                          /\ ((~ folderOf store np proj
                               /\ r = Throw (newError "New parent folder not found"))
                              \/ (folderOf store np proj /\ r = Return true))))))).
Proof.
  split; [reflexivity|]. intros np _. split.
  - intros Hacyclic. unfold validateHierarchyOperation.
    destruct (findById store fileId) as [f|]; [|eauto].
    destruct (isFolder f).
    + destruct (isFileDescendant_fuel store Hacyclic np fileId) as [b ->].
      destruct b; [eauto|]. destruct (findFolderIn store np proj); eauto.
    + destruct (findFolderIn store np proj); eauto.
  - intros fuel r. unfold validateHierarchyOperation.
    destruct (findById store fileId) as [f|] eqn:Hf; [|intros [= <-]; now left].
    intros H. right. exists f. split; [reflexivity|].
    assert (Hrest : forall b : bool,
      (if b then Some (Throw (newError "Cannot move folder into its own descendant"))
       else match findFolderIn store np proj with
            | Some _ => Some (Return true)
            | None => Some (Throw (newError "New parent folder not found"))
            end) = Some r ->
      b = false ->
      (~ folderOf store np proj /\ r = Throw (newError "New parent folder not found"))
      \/ (folderOf store np proj /\ r = Return true)).
    { intros b Hb ->.
      destruct (findFolderIn store np proj) as [g|] eqn:Hg; injection Hb as <-.
      - right. split; [eapply findFolderIn_Some, Hg | reflexivity].
      - left. split; [apply findFolderIn_None, Hg | reflexivity]. }
    unfold isFolder in H. destruct (type f) eqn:Hty.
    + right. split; [intros [? _]; discriminate|].
      apply (Hrest false); [|reflexivity].
      destruct (findFolderIn store np proj); exact H.
    + destruct (isFileDescendant fuel store np fileId) as [[|]|] eqn:Hd; [| |discriminate].
      * left. injection H as <-. repeat split.
        eapply isFileDescendant_true, Hd.
      * right. split.
        { intros [_ Hdesc]. now apply (isFileDescendant_false _ _ _ _ Hd) in Hdesc. }
        apply (Hrest false); [|reflexivity].
        destruct (findFolderIn store np proj); exact H.
Qed.

Lemma validateHierarchyOperation_checks_witness :
  (exists r, validateHierarchyOperation 6 Sample.tree 1 (Some 4%N) 1 = Some r)
  /\ descendantOf Sample.tree 4 1.
Proof.
  destruct (validateHierarchyOperation_checks Sample.tree 1 1) as [_ H].
  destruct (H 4%N ltac:(discriminate)) as [Hsettles Hchecks].
  split.
  - apply Hsettles, parentsBelow_acyclic. reflexivity.
  - destruct (Hchecks 6%nat
                (Throw (newError "Cannot move folder into its own descendant"))
                eq_refl)
      as [[Hnone _] | (f & _ & [(_ & Hdesc & _) | (_ & [[_ Hr] | [_ Hr]])])].
    + discriminate Hnone.
    + exact Hdesc.
    + discriminate Hr.
    + discriminate Hr.
Defined.

(** C3 (as the spec states it) fails. A node that does not exist is moved to
    the root and the call succeeds; a target that is a file and a target that
    is absent fail with one and the same error; and the cycle check comes
    before the check of the target, so a folder moved under a file below it
    fails as a cyclic move. *)
Lemma validateHierarchyOperation_differs :
  findById Sample.tree 9 = None
  /\ validateHierarchyOperation 0 Sample.tree 9 None 1 = Some (Return true)
  /\ validateHierarchyOperation 6 Sample.tree 4 (Some 2%N) 1
     = Some (Throw (newError "New parent folder not found"))
  /\ validateHierarchyOperation 6 Sample.tree 4 (Some 9%N) 1
     = Some (Throw (newError "New parent folder not found"))
  /\ validateHierarchyOperation 6 Sample.tree 1 (Some 5%N) 1
     = Some (Throw (newError "Cannot move folder into its own descendant")).
Proof. repeat split. Qed.

(** ** Names: the split at the last dot *)

Lemma string_app_cons (a : Ascii.ascii) (s t : string) : String a s +:+ t = String a (s +:+ t).
Proof. reflexivity. Qed.

Lemma string_app_empty_l (t : string) : EmptyString +:+ t = t.
Proof. reflexivity. Qed.

Lemma string_app_empty_r (s : string) : s +:+ EmptyString = s.
Proof. induction s as [|a s IH]; [reflexivity|]. now rewrite string_app_cons, IH. Qed.

Section SplitFacts.

Variable c : Ascii.ascii.

Lemma pop_cons w1 w2 ws : pop (w1 :: w2 :: ws) = pop (w2 :: ws).
Proof. reflexivity. Qed.

(** [split], [lastIndexOf] and [includes] agree on where the last separator
    is. *)
Lemma split_lastIndexOf s :
  match lastIndexOf c s with
  | Some i =>
      String.substring 0 i s +:+ String c (pop (split c s)) = s
      /\ includesChar c (pop (split c s)) = false
      /\ includesChar c s = true
      /\ exists w1 w2 ws, split c s = w1 :: w2 :: ws
  | None =>
      split c s = [s] /\ includesChar c s = false
  end.
Proof.
  induction s as [|a s IH]; [split; reflexivity|].
  cbn [lastIndexOf split includesChar].
  destruct (lastIndexOf c s) as [i|].
  - destruct IH as (Heq & Hno & Hin & w1 & w2 & ws & Hs).
    rewrite Hs in *. rewrite Hin, orb_true_r.
    destruct (Ascii.eqb a c);
      rewrite !pop_cons in *; cbn [String.substring];
      rewrite string_app_cons, Heq; eauto 10.
  - destruct IH as [Hs Hin]. rewrite Hs, Hin.
    destruct (Ascii.eqb_spec a c) as [->|Hne].
    + cbn [String.substring pop last orb]. rewrite string_app_empty_l. eauto 10.
    + split; reflexivity.
Qed.

End SplitFacts.

(** The stem and the extension make up the base name; the extension is empty
    when the name has no dot, and is the last dot with what follows it
    otherwise. *)
Lemma stem_extension baseName :
  nameWithoutExtOf baseName +:+ extensionOf baseName = baseName
  /\ (includesChar dot baseName = false -> extensionOf baseName = EmptyString)
  /\ (includesChar dot baseName = true ->
      exists ext, extensionOf baseName = String dot ext /\ includesChar dot ext = false).
Proof.
  unfold nameWithoutExtOf, extensionOf.
  pose proof (split_lastIndexOf dot baseName) as H.
  destruct (lastIndexOf dot baseName) as [i|].
  - destruct H as (Heq & Hno & -> & _). repeat split; [exact Heq | discriminate | eauto].
  - destruct H as [_ ->]. repeat split; [|discriminate].
    apply string_app_empty_r.
Qed.

Lemma string_length_app (s1 s2 : string) :
  String.length (s1 +:+ s2) = (String.length s1 + String.length s2)%nat.
Proof.
  induction s1 as [|a s1 IH]; [reflexivity|].
  rewrite string_app_cons. cbn [String.length]. now rewrite IH.
Qed.

Lemma string_app_inj_r (s x y : string) : x +:+ s = y +:+ s -> x = y.
Proof.
  revert y. induction x as [|a x IH]; intros [|b y] H.
  - reflexivity.
  - apply (f_equal String.length) in H. rewrite !string_length_app in H. cbn in H. lia.
  - apply (f_equal String.length) in H. rewrite !string_length_app in H. cbn in H. lia.
  - rewrite !string_app_cons in H. injection H as -> H. f_equal. now apply IH.
Qed.

Lemma numbered_inj baseName (a b : N) :
  numbered baseName a = numbered baseName b -> a = b.
Proof.
  unfold numbered. intros H.
  apply String.app_inj, String.app_inj in H.
  apply (string_app_inj_r (")" +:+ extensionOf baseName)) in H.
  now apply pretty_N_inj.
Qed.

Lemma numbered_length baseName (a : N) :
  (String.length baseName < String.length (numbered baseName a))%nat.
Proof.
  unfold numbered. rewrite !string_length_app.
  destruct (stem_extension baseName) as [H _].
  apply (f_equal String.length) in H. rewrite string_length_app in H.
  cbn [String.length]. lia.
Qed.

Lemma candidate_inj baseName : Inj (=) (=) (candidate baseName).
Proof.
  intros [|i] [|j] H; cbn [candidate] in H.
  - reflexivity.
  - pose proof (numbered_length baseName (N.of_nat (S j))) as Hl.
    rewrite <- H in Hl. lia.
  - pose proof (numbered_length baseName (N.of_nat (S i))) as Hl.
    rewrite H in Hl. lia.
  - apply numbered_inj in H. lia.
Qed.

(** ** [checkNamingConflict] and [generateUniqueName] *)

Lemma checkNamingConflict_spec store proj nm parent excludeId :
  checkNamingConflict store proj nm parent excludeId = true
  <-> nameTaken store proj nm parent excludeId.
Proof.
  unfold checkNamingConflict, nameTaken. split.
  - destruct (List.find _ store) as [f|] eqn:Hf; [intros _|discriminate].
    apply find_some in Hf as [Hin Hq].
    apply andb_prop in Hq as [Hq He]. apply andb_prop in Hq as [Hq Hp].
    apply andb_prop in Hq as [Hpr Hn].
    exists f. repeat split.
    + now apply list_elem_of_In.
    + now apply N.eqb_eq.
    + now apply String.eqb_eq.
    + now apply bool_decide_eq_true in Hp.
    + destruct excludeId as [x|]; [|discriminate].
      intros [= ->]. now rewrite N.eqb_refl in He.
  - intros (f & Hin & Hpr & Hn & Hp & He).
    destruct (List.find _ store) as [g|] eqn:Hg; [reflexivity|].
    apply list_elem_of_In in Hin. apply (find_none _ _ Hg) in Hin.
    rewrite Hpr, Hn, N.eqb_refl, String.eqb_refl in Hin.
    rewrite bool_decide_eq_true_2 in Hin by assumption.
    destruct excludeId as [x|]; [|discriminate].
    destruct (N.eqb_spec (_id f) x) as [<-|]; [congruence | discriminate].
Qed.

Section UniqueName.

Variables (store : list FileMetadata) (proj : ObjectId) (baseName : string).
Variables (parent excludeId : option ObjectId).
Variable siblings : list FileMetadata.
Hypothesis covers :
  forall f, conflictingSibling store proj baseName parent excludeId f -> f ∈ siblings.

(** Candidates that are all taken are taken by as many documents. *)
Lemma taken_candidates_bound j :
  (forall i, (i < j)%nat -> nameTaken store proj (candidate baseName i) parent excludeId) ->
  (j <= length siblings)%nat.
Proof.
  intros Htaken.
  rewrite <- (length_seq j 0), <- (length_fmap (candidate baseName)),
    <- (length_fmap name siblings).
  apply submseteq_length, NoDup_submseteq.
  - apply NoDup_fmap_2; [apply candidate_inj | apply NoDup_seq].
  - intros nm (i & -> & Hi%elem_of_seq)%list_elem_of_fmap.
    destruct (Htaken i ltac:(lia)) as (f & Hin & Hpr & Hn & Hp & He).
    rewrite <- Hn. apply list_elem_of_fmap_2, covers.
    repeat split; try assumption. now exists i.
Qed.

(** Some candidate is free, and the first free one comes after at most as many
    taken ones as there are conflicting siblings. *)
Lemma first_free_candidate :
  exists k, (k <= length siblings)%nat
    /\ (forall i, (i < k)%nat -> nameTaken store proj (candidate baseName i) parent excludeId)
    /\ ~ nameTaken store proj (candidate baseName k) parent excludeId.
Proof.
  assert (H : forall d j,
    (j + d = S (length siblings))%nat ->
    (forall i, (i < j)%nat -> nameTaken store proj (candidate baseName i) parent excludeId) ->
    exists k, (k <= length siblings)%nat
      /\ (forall i, (i < k)%nat -> nameTaken store proj (candidate baseName i) parent excludeId)
      /\ ~ nameTaken store proj (candidate baseName k) parent excludeId).
  { induction d as [|d IH]; intros j Hj Htaken.
    - apply taken_candidates_bound in Htaken. lia.
    - destruct (checkNamingConflict store proj (candidate baseName j) parent excludeId) eqn:Hc.
      + apply (IH (S j)); [lia|].
        intros i Hi. destruct (decide (i = j)) as [->|].
        * now apply checkNamingConflict_spec.
        * apply Htaken. lia.
      + exists j. split; [lia|]. split; [exact Htaken|].
        intros Ht%checkNamingConflict_spec. congruence. }
  apply (H (S (length siblings)) 0%nat); [lia|]. intros i Hi. lia.
Qed.

Lemma generateUniqueName_loop_runs k :
  (forall i, (i < k)%nat -> nameTaken store proj (candidate baseName i) parent excludeId) ->
  ~ nameTaken store proj (candidate baseName k) parent excludeId ->
  forall fuel j, (j <= k)%nat ->
    generateUniqueName_loop fuel store proj baseName parent excludeId
      (candidate baseName j) (N.of_nat (S j))
    = if decide (k - j < fuel)%nat then Some (candidate baseName k) else None.
Proof.
  intros Htaken Hfree. induction fuel as [|fuel IH]; intros j Hj.
  - reflexivity.
  - cbn [generateUniqueName_loop].
    destruct (decide (j = k)) as [->|Hne].
    + destruct (checkNamingConflict _ _ (candidate baseName k) _ _) eqn:Hc.
      * now apply checkNamingConflict_spec in Hc.
      * rewrite decide_True by lia. reflexivity.
    + rewrite (proj2 (checkNamingConflict_spec _ _ _ _ _)) by (apply Htaken; lia).
      replace (N.of_nat (S j) + 1)%N with (N.of_nat (S (S j))) by lia.
      change (numbered baseName (N.of_nat (S j))) with (candidate baseName (S j)).
      rewrite IH by lia.
      destruct (decide (k - S j < fuel)%nat), (decide (k - j < S fuel)%nat);
        reflexivity || lia.
Qed.

End UniqueName.

(** C7: [generateUniqueName] answers the first of the names [baseName],
    "stem (1)ext", "stem (2)ext", ... that no sibling bears: [baseName]
    itself when it is free, and else the numbered name with the smallest
    number from 1 on that is free. When all the siblings that bear one of
    these names are among [N] documents, the answer comes after at most [N]+1
    conflict checks (exactly one more than there are taken names before the
    free one). The stem and the extension make up [baseName]; the extension
    is empty when [baseName] has no dot and is its last dot with what follows
    otherwise. *)
Theorem generateUniqueName_first_free store proj baseName parent excludeId siblings :
  (forall f, conflictingSibling store proj baseName parent excludeId f -> f ∈ siblings) ->
  (exists k,
      (k <= length siblings)%nat
      /\ (forall i, (i < k)%nat ->
            nameTaken store proj (candidate baseName i) parent excludeId)
      /\ ~ nameTaken store proj (candidate baseName k) parent excludeId
      /\ (forall fuel,
            generateUniqueName fuel store proj baseName parent excludeId
            = if decide (k < fuel)%nat then Some (candidate baseName k) else None)
      /\ generateUniqueName (S (length siblings)) store proj baseName parent excludeId
         = Some (candidate baseName k))
  /\ candidate baseName 0 = baseName
  /\ (forall n, (1 <= n)%nat ->
        candidate baseName n
        = nameWithoutExtOf baseName +:+ " (" +:+ pretty (N.of_nat n) +:+ ")"
          +:+ extensionOf baseName)
  /\ nameWithoutExtOf baseName +:+ extensionOf baseName = baseName
  /\ (includesChar dot baseName = false -> extensionOf baseName = EmptyString)
  /\ (includesChar dot baseName = true ->
      exists ext, extensionOf baseName = String dot ext /\ includesChar dot ext = false).
Proof.
  intros Hcov. split; [|split; [reflexivity|split]].
  - destruct (first_free_candidate store proj baseName parent excludeId siblings Hcov)
      as (k & Hk & Htaken & Hfree).
    exists k. split; [exact Hk|]. split; [exact Htaken|]. split; [exact Hfree|].
    assert (Hrun : forall fuel,
      generateUniqueName fuel store proj baseName parent excludeId
      = if decide (k < fuel)%nat then Some (candidate baseName k) else None).
    { intros fuel. unfold generateUniqueName.
      change baseName with (candidate baseName 0) at 2.
      change 1%N with (N.of_nat 1).
      rewrite (generateUniqueName_loop_runs _ _ _ _ _ k Htaken Hfree) by lia.
      rewrite Nat.sub_0_r. reflexivity. }
    split; [exact Hrun|]. rewrite Hrun. rewrite decide_True by lia. reflexivity.
  - intros [|n] Hn; [lia | reflexivity].
  - apply stem_extension.
Qed.

(** ** Descendants *)

Section Descendants.

Variable store : list FileMetadata.
Hypothesis Hunique : uniqueIds store.
Hypothesis Hacyclic : acyclic store.
Hypothesis Hfolders : parentsAreFolders store.

Let R := parentRel store.

Lemma store_NoDup : NoDup store.
Proof. eapply NoDup_fmap_1, Hunique. Qed.

Lemma uniqueIds_inj f g : f ∈ store -> g ∈ store -> _id f = _id g -> f = g.
Proof.
  clear Hacyclic Hfolders. unfold uniqueIds in Hunique.
  induction store as [|h l IH]; intros Hf Hg Heq; [inversion Hf|].
  cbn in Hunique. apply NoDup_cons in Hunique as [Hh Hl].
  apply elem_of_cons in Hf as [->|Hf]; apply elem_of_cons in Hg as [->|Hg].
  - reflexivity.
  - exfalso. apply Hh. rewrite Heq. now apply list_elem_of_fmap_2.
  - exfalso. apply Hh. rewrite <- Heq. now apply list_elem_of_fmap_2.
  - now apply IH.
Qed.

Lemma findById_elem f : f ∈ store -> findById store (_id f) = Some f.
Proof.
  intros Hin. destruct (findById store (_id f)) as [g|] eqn:Hg.
  - apply findById_Some in Hg as [Hg Hid]. f_equal. now apply uniqueIds_inj.
  - exfalso. now apply (findById_None _ _ f Hg).
Qed.

Lemma child_parentRel c p : c ∈ store -> parentId c = Some p -> R (_id c) p.
Proof.
  intros Hin Hp. unfold R, parentRel, parentOf. now rewrite findById_elem.
Qed.

Lemma parentRel_child x p :
  R x p -> exists c, c ∈ store /\ _id c = x /\ parentId c = Some p.
Proof.
  intros (c & Hc & Hp)%parentOf_Some. apply findById_Some in Hc as [Hin Hid]. eauto.
Qed.

Lemma elem_of_findByParent c p :
  c ∈ findByParent store p <-> c ∈ store /\ parentId c = Some p.
Proof. unfold findByParent. rewrite list_elem_of_filter. tauto. Qed.

(** The last step of a chain. *)
Lemma tc_last (x a : ObjectId) : tc R x a -> R x a \/ exists y, tc R x y /\ R y a.
Proof.
  induction 1 as [x a H | x y a H Htc IH].
  - now left.
  - right. destruct IH as [IH | (z & Hz & Hza)].
    + exists y. split; [now apply tc_once | exact IH].
    + exists z. split; [eapply tc_l; eassumption | exact Hza].
Qed.

(** Ancestors of one node lie on one chain. *)
Lemma tc_linear (x a b : ObjectId) : tc R x a -> tc R x b -> a = b \/ tc R a b \/ tc R b a.
Proof.
  intros Ha. revert b. induction Ha as [x a H | x y a H Htc IH]; intros b Hb.
  - inversion Hb as [? ? H1 | ? z ? H1 H2]; subst.
    + left. eapply parentRel_functional; eassumption.
    + right. left. now rewrite (parentRel_functional _ _ _ _ H H1).
  - inversion Hb as [? ? H1 | ? z ? H1 H2]; subst.
    + right. right. now rewrite <- (parentRel_functional _ _ _ _ H H1).
    + apply IH. now rewrite (parentRel_functional _ _ _ _ H H1).
Qed.

(** Two children of one parent are not below one another. *)
Lemma siblings_unrelated (c c' p : ObjectId) : R c p -> R c' p -> ~ tc R c c'.
Proof.
  intros Hc Hc' Htc. apply (Hacyclic p). unfold descendantOf. fold R.
  inversion Htc as [? ? H1 | ? y ? H1 H2]; subst.
  - rewrite <- (parentRel_functional _ _ _ _ Hc H1) in Hc'. now apply tc_once.
  - rewrite <- (parentRel_functional _ _ _ _ Hc H1) in H2.
    eapply tc_r; eassumption.
Qed.

(** Nothing lies below a file. *)
Lemma file_no_descendant c x : c ∈ store -> type c = file -> ~ tc R x (_id c).
Proof.
  intros Hin Hty Htc.
  assert (exists y, R y (_id c)) as [y Hy].
  { destruct (tc_last _ _ Htc) as [H | (y & _ & H)]; eauto. }
  apply parentRel_child in Hy as (g & Hg & _ & Hp).
  rewrite (Hfolders g c Hg Hin Hp) in Hty. discriminate.
Qed.

(** The documents below [p]: its children and what lies below them. *)
Lemma descendant_via_child f p :
  f ∈ store /\ descendantOf store (_id f) p
  <-> exists c, c ∈ findByParent store p
        /\ (f = c \/ (f ∈ store /\ descendantOf store (_id f) (_id c))).
Proof.
  unfold descendantOf. fold R. split.
  - intros [Hin Htc]. destruct (tc_last _ _ Htc) as [H | (y & Hy & H)].
    + exists f. split; [|now left].
      apply elem_of_findByParent. split; [exact Hin|].
      apply parentRel_child in H as (c & Hc & Hid & Hp).
      now rewrite <- (uniqueIds_inj c f Hc Hin Hid).
    + apply parentRel_child in H as (c & Hc & Hid & Hp).
      exists c. split; [now apply elem_of_findByParent|].
      right. split; [exact Hin | now rewrite Hid].
  - intros (c & [Hc Hp]%elem_of_findByParent & [-> | [Hin Htc]]).
    + split; [exact Hc | now apply tc_once, child_parentRel].
    + split; [exact Hin|]. eapply tc_r; [exact Htc | now apply child_parentRel].
Qed.

(** The ids on the way down to the folder [getChildren] is at: no id twice,
    all of the store, each one the folder itself or above it. *)
Definition onPath (p : ObjectId) (vis : list ObjectId) : Prop :=
  NoDup vis
  /\ (forall v, v ∈ vis -> v ∈ (_id <$> store))
  /\ (forall v, v ∈ vis -> v = p \/ tc R p v).

Lemma onPath_child p vis c :
  onPath p vis -> c ∈ store -> parentId c = Some p -> onPath (_id c) (_id c :: vis).
Proof.
  intros (Hnd & Hids & Hup) Hin Hp.
  pose proof (child_parentRel c p Hin Hp) as Hstep.
  split; [|split].
  - apply NoDup_cons. split; [|exact Hnd].
    intros Hv. apply (Hacyclic p). unfold descendantOf. fold R.
    destruct (Hup _ Hv) as [Heq | Htc].
    + rewrite Heq in Hstep. now apply tc_once.
    + eapply tc_r; eassumption.
  - intros v [->|Hv]%elem_of_cons; [|auto]. now apply list_elem_of_fmap_2.
  - intros v [->|Hv]%elem_of_cons; [now left|]. right.
    destruct (Hup _ Hv) as [-> | Htc]; [now apply tc_once|].
    eapply tc_l; eassumption.
Qed.

(** What one call of [getChildren] is to append: the documents below
    [p], each once. *)
Definition appendsBelow (p : ObjectId) (acc : list FileMetadata)
    (result : option (list FileMetadata)) : Prop :=
  exists ds, result = Some (acc ++ ds)
    /\ NoDup ds
    /\ forall f, f ∈ ds <-> f ∈ store /\ descendantOf store (_id f) p.

Lemma forEach_children fuel p :
  (forall c acc, c ∈ store -> parentId c = Some p ->
     appendsBelow (_id c) acc (getChildren fuel store (_id c) acc)) ->
  forall cs acc,
    NoDup cs ->
    (forall c, c ∈ cs -> c ∈ store /\ parentId c = Some p) ->
    exists ds,
      forEachM
        (fun child descendants =>
           if isFolder child
           then getChildren fuel store (_id child) (descendants ++ [child])
           else Some (descendants ++ [child])) cs acc
      = Some (acc ++ ds)
      /\ NoDup ds
      /\ forall f, f ∈ ds <->
            exists c, c ∈ cs
              /\ (f = c \/ (f ∈ store /\ descendantOf store (_id f) (_id c))).
Proof.
  intros IHfuel. induction cs as [|c cs IHcs]; intros acc Hnd Hcs.
  - exists []. rewrite app_nil_r. split; [reflexivity|]. split; [constructor|].
    intros f. split; [intros H; inversion H | intros (c & H & _); inversion H].
  - apply NoDup_cons in Hnd as [Hc Hnd].
    destruct (Hcs c ltac:(left)) as [Hin Hp].
    pose proof (child_parentRel c p Hin Hp) as Hstep.
    assert (Hbody : appendsBelow (_id c) (acc ++ [c])
              (if isFolder c then getChildren fuel store (_id c) (acc ++ [c])
               else Some (acc ++ [c]))).
    { destruct (isFolder c) eqn:Hty; [now apply IHfuel|].
      exists []. rewrite app_nil_r. split; [reflexivity|]. split; [constructor|].
      intros f. split; [intros H; inversion H|]. intros [_ Htc].
      exfalso. apply (file_no_descendant c (_id f) Hin); [|exact Htc].
      unfold isFolder in Hty. destruct (type c); [reflexivity | discriminate]. }
    destruct Hbody as (dc & Hdc & Hnd_c & Hmem_c).
    destruct (IHcs ((acc ++ [c]) ++ dc) Hnd) as (dr & Hdr & Hnd_r & Hmem_r).
    { intros c' Hc'. apply Hcs. now right. }
    assert (Hsib : forall c', c' ∈ cs -> ~ tc R (_id c) (_id c') /\ ~ tc R (_id c') (_id c)
                                        /\ _id c <> _id c').
    { intros c' Hc'. destruct (Hcs c' ltac:(now right)) as [Hin' Hp'].
      pose proof (child_parentRel c' p Hin' Hp') as Hstep'.
      split; [|split].
      - now apply (siblings_unrelated _ _ p).
      - now apply (siblings_unrelated _ _ p).
      - intros Heq. apply Hc. now rewrite (uniqueIds_inj c c' Hin Hin' Heq). }
    exists (c :: dc ++ dr). split; [|split].
    + cbn [forEachM]. rewrite Hdc, Hdr. f_equal.
      rewrite <- !app_assoc. reflexivity.
    + apply NoDup_cons. split.
      * intros [Hx|Hx]%elem_of_app.
        -- apply Hmem_c in Hx as [_ Hx]. now apply (Hacyclic (_id c)).
        -- apply Hmem_r in Hx as (c' & Hc' & [-> | [_ Hx]]); [contradiction|].
           destruct (Hsib c' Hc') as (H1 & _ & _). exact (H1 Hx).
      * apply NoDup_app. split; [exact Hnd_c|]. split; [|exact Hnd_r].
        intros f [_ Hfc]%Hmem_c (c' & Hc' & [-> | [_ Hfc']])%Hmem_r.
        -- destruct (Hsib c' Hc') as (_ & H2 & _). exact (H2 Hfc).
        -- destruct (Hsib c' Hc') as (H1 & H2 & H3).
           destruct (tc_linear _ _ _ Hfc Hfc') as [? | [? | ?]]; contradiction.
    + intros f. rewrite elem_of_cons, elem_of_app, Hmem_c, Hmem_r. split.
      * intros [-> | [Hx | (c' & Hc' & Hx)]].
        -- exists c. split; [now left | now left].
        -- exists c. split; [now left | now right].
        -- exists c'. split; [now right | exact Hx].
      * intros (c' & [-> | Hc']%elem_of_cons & Hx).
        -- destruct Hx as [-> | Hx]; [now left | right; now left].
        -- right. right. eauto.
Qed.

Lemma getChildren_appends :
  forall fuel p acc vis,
    onPath p vis ->
    (length store < fuel + length vis)%nat ->
    appendsBelow p acc (getChildren fuel store p acc).
Proof.
  induction fuel as [|fuel IH]; intros p acc vis Hpath Hlen.
  - destruct Hpath as (Hnd & Hids & _).
    pose proof (visited_bound store vis Hnd Hids). cbn in Hlen. lia.
  - cbn [getChildren]. cbv zeta.
    destruct (forEach_children fuel p) with (cs := findByParent store p) (acc := acc)
      as (ds & Hds & Hnd & Hmem).
    + intros c acc' Hin Hp. apply (IH _ _ (_id c :: vis)).
      * now apply (onPath_child p).
      * cbn [length]. lia.
    + apply NoDup_filter, store_NoDup.
    + intros c. apply elem_of_findByParent.
    + exists ds. split; [exact Hds|]. split; [exact Hnd|].
      intros f. rewrite Hmem. symmetry. apply descendant_via_child.
Qed.

(** On a well-formed store [getAllDescendants] settles and lists the
    documents below the folder, each once. *)
Lemma getAllDescendants_spec folderId :
  exists ds,
    getAllDescendants (S (length store)) store folderId = Some ds
    /\ NoDup ds
    /\ forall f, f ∈ ds <-> f ∈ store /\ descendantOf store (_id f) folderId.
Proof.
  unfold getAllDescendants.
  destruct (getChildren_appends (S (length store)) folderId [] []) as (ds & Hds & H).
  - split; [constructor|]. split; intros v Hv; inversion Hv.
  - cbn [length]. lia.
  - exists ds. split; [exact Hds | exact H].
Qed.

End Descendants.

(** ** [calculateFolderSize] *)

Lemma sizeOrZero_size f : sizeOrZero f = size f.
Proof. unfold sizeOrZero. destruct (Z.eqb_spec (size f) 0); congruence. Qed.

Lemma fold_left_sizes (l : list FileMetadata) (a : Z) :
  fold_left (fun total f => total + sizeOrZero f) l a = a + sumSizes l.
Proof.
  revert a. induction l as [|f l IH]; intros a; cbn [fold_left sumSizes foldr].
  - lia.
  - rewrite IH, sizeOrZero_size. fold (sumSizes l). lia.
Qed.

Lemma sumSizes_Permutation (l k : list FileMetadata) : l ≡ₚ k -> sumSizes l = sumSizes k.
Proof.
  unfold sumSizes.
  induction 1 as [|x l k _ IH|x y l|l k m _ IH1 _ IH2]; cbn [foldr] in *; lia.
Qed.

Lemma elem_of_List_filter {A} (p : A -> bool) (l : list A) (x : A) :
  x ∈ List.filter p l <-> x ∈ l /\ p x = true.
Proof. rewrite !list_elem_of_In. apply filter_In. Qed.

Lemma NoDup_List_filter {A} (p : A -> bool) (l : list A) :
  NoDup l -> NoDup (List.filter p l).
Proof.
  induction 1 as [|x l Hx Hl IH]; cbn [List.filter]; [constructor|].
  destruct (p x); [|exact IH].
  constructor; [|exact IH]. rewrite elem_of_List_filter. tauto.
Qed.

(** C8: on a store that keeps the invariants of the data model (ids are
    unique, no node is its own ancestor, parents are folders),
    [calculateFolderSize] settles and returns the sum of [size] over the
    documents of type file whose parent chain meets the folder, each counted
    once; folders add nothing. On [src/] with files of 100 and 250 bytes and
    a nested folder with a file of 50 bytes it returns 400. *)
Theorem calculateFolderSize_sums :
  (forall store folderId files,
      uniqueIds store -> acyclic store -> parentsAreFolders store ->
      NoDup files ->
      (forall f, f ∈ files
                 <-> f ∈ store /\ type f = file /\ descendantOf store (_id f) folderId) ->
      calculateFolderSize (S (length store)) store folderId = Some (sumSizes files))
  /\ calculateFolderSize 6 Sample.tree 1 = Some 400.
Proof.
  split; [|reflexivity].
  intros store folderId files Hu Ha Hf Hnd Hfiles.
  unfold calculateFolderSize.
  destruct (getAllDescendants_spec store Hu Ha Hf folderId) as (ds & -> & Hnd' & Hmem).
  rewrite fold_left_sizes. f_equal. cbn. apply sumSizes_Permutation.
  apply NoDup_Permutation; [now apply NoDup_List_filter | exact Hnd |].
  intros f. rewrite elem_of_List_filter, Hmem, Hfiles.
  unfold isFile. destruct (type f); intuition congruence.
Qed.

(** Closed decidable facts, by evaluation. *)
Ltac by_decide := apply (bool_decide_unpack _); vm_compute; exact I.

Lemma tree_parentsAreFolders : parentsAreFolders Sample.tree.
Proof.
  intros f g Hf Hg Hp. unfold Sample.tree in Hf, Hg.
  repeat (apply elem_of_cons in Hg as [->|Hg]); try reflexivity; try (now inversion Hg);
    repeat (apply elem_of_cons in Hf as [->|Hf]); try discriminate; now inversion Hf.
Qed.

Lemma calculateFolderSize_sums_witness :
  calculateFolderSize 6 Sample.tree 1
  = Some (sumSizes [Sample.mk 2 "App.js" file (Some 1%N) 100;
                    Sample.mk 3 "index.js" file (Some 1%N) 250;
                    Sample.mk 5 "Button.js" file (Some 4%N) 50]).
Proof.
  apply (proj1 calculateFolderSize_sums Sample.tree 1%N).
  - unfold uniqueIds. by_decide.
  - apply parentsBelow_acyclic. reflexivity.
  - exact tree_parentsAreFolders.
  - by_decide.
  - intros f. split.
    + intros Hin.
      assert (H41 : parentRel Sample.tree 4 1) by reflexivity.
      repeat (apply elem_of_cons in Hin as [->|Hin]); [| | |now inversion Hin].
      * split; [|split; [reflexivity|]].
        -- by_decide.
        -- apply tc_once. reflexivity.
      * split; [|split; [reflexivity|]].
        -- by_decide.
        -- apply tc_once. reflexivity.
      * split; [|split; [reflexivity|]].
        -- by_decide.
        -- eapply tc_l; [|apply tc_once, H41]. reflexivity.
    + intros (Hin & Hty & _). unfold Sample.tree in Hin.
      repeat (apply elem_of_cons in Hin as [->|Hin]);
        try discriminate Hty; try (now inversion Hin).
      * by_decide.
      * by_decide.
      * by_decide.
Defined.

Lemma generateUniqueName_first_free_witness :
  exists k,
    (k <= 2)%nat
    /\ generateUniqueName 3 Sample.taken 1 "App.js" None None
       = Some (candidate "App.js" k)
    /\ generateUniqueName 3 Sample.taken 1 "App.js" None None = Some "App (2).js".
Proof.
  destruct (generateUniqueName_first_free Sample.taken 1 "App.js" None None
              [Sample.mk 1 "App.js" file None 10; Sample.mk 2 "App (1).js" file None 10])
    as [(k & Hk & _ & _ & _ & Hlast) _].
  - intros f (Hin & _ & Hp & _). unfold Sample.taken in Hin.
    repeat (apply elem_of_cons in Hin as [->|Hin]).
    + by_decide.
    + by_decide.
    + discriminate Hp.
    + inversion Hin.
  - exists k. split; [exact Hk|]. split; [exact Hlast | reflexivity].
Defined.

(** ** [Array.prototype.sort] *)

Section SortFacts.

Context {A : Type} (compare : A -> A -> Z).

Let le (x y : A) : Prop := compare x y <= 0.

Lemma js_insert_Permutation x l : js_insert compare x l ≡ₚ x :: l.
Proof.
  induction l as [|y l IH]; cbn [js_insert]; [reflexivity|].
  destruct (Z.leb (compare x y) 0); [reflexivity|].
  rewrite IH. apply Permutation_swap.
Qed.

Lemma js_sort_Permutation l : js_sort compare l ≡ₚ l.
Proof.
  induction l as [|x l IH]; cbn [js_sort]; [reflexivity|].
  rewrite js_insert_Permutation. now apply Permutation_skip.
Qed.

(** A sorted array is left as it is. *)
Lemma js_sort_sorted_id l : StronglySorted le l -> js_sort compare l = l.
Proof.
  induction 1 as [|x l Hl IH Hx]; cbn [js_sort]; [reflexivity|].
  rewrite IH. destruct Hx as [|y l Hxy _]; cbn [js_insert]; [reflexivity|].
  unfold le in Hxy. rewrite (proj2 (Z.leb_le _ _) Hxy). reflexivity.
Qed.

(** The comparator is consistent on the elements that satisfy [P]. *)
Variable P : A -> Prop.
Hypothesis compare_total : forall x y, P x -> P y -> le x y \/ le y x.
Hypothesis compare_trans : forall x y z, P x -> P y -> P z -> le x y -> le y z -> le x z.

Lemma js_insert_sorted x l :
  P x -> Forall P l -> StronglySorted le l -> StronglySorted le (js_insert compare x l).
Proof.
  intros Hx HP Hl. induction Hl as [|y l Hl IH Hy]; cbn [js_insert].
  - repeat constructor.
  - apply Forall_cons in HP as [HPy HPl].
    destruct (Z.leb_spec (compare x y) 0) as [Hle | Hgt].
    + constructor; [now constructor|].
      constructor; [exact Hle|].
      rewrite Forall_forall in Hy, HPl |- *. intros z Hz.
      apply (compare_trans x y z); auto.
    + constructor; [now apply IH|].
      rewrite Forall_forall in Hy |- *. intros z Hz.
      rewrite js_insert_Permutation in Hz. apply elem_of_cons in Hz as [-> | Hz]; [|auto].
      destruct (compare_total x y Hx HPy) as [H | H]; [unfold le in H; lia | exact H].
Qed.

Lemma js_sort_sorted l : Forall P l -> StronglySorted le (js_sort compare l).
Proof.
  induction 1 as [|x l Hx Hl IH]; cbn [js_sort]; [constructor|].
  apply js_insert_sorted; [exact Hx | | exact IH].
  rewrite Forall_forall in Hl |- *. intros y Hy. apply Hl.
  now rewrite js_sort_Permutation in Hy.
Qed.

End SortFacts.

(** ** The two passes of [buildFileTree] *)

(** The document [fileMap.set] leaves under an id: the last one of the input
    that bears it. *)
Definition findLast (files : list FileMetadata) (id : ObjectId) : option FileMetadata :=
  findById (reverse files) id.

Lemma findLast_snoc files f id :
  findLast (files ++ [f]) id = if N.eqb (_id f) id then Some f else findLast files id.
Proof. unfold findLast. rewrite reverse_snoc. reflexivity. Qed.

Lemma findLast_elem files id f : findLast files id = Some f -> f ∈ files /\ _id f = id.
Proof.
  unfold findLast. intros [Hin Hid]%findById_Some.
  split; [now rewrite elem_of_reverse in Hin | exact Hid].
Qed.

Lemma findLast_is_Some files f : f ∈ files -> is_Some (findLast files (_id f)).
Proof.
  intros Hin. unfold findLast.
  destruct (findById (reverse files) (_id f)) as [g|] eqn:Hg; [eauto|].
  exfalso. apply (findById_None _ _ f Hg); [|reflexivity]. now rewrite elem_of_reverse.
Qed.

Lemma findLast_unique files id :
  uniqueIds files -> findLast files id = findById files id.
Proof.
  intros Hu.
  destruct (findLast files id) as [f|] eqn:Hf, (findById files id) as [g|] eqn:Hg.
  - apply findLast_elem in Hf as [Hf <-]. apply findById_Some in Hg as [Hg Hid].
    f_equal. symmetry. now apply (uniqueIds_inj files Hu).
  - apply findLast_elem in Hf as [Hf Hid]. now apply (findById_None _ _ f Hg) in Hid.
  - apply findById_Some in Hg as [Hg <-].
    destruct (findLast_is_Some files g Hg) as [? ?]. congruence.
  - reflexivity.
Qed.

Lemma findByParent_snoc pre f id :
  findByParent (pre ++ [f]) id
  = findByParent pre id ++ (if decide (parentId f = Some id) then [f] else []).
Proof.
  unfold findByParent. rewrite filter_app. reflexivity.
Qed.

Lemma firstPass_spec files :
  forall m r, firstPass files = (m, r) ->
    (forall id, m !! id = (fun f => mkObject f []) <$> findLast files id)
    /\ r = _id <$> filter (fun f => parentId f = None) files.
Proof.
  unfold firstPass. induction files as [|f files IH] using rev_ind; intros m r.
  - intros [= <- <-]. split; [|reflexivity]. intros id. apply lookup_empty.
  - rewrite fold_left_app. cbn [fold_left].
    destruct (fold_left _ files (∅, [])) as [m0 r0].
    destruct (IH m0 r0 eq_refl) as [Hm ->]. intros [= <- <-]. split.
    + intros id. rewrite findLast_snoc, lookup_insert.
      destruct (N.eqb_spec (_id f) id) as [->|Hne].
      * rewrite decide_True by reflexivity. reflexivity.
      * rewrite decide_False by assumption. apply Hm.
    + rewrite filter_app, fmap_app, filter_cons, filter_nil.
      destruct (parentId f); [|reflexivity].
      rewrite decide_False by discriminate. now rewrite app_nil_r.
Qed.

Lemma secondPass_spec all pre m1 :
  (forall id, m1 !! id = (fun f => mkObject f []) <$> findLast all id) ->
  forall id,
    secondPass pre m1 !! id
    = (fun f => mkObject f (_id <$> findByParent pre id)) <$> findLast all id.
Proof.
  intros Hm1. unfold secondPass. induction pre as [|f pre IH] using rev_ind; intros id.
  - apply Hm1.
  - rewrite fold_left_app. cbn [fold_left].
    set (m := fold_left _ pre m1) in *.
    rewrite findByParent_snoc, fmap_app.
    destruct (parentId f) as [p|] eqn:Hp.
    + destruct (m !! p) as [parent|] eqn:Hparent.
      * rewrite lookup_insert. destruct (decide (p = id)) as [->|Hne].
        -- rewrite decide_True by reflexivity.
           rewrite IH in Hparent.
           destruct (findLast all id) as [g|]; [|discriminate].
           injection Hparent as <-. reflexivity.
        -- rewrite decide_False by congruence. rewrite app_nil_r. apply IH.
      * destruct (decide (Some p = Some id)) as [[= ->]|Hne].
        -- rewrite Hparent. rewrite IH in Hparent.
           destruct (findLast all id); [discriminate | reflexivity].
        -- rewrite app_nil_r. apply IH.
    + rewrite decide_False by discriminate. rewrite app_nil_r. apply IH.
Qed.

(** ** The heap of tree objects under [sortChildren] *)

Section Heap.

Variable localeCompare : string -> string -> Z.

Definition refsSorted (m : gmap N TreeObject) (l : list ObjectId) : Prop :=
  StronglySorted (fun a b => compareRefs localeCompare m a b <= 0) l.

(** [m'] is [m] after some arrays of children were sorted in place: the same
    objects with the same documents, each array a permutation of what it was,
    and an array that was sorted the very same. *)
Definition extends (m m' : gmap N TreeObject) : Prop :=
  forall id,
    match m !! id, m' !! id with
    | Some o, Some o' =>
        doc o' = doc o
        /\ children o' ≡ₚ children o
        /\ (refsSorted m (children o) -> children o' = children o)
    | None, None => True
    | _, _ => False
    end.

Lemma extends_refl m : extends m m.
Proof. intros id. destruct (m !! id); auto. Qed.

Lemma compareRefs_extends m m' a b :
  extends m m' -> compareRefs localeCompare m' a b = compareRefs localeCompare m a b.
Proof.
  intros H. unfold compareRefs.
  pose proof (H a) as Ha. pose proof (H b) as Hb.
  destruct (m !! a), (m' !! a); try contradiction; [|reflexivity].
  destruct (m !! b), (m' !! b); try contradiction; [|reflexivity].
  destruct Ha as [-> _], Hb as [-> _]. reflexivity.
Qed.

Lemma refsSorted_extends m m' l : extends m m' -> refsSorted m l -> refsSorted m' l.
Proof.
  intros H. unfold refsSorted. induction 1 as [|a l Hl IH Ha]; constructor; [exact IH|].
  eapply Forall_impl; [exact Ha|]. intros b Hb. cbn beta in *.
  now rewrite (compareRefs_extends m m').
Qed.

Lemma extends_trans m1 m2 m3 : extends m1 m2 -> extends m2 m3 -> extends m1 m3.
Proof.
  intros H12 H23 id. pose proof (H12 id) as H1. pose proof (H23 id) as H2.
  destruct (m1 !! id) as [o1|], (m2 !! id) as [o2|], (m3 !! id) as [o3|];
    try contradiction; [|exact I].
  destruct H1 as (Hd1 & Hp1 & Hs1), H2 as (Hd2 & Hp2 & Hs2).
  split; [congruence|]. split; [now rewrite Hp2|].
  intros Hs. rewrite <- (Hs1 Hs). apply Hs2.
  rewrite (Hs1 Hs). now apply (refsSorted_extends m1).
Qed.

Lemma extends_sort m id obj :
  m !! id = Some obj ->
  extends m (<[id := mkObject (doc obj)
                       (js_sort (compareRefs localeCompare m) (children obj))]> m).
Proof.
  intros Hobj id'. rewrite lookup_insert. destruct (decide (id = id')) as [<-|Hne].
  - rewrite Hobj. cbn [doc children]. split; [reflexivity|].
    split; [apply js_sort_Permutation|]. intros Hs. now apply js_sort_sorted_id.
  - destruct (m !! id'); auto.
Qed.

Lemma forEachM_extends (body : ObjectId -> gmap N TreeObject -> option (gmap N TreeObject)) l :
  (forall c m m', c ∈ l -> body c m = Some m' -> extends m m') ->
  forall m m', forEachM body l m = Some m' -> extends m m'.
Proof.
  induction l as [|c l IH]; intros Hbody m m'; cbn [forEachM].
  - intros [= <-]. apply extends_refl.
  - destruct (body c m) as [m1|] eqn:H1; [|discriminate]. intros H.
    apply (extends_trans _ m1).
    + apply (Hbody c); [left | exact H1].
    + apply IH; [|exact H]. intros c' ? ? Hc'. apply Hbody. now right.
Qed.

Lemma sortChildren_extends fuel :
  forall node m m', sortChildren localeCompare fuel node m = Some m' -> extends m m'.
Proof.
  induction fuel as [|fuel IH]; intros node m m'; [discriminate|].
  cbn [sortChildren].
  destruct (m !! node) as [obj|] eqn:Hobj; [|intros [= <-]; apply extends_refl].
  destruct (children obj) as [|c cs] eqn:Hcs; [intros [= <-]; apply extends_refl|].
  rewrite <- Hcs. intros H.
  eapply extends_trans; [apply (extends_sort m node obj Hobj)|].
  eapply forEachM_extends; [|exact H]. intros ? ? ? _. apply IH.
Qed.

(** Reading a tree needs the same fuel after the arrays were sorted. *)
Lemma readTree_extends m m' :
  extends m m' ->
  forall fuel node, is_Some (readTree fuel m node) -> is_Some (readTree fuel m' node).
Proof.
  intros H. induction fuel as [|fuel IH]; intros node; cbn [readTree].
  - intros [? [=]].
  - pose proof (H node) as Hn.
    destruct (m !! node) as [o|], (m' !! node) as [o'|]; try contradiction;
      [|intros [? [=]]].
    destruct Hn as (_ & Hp & _).
    destruct (mapM (readTree fuel m) (children o)) as [kids|] eqn:Hk; [|intros [? [=]]].
    intros _.
    assert (Hall : is_Some (mapM (readTree fuel m') (children o'))).
    { apply mapM_is_Some. rewrite Hp.
      assert (Hk' : is_Some (mapM (readTree fuel m) (children o))) by eauto.
      apply mapM_is_Some in Hk'. eapply Forall_impl; [exact Hk'|]. intros c. apply IH. }
    destruct Hall as [kids' ->]. eauto.
Qed.

Lemma readTree_Some_inv fuel m node t :
  readTree (S fuel) m node = Some t ->
  exists o kids, m !! node = Some o
    /\ mapM (readTree fuel m) (children o) = Some kids
    /\ t = Node (doc o) kids.
Proof.
  cbn [readTree]. destruct (m !! node) as [o|]; [|discriminate].
  destruct (mapM (readTree fuel m) (children o)) as [kids|] eqn:Hk; [|discriminate].
  intros [= <-]. eauto.
Qed.

(** A tree that can be read can be sorted with the same fuel. *)
Lemma sortChildren_total :
  forall fuel node m,
    is_Some (readTree fuel m node) -> is_Some (sortChildren localeCompare fuel node m).
Proof.
  induction fuel as [|fuel IH]; intros node m [t Ht]; [discriminate|].
  apply readTree_Some_inv in Ht as (o & kids & Ho & Hk & _).
  cbn [sortChildren]. rewrite Ho.
  destruct (children o) as [|c cs] eqn:Hcs; [eauto|]. rewrite <- Hcs in *.
  assert (Hread : Forall (fun c => is_Some (readTree fuel m c)) (children o)).
  { apply (proj1 (mapM_is_Some _ _)). eauto. }
  set (sorted := js_sort (compareRefs localeCompare m) (children o)).
  set (m1 := <[node := mkObject (doc o) sorted]> m).
  assert (Hall : Forall (fun c => is_Some (readTree fuel m1 c)) sorted).
  { unfold sorted. rewrite js_sort_Permutation.
    eapply Forall_impl; [exact Hread|]. intros c'.
    apply readTree_extends, extends_sort, Ho. }
  clearbody m1 sorted. clear -IH Hall. revert m1 Hall.
  induction sorted as [|c l IHl]; intros m1 Hall; cbn [forEachM]; [eauto|].
  apply Forall_cons in Hall as [Hc Hl].
  destruct (IH c m1 Hc) as [m2 H2]. rewrite H2. apply IHl.
  eapply Forall_impl; [exact Hl|]. intros c'.
  eapply readTree_extends, sortChildren_extends, H2.
Qed.

End Heap.

(** ** Sibling order *)

Section Order.

Variable localeCompare : string -> string -> Z.
Hypothesis localeCompare_total :
  forall a b, localeCompare a b <= 0 \/ localeCompare b a <= 0.
Hypothesis localeCompare_trans :
  forall a b c, localeCompare a b <= 0 -> localeCompare b c <= 0 -> localeCompare a c <= 0.

(** The comparator of [buildFileTree] says "not after" exactly when the
    documents are in the order of the specification. *)
Lemma compareNodes_precedes a b :
  compareNodes localeCompare a b <= 0 <-> precedes localeCompare a b.
Proof.
  unfold compareNodes, precedes, isFolder.
  destruct (type a), (type b); cbn; case_bool_decide; intuition (congruence || lia).
Qed.

Lemma precedes_total a b : precedes localeCompare a b \/ precedes localeCompare b a.
Proof.
  unfold precedes.
  destruct (type a), (type b), (localeCompare_total (name a) (name b)); auto.
Qed.

Lemma precedes_trans a b c :
  precedes localeCompare a b -> precedes localeCompare b c -> precedes localeCompare a c.
Proof.
  unfold precedes. intros [[Ha Hb] | [Hab Hl1]] [[Hb' Hc] | [Hbc Hl2]].
  - congruence.
  - left. split; congruence.
  - left. split; congruence.
  - right. split; [congruence | eauto].
Qed.

Lemma compareRefs_docs m a b oa ob :
  m !! a = Some oa -> m !! b = Some ob ->
  compareRefs localeCompare m a b = compareNodes localeCompare (doc oa) (doc ob).
Proof. intros Ha Hb. unfold compareRefs. now rewrite Ha, Hb. Qed.

(** Sorting references that all point into the heap orders them. *)
Lemma js_sort_refsSorted m l :
  Forall (fun c => is_Some (m !! c)) l ->
  refsSorted localeCompare m (js_sort (compareRefs localeCompare m) l).
Proof.
  apply js_sort_sorted.
  - intros a b [oa Ha] [ob Hb]. rewrite (compareRefs_docs m a b oa ob Ha Hb).
    rewrite (compareRefs_docs m b a ob oa Hb Ha), !compareNodes_precedes.
    apply precedes_total.
  - intros a b c [oa Ha] [ob Hb] [oc Hc].
    rewrite (compareRefs_docs m a b oa ob Ha Hb), (compareRefs_docs m b c ob oc Hb Hc),
      (compareRefs_docs m a c oa oc Ha Hc), !compareNodes_precedes.
    apply precedes_trans.
Qed.

(** Every array of children holds references into the heap. *)
Definition closed (m : gmap N TreeObject) : Prop :=
  forall id o, m !! id = Some o -> Forall (fun c => is_Some (m !! c)) (children o).

Lemma extends_dom m m' c : extends localeCompare m m' -> is_Some (m !! c) -> is_Some (m' !! c).
Proof.
  intros H [o Ho]. specialize (H c). rewrite Ho in H.
  destruct (m' !! c); [eauto | contradiction].
Qed.

Lemma closed_extends m m' : extends localeCompare m m' -> closed m -> closed m'.
Proof.
  intros H Hc id o' Ho'. pose proof (H id) as Hid. rewrite Ho' in Hid.
  destruct (m !! id) as [o|] eqn:Ho; [|contradiction].
  destruct Hid as (_ & Hp & _). rewrite Hp.
  eapply Forall_impl; [apply (Hc id o Ho)|]. intros c. now apply extends_dom.
Qed.

(** The arrays of children are sorted down to depth [k] below [node]. *)
Fixpoint hsorted (k : nat) (m : gmap N TreeObject) (node : ObjectId) : Prop :=
  match k with
  | O => True
  | S k' =>
      forall o, m !! node = Some o ->
        refsSorted localeCompare m (children o)
        /\ forall c, c ∈ children o -> hsorted k' m c
  end.

Lemma hsorted_extends m m' :
  extends localeCompare m m' -> forall k node, hsorted k m node -> hsorted k m' node.
Proof.
  intros H. induction k as [|k IH]; intros node Hs; [exact I|].
  intros o' Ho'. pose proof (H node) as Hn. rewrite Ho' in Hn.
  destruct (m !! node) as [o|] eqn:Ho; [|contradiction].
  destruct (Hs o Ho) as [Hsorted Hkids].
  destruct Hn as (_ & _ & Heq). rewrite (Heq Hsorted).
  split; [now apply (refsSorted_extends _ m)|].
  intros c Hc. apply IH, Hkids, Hc.
Qed.

Lemma forEachM_hsorted fuel :
  (forall node m m', closed m -> sortChildren localeCompare fuel node m = Some m' ->
                     forall k, hsorted k m' node) ->
  forall l m m',
    closed m -> forEachM (sortChildren localeCompare fuel) l m = Some m' ->
    forall c, c ∈ l -> forall k, hsorted k m' c.
Proof.
  intros IH. induction l as [|c l IHl]; intros m m' Hcl; cbn [forEachM].
  - intros _ c Hc. inversion Hc.
  - destruct (sortChildren localeCompare fuel c m) as [m1|] eqn:H1; [|discriminate].
    intros H c' Hc' k.
    assert (H1' : extends localeCompare m m1) by (eapply sortChildren_extends, H1).
    assert (Hrest : extends localeCompare m1 m').
    { eapply forEachM_extends; [|exact H]. intros ? ? ? _. apply sortChildren_extends. }
    apply elem_of_cons in Hc' as [->|Hc'].
    + eapply hsorted_extends; [exact Hrest|]. now apply (IH c m m1).
    + apply (IHl m1 m'); [now apply (closed_extends m) | exact H | exact Hc'].
Qed.

Lemma sortChildren_hsorted :
  forall fuel node m m',
    closed m -> sortChildren localeCompare fuel node m = Some m' ->
    forall k, hsorted k m' node.
Proof.
  induction fuel as [|fuel IH]; intros node m m' Hcl; [discriminate|].
  cbn [sortChildren].
  destruct (m !! node) as [o|] eqn:Ho.
  2:{ intros [= <-] [|k]; [exact I|]. intros o' Ho'. congruence. }
  destruct (children o) as [|c0 cs] eqn:Hcs.
  { intros [= <-] [|k]; [exact I|]. intros o' Ho'.
    assert (o' = o) as -> by congruence. rewrite Hcs.
    split; [constructor|]. intros c Hc. inversion Hc. }
  rewrite <- Hcs. clear c0 cs Hcs.
  set (sorted := js_sort (compareRefs localeCompare m) (children o)).
  set (m1 := <[node := mkObject (doc o) sorted]> m).
  intros H [|k]; [exact I|].
  assert (H01 : extends localeCompare m m1) by (apply extends_sort, Ho).
  assert (H1' : extends localeCompare m1 m').
  { eapply forEachM_extends; [|exact H]. intros ? ? ? _. apply sortChildren_extends. }
  assert (Hsorted : refsSorted localeCompare m1 sorted).
  { apply (refsSorted_extends _ m); [exact H01|]. apply js_sort_refsSorted, (Hcl node o Ho). }
  intros o' Ho'. pose proof (H1' node) as Hn. rewrite Ho' in Hn.
  unfold m1 in Hn at 1. rewrite lookup_insert_eq in Hn. cbn [children doc] in Hn.
  destruct Hn as (_ & _ & Heq). rewrite (Heq Hsorted).
  split; [now apply (refsSorted_extends _ m1)|].
  intros c Hc.
  apply (forEachM_hsorted fuel IH sorted m1 m'); [|exact H|exact Hc].
  now apply (closed_extends m).
Qed.

End Order.

(** ** Reading the forest *)

Section Reading.

Variable localeCompare : string -> string -> Z.

Lemma readTree_kids fuel m node t :
  readTree (S fuel) m node = Some t ->
  exists o, m !! node = Some o /\ rootDoc t = doc o
    /\ Forall2 (fun c k => readTree fuel m c = Some k) (children o) (subtrees t).
Proof.
  intros (o & kids & Ho & Hk & ->)%readTree_Some_inv.
  exists o. split; [exact Ho|]. split; [reflexivity|]. now apply mapM_Some_1.
Qed.

Lemma readTree_root fuel m node t :
  readTree fuel m node = Some t -> exists o, m !! node = Some o /\ rootDoc t = doc o.
Proof.
  destruct fuel as [|fuel]; [discriminate|].
  intros (o & Ho & Hd & _)%readTree_kids. eauto.
Qed.

(** References in comparator order point to documents in sibling order. *)
Lemma refsSorted_docs fuel m cs kids :
  Forall2 (fun c k => readTree fuel m c = Some k) cs kids ->
  refsSorted localeCompare m cs ->
  siblingsOrdered localeCompare (rootDoc <$> kids).
Proof.
  unfold refsSorted, siblingsOrdered.
  induction 1 as [|c k cs kids Hck Hrest IH]; intros Hs; cbn [fmap list_fmap];
    [constructor|].
  apply StronglySorted_inv in Hs as [Hs Hc].
  constructor; [now apply IH|].
  apply readTree_root in Hck as (oc & Hoc & Hdc).
  clear IH Hs. induction Hrest as [|c' k' cs kids Hck' _ IH]; cbn [fmap list_fmap];
    [constructor|].
  apply Forall_cons in Hc as [Hcc' Hc].
  constructor; [|now apply IH].
  apply readTree_root in Hck' as (oc' & Hoc' & Hdc').
  rewrite (compareRefs_docs localeCompare m c c' oc oc' Hoc Hoc') in Hcc'.
  rewrite Hdc, Hdc'. now apply compareNodes_precedes.
Qed.

Lemma readTree_ordered :
  forall fuel m node t,
    readTree fuel m node = Some t ->
    (forall k, hsorted localeCompare k m node) ->
    forall t', t' ∈ allSubtrees t ->
      siblingsOrdered localeCompare (rootDoc <$> subtrees t').
Proof.
  induction fuel as [|fuel IH]; intros m node t Ht Hs t'; [discriminate|].
  pose proof Ht as (o & Ho & _ & Hkids)%readTree_kids.
  destruct (Hs 1%nat o Ho) as [Hsorted _].
  destruct t as [d kids]. cbn [allSubtrees subtrees] in *.
  intros [-> | Hin]%elem_of_cons.
  - cbn [subtrees]. eapply refsSorted_docs; eassumption.
  - apply list_elem_of_In, in_flat_map in Hin as (kid & Hkid%list_elem_of_In & Hin).
    apply list_elem_of_In in Hin.
    destruct (list_elem_of_lookup_1 _ _ Hkid) as [i Hi].
    destruct (Forall2_lookup_r _ _ _ _ _ Hkids Hi) as (c & Hc & Hread).
    apply (IH m c kid Hread); [|exact Hin].
    intros k. destruct (Hs (S k) o Ho) as [_ Hk]. apply Hk.
    eapply list_elem_of_lookup_2, Hc.
Qed.

(** The early return for an empty array agrees with what the two passes and
    the sorts make of it. *)
Lemma buildFileTree_unfold fuel files :
  buildFileTree localeCompare fuel (Some files)
  = let '(fileMap, rootFiles) := firstPass files in
    let fileMap := secondPass files fileMap in
    let rootNodes := js_sort (compareRefs localeCompare fileMap) rootFiles in
    match forEachM (sortChildren localeCompare fuel) rootNodes fileMap with
    | None => None
    | Some fileMap => mapM (readTree fuel fileMap) rootNodes
    end.
Proof. destruct files; reflexivity. Qed.

(** What [buildFileTree] goes through when it answers. *)
Lemma buildFileTree_Some_inv fuel files forest :
  buildFileTree localeCompare fuel (Some files) = Some forest ->
  exists m1 rootFiles m3,
    firstPass files = (m1, rootFiles)
    /\ forEachM (sortChildren localeCompare fuel)
         (js_sort (compareRefs localeCompare (secondPass files m1)) rootFiles)
         (secondPass files m1) = Some m3
    /\ mapM (readTree fuel m3)
         (js_sort (compareRefs localeCompare (secondPass files m1)) rootFiles)
       = Some forest.
Proof.
  rewrite buildFileTree_unfold.
  destruct (firstPass files) as [m1 rootFiles]. cbv zeta.
  destruct (forEachM (sortChildren localeCompare fuel) _ _) as [m3|] eqn:H3; [|discriminate].
  intros H. exists m1, rootFiles, m3. auto.
Qed.

(** After the second pass every object holds the last document of its id
    and, in input order, the ids of the documents that name it as parent. *)
Lemma secondPass_lookup files m1 rootFiles :
  firstPass files = (m1, rootFiles) ->
  forall id,
    secondPass files m1 !! id
    = (fun f => mkObject f (_id <$> findByParent files id)) <$> findLast files id.
Proof.
  intros H1. apply firstPass_spec in H1 as [Hm1 _]. now apply secondPass_spec.
Qed.

Lemma secondPass_dom files m1 rootFiles f :
  firstPass files = (m1, rootFiles) -> f ∈ files ->
  is_Some (secondPass files m1 !! _id f).
Proof.
  intros H1 Hin. rewrite (secondPass_lookup files m1 rootFiles H1).
  destruct (findLast_is_Some files f Hin) as [g ->]. cbn. eauto.
Qed.

Lemma secondPass_closed files m1 rootFiles :
  firstPass files = (m1, rootFiles) -> closed (secondPass files m1).
Proof.
  intros H1 id o. rewrite (secondPass_lookup files m1 rootFiles H1).
  destruct (findLast files id) as [g|]; [|discriminate]. intros [= <-].
  cbn [children]. rewrite Forall_forall.
  intros c (f & -> & [Hf _]%elem_of_findByParent)%list_elem_of_fmap.
  now apply (secondPass_dom files m1 rootFiles).
Qed.

Lemma rootFiles_dom files m1 rootFiles :
  firstPass files = (m1, rootFiles) ->
  Forall (fun c => is_Some (secondPass files m1 !! c)) rootFiles.
Proof.
  intros H1. pose proof H1 as [_ ->]%firstPass_spec. rewrite Forall_forall.
  intros c (f & -> & [_ Hf]%list_elem_of_filter)%list_elem_of_fmap.
  now apply (secondPass_dom files m1 _ f H1).
Qed.

End Reading.

(** ** Every tree of the forest can be read *)

(** A node whose chain ends at a node without parent lies on no cycle. *)
Lemma rooted_no_cycle files x r :
  rtc (parentRel files) x r -> parentOf files r = None -> ~ tc (parentRel files) x x.
Proof.
  intros Hrtc Hr Hcyc.
  assert (exists y, parentRel files r y) as [y Hy]; [|unfold parentRel in Hy; congruence].
  induction Hrtc as [x | x y z Hxy Hyz IH].
  - inversion Hcyc; eauto.
  - apply IH; [exact Hr|].
    inversion Hcyc as [? ? H1 | ? y' ? H1 H2]; subst.
    + rewrite (parentRel_functional _ _ _ _ Hxy H1). now apply tc_once.
    + rewrite (parentRel_functional _ _ _ _ Hxy H1). eapply tc_r; eassumption.
Qed.

Section Represents.

Variable localeCompare : string -> string -> Z.
Variable files : list FileMetadata.
Hypothesis Hunique : uniqueIds files.

Let R := parentRel files.

(** The heap holds the documents of [files] under their ids, each with the
    ids of its children in some order. *)
Definition represents (m : gmap N TreeObject) : Prop :=
  forall id,
    match m !! id with
    | Some o => findById files id = Some (doc o)
                /\ children o ≡ₚ _id <$> findByParent files id
    | None => findById files id = None
    end.

Lemma represents_secondPass m1 rootFiles :
  firstPass files = (m1, rootFiles) -> represents (secondPass files m1).
Proof.
  intros H1 id. rewrite (secondPass_lookup files m1 rootFiles H1).
  rewrite (findLast_unique files id Hunique).
  destruct (findById files id); cbn; auto.
Qed.

Lemma represents_extends m m' : extends localeCompare m m' -> represents m -> represents m'.
Proof.
  intros H Hm id. specialize (H id). specialize (Hm id).
  destruct (m !! id) as [o|], (m' !! id) as [o'|]; try contradiction; [|exact Hm].
  destruct H as (Hd & Hp & _), Hm as [Hf Hc].
  split; [now rewrite Hd | now rewrite Hp].
Qed.

Lemma represents_child m node o c :
  represents m -> m !! node = Some o -> c ∈ children o ->
  R c node /\ is_Some (m !! c) /\ c ∈ (_id <$> files).
Proof.
  intros Hm Ho Hc. pose proof (Hm node) as Hn. rewrite Ho in Hn.
  destruct Hn as [_ Hp]. rewrite Hp in Hc.
  apply list_elem_of_fmap in Hc as (f & -> & [Hf Hpar]%elem_of_findByParent).
  split; [now apply (child_parentRel files Hunique)|]. split.
  - specialize (Hm (_id f)). rewrite (findById_elem files Hunique f Hf) in Hm.
    destruct (m !! _id f); [eauto | discriminate].
  - now apply list_elem_of_fmap_2.
Qed.

Lemma readTree_settles m r0 :
  represents m -> parentOf files r0 = None ->
  forall fuel node vis,
    rtc R node r0 -> is_Some (m !! node) ->
    NoDup vis ->
    (forall v, v ∈ vis -> v ∈ (_id <$> files)) ->
    (forall v, v ∈ vis -> v = node \/ tc R node v) ->
    (length files < fuel + length vis)%nat ->
    is_Some (readTree fuel m node).
Proof.
  intros Hm Hr0. induction fuel as [|fuel IH]; intros node vis Hup [o Ho] Hnd Hids Hvis Hlen.
  - pose proof (visited_bound files vis Hnd Hids). cbn in Hlen. lia.
  - cbn [readTree]. rewrite Ho.
    assert (Hall : is_Some (mapM (readTree fuel m) (children o))).
    { apply mapM_is_Some, Forall_forall. intros c Hc.
      destruct (represents_child m node o c Hm Ho Hc) as (Hstep & Hdom & Hid).
      apply (IH c (c :: vis)).
      - eapply rtc_l; eassumption.
      - exact Hdom.
      - apply NoDup_cons. split; [|exact Hnd]. intros Hv.
        apply (rooted_no_cycle files node r0 Hup Hr0).
        destruct (Hvis c Hv) as [-> | Htc]; [now apply tc_once|].
        eapply tc_r; eassumption.
      - intros v [->|Hv]%elem_of_cons; auto.
      - intros v [->|Hv]%elem_of_cons; [now left|]. right.
        destruct (Hvis v Hv) as [-> | Htc]; [now apply tc_once|].
        eapply tc_l; eassumption.
      - cbn [length]. lia. }
    destruct Hall as [kids ->]. eauto.
Qed.

Lemma root_parentOf f : f ∈ files -> parentId f = None -> parentOf files (_id f) = None.
Proof. intros Hf Hp. unfold parentOf. now rewrite (findById_elem files Hunique f Hf). Qed.

(** On input with distinct ids [buildFileTree] answers, with one unit of
    fuel more than there are documents. *)
Lemma buildFileTree_total :
  exists forest, buildFileTree localeCompare (S (length files)) (Some files) = Some forest.
Proof.
  rewrite buildFileTree_unfold.
  destruct (firstPass files) as [m1 rootFiles] eqn:H1. cbv zeta.
  set (m2 := secondPass files m1).
  set (rootNodes := js_sort (compareRefs localeCompare m2) rootFiles).
  assert (Hm2 : represents m2) by (eapply represents_secondPass, H1).
  assert (Hread : Forall (fun c => is_Some (readTree (S (length files)) m2 c)) rootNodes).
  { unfold rootNodes. rewrite js_sort_Permutation.
    pose proof H1 as [_ ->]%firstPass_spec. rewrite Forall_forall.
    intros c (f & -> & [Hp Hf]%list_elem_of_filter)%list_elem_of_fmap.
    apply (readTree_settles m2 (_id f) Hm2 (root_parentOf f Hf Hp) _ _ []).
    - apply rtc_refl.
    - now apply (secondPass_dom files m1 _ f H1).
    - constructor.
    - intros v Hv. inversion Hv.
    - intros v Hv. inversion Hv.
    - cbn [length]. lia. }
  assert (Hsort : forall l m,
    Forall (fun c => is_Some (readTree (S (length files)) m c)) l ->
    exists m', forEachM (sortChildren localeCompare (S (length files))) l m = Some m').
  { induction l as [|c l IHl]; intros m Hall; cbn [forEachM]; [eauto|].
    apply Forall_cons in Hall as [Hc Hl].
    destruct (sortChildren_total localeCompare _ c m Hc) as [m' Hm']. rewrite Hm'.
    apply IHl. eapply Forall_impl; [exact Hl|]. intros c'.
    eapply readTree_extends, sortChildren_extends, Hm'. }
  destruct (Hsort rootNodes m2 Hread) as [m3 H3]. rewrite H3.
  assert (H23 : extends localeCompare m2 m3).
  { eapply forEachM_extends; [|exact H3]. intros ? ? ? _. apply sortChildren_extends. }
  apply mapM_is_Some. eapply Forall_impl; [exact Hread|]. intros c.
  now apply (readTree_extends localeCompare m2).
Qed.

End Represents.

(** ** [buildFileTree]: the order of siblings *)

(** C6: whenever [localeCompare] is a consistent comparator (total and
    transitive), every forest [buildFileTree] produces has its root list and
    the child list of every node, at every depth, in sibling order: folders
    before files, and within one type names ascending by [localeCompare]. On
    input with distinct ids a forest is produced. *)
Theorem buildFileTree_ordered (localeCompare : string -> string -> Z) :
  (forall a b, localeCompare a b <= 0 \/ localeCompare b a <= 0) ->
  (forall a b c, localeCompare a b <= 0 -> localeCompare b c <= 0 -> localeCompare a c <= 0) ->
  forall files,
    (uniqueIds files ->
     exists forest,
       buildFileTree localeCompare (S (length files)) (Some files) = Some forest)
    /\ (forall fuel forest,
          buildFileTree localeCompare fuel (Some files) = Some forest ->
          orderedForest localeCompare forest).
Proof.
  intros Htotal Htrans files. split; [apply buildFileTree_total|].
  intros fuel forest (m1 & rootFiles & m3 & H1 & H3 & Hread)%buildFileTree_Some_inv.
  set (m2 := secondPass files m1) in *.
  set (rootNodes := js_sort (compareRefs localeCompare m2) rootFiles) in *.
  assert (Hcl : closed m2) by (eapply secondPass_closed, H1).
  assert (H23 : extends localeCompare m2 m3).
  { eapply forEachM_extends; [|exact H3]. intros ? ? ? _. apply sortChildren_extends. }
  apply mapM_Some_1 in Hread.
  split.
  - eapply refsSorted_docs; [exact Hread|].
    apply (refsSorted_extends _ m2); [exact H23|].
    apply js_sort_refsSorted; [assumption..|]. eapply rootFiles_dom, H1.
  - intros t Ht.
    apply list_elem_of_In, in_flat_map in Ht as (tree & Htree%list_elem_of_In & Ht).
    apply list_elem_of_In in Ht.
    destruct (list_elem_of_lookup_1 _ _ Htree) as [i Hi].
    destruct (Forall2_lookup_r _ _ _ _ _ Hread Hi) as (r & Hr & Hreadr).
    apply (readTree_ordered localeCompare fuel m3 r tree Hreadr); [|exact Ht].
    eapply (forEachM_hsorted localeCompare fuel); [|exact Hcl|exact H3|].
    + now apply sortChildren_hsorted.
    + eapply list_elem_of_lookup_2, Hr.
Qed.

Lemma ciCompare_le a b :
  Sample.ciCompare a b <= 0 <-> String.le (toLowerCase a) (toLowerCase b).
Proof.
  unfold Sample.ciCompare, String.le.
  destruct (String.leb (toLowerCase a) (toLowerCase b)),
    (String.leb (toLowerCase b) (toLowerCase a)); cbn; intuition lia.
Qed.

Lemma buildFileTree_ordered_witness :
  exists forest,
    buildFileTree Sample.ciCompare 6 (Some Sample.tree) = Some forest
    /\ orderedForest Sample.ciCompare forest.
Proof.
  destruct (buildFileTree_ordered Sample.ciCompare) with (files := Sample.tree)
    as [Htotal Hordered].
  - intros a b. rewrite !ciCompare_le. apply String.le_total.
  - intros a b c. rewrite !ciCompare_le. apply (@transitivity _ _ _).
  - destruct Htotal as [forest Hforest]; [unfold uniqueIds; by_decide|].
    exists forest. split; [exact Hforest | exact (Hordered _ _ Hforest)].
Defined.

(** ** [buildFileTree]: empty input *)

(** C10: for [null], [undefined] and the empty array [buildFileTree] returns
    the empty forest at once. *)
Theorem buildFileTree_empty (localeCompare : string -> string -> Z) (fuel : nat) :
  buildFileTree localeCompare fuel None = Some []
  /\ buildFileTree localeCompare fuel (Some []) = Some [].
Proof. split; reflexivity. Qed.

(** ** [buildFileTree]: the shape of the forest *)

Section Chains2.

Variable files : list FileMetadata.

Let R := parentRel files.

(** Ancestors-or-self of one node lie on one chain. *)
Lemma rtc_linear (x a b : ObjectId) : rtc R x a -> rtc R x b -> rtc R a b \/ rtc R b a.
Proof.
  intros Ha. revert b. induction Ha as [x | x y a Hxy Hya IH]; intros b Hb; [now left|].
  inversion Hb as [| ? y' ? Hxy' Hyb]; subst.
  - right. eapply rtc_l; eassumption.
  - apply IH. now rewrite (parentRel_functional _ _ _ _ Hxy Hxy').
Qed.

(** A cycle through a child is a cycle through its parent. *)
Lemma cycle_at_parent (c p : ObjectId) : R c p -> tc R c c -> tc R p p.
Proof.
  intros Hcp Hcyc. inversion Hcyc as [? ? H1 | ? y ? H1 H2]; subst.
  - rewrite (parentRel_functional _ _ _ _ Hcp H1). now apply tc_once.
  - rewrite (parentRel_functional _ _ _ _ Hcp H1). eapply tc_r; [exact H2|].
    now rewrite <- (parentRel_functional _ _ _ _ Hcp H1).
Qed.

(** One child of [p] below another child of [p] makes a cycle through [p]. *)
Lemma siblings_cycle (c c' p : ObjectId) : R c p -> R c' p -> tc R c c' -> tc R p p.
Proof.
  intros Hc Hc' Htc. inversion Htc as [? ? H1 | ? y ? H1 H2]; subst.
  - rewrite <- (parentRel_functional _ _ _ _ Hc H1) in Hc'. now apply tc_once.
  - rewrite <- (parentRel_functional _ _ _ _ Hc H1) in H2. eapply tc_r; eassumption.
Qed.

End Chains2.

Section Forest.

Variable localeCompare : string -> string -> Z.
Variable files : list FileMetadata.
Hypothesis Hunique : uniqueIds files.

Let R := parentRel files.

Variable m : gmap N TreeObject.
Hypothesis Hm : represents files m.

Lemma represents_doc node o : m !! node = Some o -> doc o ∈ files /\ _id (doc o) = node.
Proof.
  intros Ho. specialize (Hm node). rewrite Ho in Hm.
  destruct Hm as [Hf _]. now apply findById_Some in Hf.
Qed.

(** The trees read at a list of references show the documents of these
    references. *)
Lemma read_docs fuel cs kids :
  Forall2 (fun c k => readTree fuel m c = Some k) cs kids ->
  omap (findById files) cs = rootDoc <$> kids.
Proof.
  induction 1 as [|c k cs kids Hck _ IH]; [reflexivity|].
  apply readTree_root in Hck as (o & Ho & Hd).
  cbn [omap list_omap fmap list_fmap]. specialize (Hm c). rewrite Ho in Hm.
  destruct Hm as [-> _]. rewrite Hd. f_equal. exact IH.
Qed.

Lemma omap_findById_ids (l : list FileMetadata) :
  (forall f, f ∈ l -> f ∈ files) -> omap (findById files) (_id <$> l) = l.
Proof.
  induction l as [|f l IH]; intros Hl; [reflexivity|].
  cbn [omap list_omap fmap list_fmap].
  rewrite (findById_elem files Hunique f) by (apply Hl; left).
  f_equal. apply IH. intros g Hg. apply Hl. now right.
Qed.

(** Every node of a tree has exactly the documents that name it as parent as
    its children. *)
Lemma readTree_children :
  forall fuel node t,
    readTree fuel m node = Some t ->
    forall t', t' ∈ allSubtrees t ->
      rootDoc <$> subtrees t' ≡ₚ findByParent files (_id (rootDoc t')).
Proof.
  induction fuel as [|fuel IH]; intros node t Ht t'; [discriminate|].
  pose proof Ht as (o & Ho & Hd & Hkids)%readTree_kids.
  destruct t as [d kids]. cbn [allSubtrees subtrees rootDoc] in *.
  intros [-> | Hin]%elem_of_cons.
  - cbn [subtrees rootDoc]. rewrite <- (read_docs fuel _ _ Hkids).
    destruct (represents_doc node o Ho) as [_ Hid].
    pose proof (Hm node) as Hn. rewrite Ho in Hn. destruct Hn as [_ Hp].
    rewrite Hp, Hd, Hid. rewrite omap_findById_ids; [reflexivity|].
    intros f Hf. now apply elem_of_findByParent in Hf as [Hf _].
  - apply list_elem_of_In, in_flat_map in Hin as (kid & Hkid%list_elem_of_In & Hin).
    apply list_elem_of_In in Hin.
    destruct (list_elem_of_lookup_1 _ _ Hkid) as [i Hi].
    destruct (Forall2_lookup_r _ _ _ _ _ Hkids Hi) as (c & Hc & Hread).
    now apply (IH c kid Hread).
Qed.

(** The documents of the trees read at [cs], when these are references to
    distinct documents none of which lies below another. *)
Lemma forest_docs fuel cs kids :
  (forall c t, c ∈ cs -> readTree fuel m c = Some t ->
     NoDup (rootDoc <$> allSubtrees t)
     /\ forall f, f ∈ (rootDoc <$> allSubtrees t) <-> f ∈ files /\ rtc R (_id f) c) ->
  NoDup cs ->
  (forall a b, a ∈ cs -> b ∈ cs -> ~ tc R a b) ->
  Forall2 (fun c k => readTree fuel m c = Some k) cs kids ->
  NoDup (rootDoc <$> flat_map allSubtrees kids)
  /\ forall f, f ∈ (rootDoc <$> flat_map allSubtrees kids)
               <-> exists c, c ∈ cs /\ f ∈ files /\ rtc R (_id f) c.
Proof.
  intros Htree Hnd Hunrel Hread. revert Htree Hnd Hunrel.
  induction Hread as [|c k cs kids Hck _ IH]; intros Htree Hnd Hunrel.
  - split; [constructor|]. intros f. split; [intros H; inversion H|].
    intros (c & Hc & _). inversion Hc.
  - apply NoDup_cons in Hnd as [Hc Hnd].
    destruct (Htree c k ltac:(left) Hck) as [Hnd_k Hmem_k].
    destruct IH as [Hnd_r Hmem_r].
    { intros c' t Hc'. apply Htree. now right. }
    { exact Hnd. }
    { intros a b Ha Hb. apply Hunrel; now right. }
    cbn [flat_map]. rewrite fmap_app. split.
    + apply NoDup_app. split; [exact Hnd_k|]. split; [|exact Hnd_r].
      intros f [_ Hfc]%Hmem_k (c' & Hc' & _ & Hfc')%Hmem_r.
      destruct (rtc_linear files _ _ _ Hfc Hfc') as [H|H];
        apply rtc_tc in H as [H|H].
      * subst c'. contradiction.
      * apply (Hunrel c c'); [left | now right | exact H].
      * subst c'. contradiction.
      * apply (Hunrel c' c); [now right | left | exact H].
    + intros f. rewrite elem_of_app, Hmem_k, Hmem_r. split.
      * intros [[Hf Hrtc] | (c' & Hc' & Hf & Hrtc)].
        -- exists c. split; [left | auto].
        -- exists c'. split; [now right | auto].
      * intros (c' & [->|Hc']%elem_of_cons & Hf & Hrtc); [now left|].
        right. eauto.
Qed.

Lemma children_NoDup node o : m !! node = Some o -> NoDup (children o).
Proof.
  intros Ho. specialize (Hm node). rewrite Ho in Hm. destruct Hm as [_ ->].
  apply NoDup_fmap_2_strong.
  - intros f g [Hf _]%elem_of_findByParent [Hg _]%elem_of_findByParent.
    now apply (uniqueIds_inj files Hunique).
  - apply NoDup_filter. eapply NoDup_fmap_1, Hunique.
Qed.

(** A tree read at a node that lies on no cycle holds the node's document
    and the documents below it, each once. *)
Lemma readTree_docs :
  forall fuel node t,
    readTree fuel m node = Some t ->
    ~ tc R node node ->
    NoDup (rootDoc <$> allSubtrees t)
    /\ forall f, f ∈ (rootDoc <$> allSubtrees t) <-> f ∈ files /\ rtc R (_id f) node.
Proof.
  induction fuel as [|fuel IH]; intros node t Ht Hnc; [discriminate|].
  pose proof Ht as (o & Ho & Hd & Hkids)%readTree_kids.
  destruct (represents_doc node o Ho) as [Hdoc Hid].
  destruct t as [d kids]. cbn [allSubtrees subtrees rootDoc fmap list_fmap] in *. subst d.
  assert (Hchild : forall c, c ∈ children o -> R c node).
  { intros c Hc. now apply (represents_child files Hunique m node o c Hm Ho Hc). }
  destruct (forest_docs fuel (children o) kids) as [Hnd Hmem].
  { intros c t Hc Hct. apply (IH c t Hct).
    intros Hcyc. apply Hnc. eapply cycle_at_parent; [apply Hchild, Hc | exact Hcyc]. }
  { now apply (children_NoDup node). }
  { intros a b Ha Hb Hab. apply Hnc.
    eapply siblings_cycle; [apply Hchild, Ha | apply Hchild, Hb | exact Hab]. }
  { exact Hkids. }
  split.
  - apply NoDup_cons. split; [|exact Hnd].
    intros (c & Hc & _ & Hrtc)%Hmem. apply Hnc. rewrite Hid in Hrtc.
    eapply tc_rtc_l; [exact Hrtc | apply tc_once, Hchild, Hc].
  - intros f. rewrite elem_of_cons, Hmem. split.
    + intros [-> | (c & Hc & Hf & Hrtc)].
      * split; [exact Hdoc|]. rewrite Hid. apply rtc_refl.
      * split; [exact Hf|]. eapply rtc_r; [exact Hrtc | apply Hchild, Hc].
    + intros [Hf Hrtc]. apply rtc_inv_r in Hrtc as [Heq | (y & Hy & Hstep)].
      * left. apply (uniqueIds_inj files Hunique); congruence.
      * right. exists y. split; [|auto].
        apply (parentRel_child files) in Hstep as (g & Hg & <- & Hp).
        pose proof (Hm node) as Hn. rewrite Ho in Hn. destruct Hn as [_ ->].
        apply list_elem_of_fmap_2, elem_of_findByParent. auto.
Qed.

End Forest.

Lemma root_no_parent files f y :
  uniqueIds files -> f ∈ files -> parentId f = None -> ~ tc (parentRel files) (_id f) y.
Proof.
  intros Hu Hf Hp Htc.
  assert (exists z, parentRel files (_id f) z) as [z Hz] by (inversion Htc; eauto).
  unfold parentRel in Hz. rewrite (root_parentOf files Hu f Hf Hp) in Hz. discriminate.
Qed.

(** A document whose parent is not in the input is not rooted. *)
Lemma dangling_not_rooted files f p :
  uniqueIds files -> f ∈ files ->
  parentId f = Some p -> findById files p = None -> ~ rooted files f.
Proof.
  intros Hu Hf Hp Hnone (r & Hr & Hrp & Hrtc).
  pose proof (child_parentRel files Hu f p Hf Hp) as Hstep.
  inversion Hrtc as [Heq | ? y ? H1 H2]; subst.
  - rewrite (uniqueIds_inj files Hu f r Hf Hr) in Hp by congruence. congruence.
  - rewrite <- (parentRel_functional _ _ _ _ Hstep H1) in H2.
    inversion H2 as [Heq | ? z ? H3 _]; subst.
    + now apply (findById_None files _ r Hnone).
    + apply parentOf_Some in H3 as (g & Hg & _). congruence.
Qed.

(** C1 (as the code has it): on input with distinct ids [buildFileTree]
    produces a forest; its roots are exactly the documents whose [parentId] is
    null, and the children of every node of the forest are exactly the
    documents whose [parentId] is that node's id. A document whose [parentId]
    names no document of the input is no root and is attached nowhere. So the
    forest holds, each once, the documents whose parent chain ends at a
    document with null [parentId]: never more than the input has, and as many
    as the input when every chain ends so. *)
Theorem buildFileTree_forest (localeCompare : string -> string -> Z) files :
  uniqueIds files ->
  (exists forest,
      buildFileTree localeCompare (S (length files)) (Some files) = Some forest)
  /\ (forall fuel forest,
        buildFileTree localeCompare fuel (Some files) = Some forest ->
        rootDoc <$> forest ≡ₚ filter (fun f => parentId f = None) files
        /\ (forall t, t ∈ flat_map allSubtrees forest ->
              rootDoc <$> subtrees t ≡ₚ findByParent files (_id (rootDoc t)))
        /\ NoDup (nodes forest)
        /\ (forall f, f ∈ nodes forest <-> f ∈ files /\ rooted files f)
        /\ (forall f p, f ∈ files -> parentId f = Some p -> findById files p = None ->
              f ∉ nodes forest)
        /\ (length (nodes forest) <= length files)%nat
        /\ ((forall f, f ∈ files -> rooted files f) ->
            length (nodes forest) = length files)).
Proof.
  intros Hu. split; [now apply buildFileTree_total|].
  intros fuel forest (m1 & rootFiles & m3 & H1 & H3 & Hread)%buildFileTree_Some_inv.
  set (m2 := secondPass files m1) in *.
  set (rootNodes := js_sort (compareRefs localeCompare m2) rootFiles) in *.
  assert (Hm3 : represents files m3).
  { apply (represents_extends localeCompare files m2).
    - eapply forEachM_extends; [|exact H3]. intros ? ? ? _. apply sortChildren_extends.
    - eapply represents_secondPass; eassumption. }
  apply mapM_Some_1 in Hread.
  assert (Hroots : rootNodes ≡ₚ _id <$> filter (fun f => parentId f = None) files).
  { unfold rootNodes. rewrite js_sort_Permutation.
    now pose proof H1 as [_ ->]%firstPass_spec. }
  assert (Hroot : forall c, c ∈ rootNodes <->
            exists r, r ∈ files /\ parentId r = None /\ c = _id r).
  { intros c. rewrite Hroots, list_elem_of_fmap. split.
    - intros (r & -> & [Hp Hr]%list_elem_of_filter). eauto.
    - intros (r & Hr & Hp & ->). exists r. split; [reflexivity|].
      now apply list_elem_of_filter. }
  assert (Hdocs : NoDup (nodes forest)
            /\ forall f, f ∈ nodes forest <-> f ∈ files /\ rooted files f).
  { destruct (forest_docs files m3 fuel rootNodes forest) as [Hnd Hmem].
    - intros c t (r & Hr & Hp & ->)%Hroot Hct.
      eapply readTree_docs; [exact Hu | exact Hm3 | exact Hct |].
      now apply root_no_parent.
    - rewrite Hroots. apply NoDup_fmap_2_strong.
      + intros f g [_ Hf]%list_elem_of_filter [_ Hg]%list_elem_of_filter.
        now apply (uniqueIds_inj files Hu).
      + apply NoDup_filter. eapply NoDup_fmap_1, Hu.
    - intros a b (r & Hr & Hp & ->)%Hroot _. now apply root_no_parent.
    - exact Hread.
    - split; [exact Hnd|]. intros f. unfold nodes. rewrite Hmem. split.
      + intros (c & (r & Hr & Hp & ->)%Hroot & Hf & Hrtc). split; [exact Hf|].
        exists r. auto.
      + intros (Hf & r & Hr & Hp & Hrtc). exists (_id r).
        split; [apply Hroot; eauto | auto]. }
  destruct Hdocs as [Hnd Hmem].
  split; [|split; [|split; [exact Hnd|split; [exact Hmem|split; [|split]]]]].
  - rewrite <- (read_docs files m3 Hm3 fuel _ _ Hread), Hroots.
    rewrite (omap_findById_ids files Hu); [reflexivity|].
    intros f Hf. now apply list_elem_of_filter in Hf as [_ Hf].
  - intros t Ht.
    apply list_elem_of_In, in_flat_map in Ht as (tree & Htree%list_elem_of_In & Ht).
    apply list_elem_of_In in Ht.
    destruct (list_elem_of_lookup_1 _ _ Htree) as [i Hi].
    destruct (Forall2_lookup_r _ _ _ _ _ Hread Hi) as (r & Hr & Hreadr).
    now apply (readTree_children files Hu m3 Hm3 fuel r tree Hreadr).
  - intros f p Hf Hp Hnone [_ Hrooted]%Hmem.
    now apply (dangling_not_rooted files f p Hu Hf Hp Hnone).
  - apply submseteq_length, NoDup_submseteq; [exact Hnd|].
    intros f Hf. now apply Hmem in Hf as [Hf _].
  - intros Hall. apply Permutation_length, NoDup_Permutation.
    + exact Hnd.
    + eapply NoDup_fmap_1, Hu.
    + intros f. rewrite Hmem. split; [tauto | auto].
Qed.

Lemma buildFileTree_forest_witness :
  exists forest,
    buildFileTree Sample.ciCompare 6 (Some Sample.tree) = Some forest
    /\ rootDoc <$> forest ≡ₚ filter (fun f => parentId f = None) Sample.tree
    /\ NoDup (nodes forest)
    /\ (length (nodes forest) <= 5)%nat.
Proof.
  destruct (buildFileTree_forest Sample.ciCompare Sample.tree) as [[forest Hforest] Hshape].
  - unfold uniqueIds. by_decide.
  - destruct (Hshape _ _ Hforest) as (Hroots & _ & Hnd & _ & _ & Hlen & _).
    exists forest. auto.
Defined.

(** C1 (as the spec states it) fails: of two documents, one with a [parentId]
    that names no document of the input, the forest holds only the other. The
    dangling one is no root, and the forest has one node for an input of
    two. *)
Lemma buildFileTree_drops_orphan :
  findById Sample.orphaned 99 = None
  /\ buildFileTree Sample.ciCompare 3 (Some Sample.orphaned)
     = Some [Node (Sample.mk 1 "src" folder None 0) []]
  /\ length (nodes [Node (Sample.mk 1 "src" folder None 0) []]) = 1%nat
  /\ length Sample.orphaned = 2%nat.
Proof. repeat split; vm_compute; reflexivity. Qed.

(** * Further properties *)

(** ** The retry loop in general *)

Section RetryLoopFacts.

Context {A : Type}.
Variables (connected : nat -> bool) (operation : nat -> Outcome A).
Variables (opName : string) (o : Options).

(** What every run of the loop keeps: it asks and invokes at most once per
    iteration, a value resolved is the one of the last invocation, and every
    invocation before it failed with a retryable error. *)
Lemma retryLoop_invariant :
  forall remaining attempt lastError t r t',
    Z.of_nat remaining = Z.max 0 (maxRetries o - attempt + 1) ->
    retryLoop connected operation opName o remaining attempt lastError t = (r, t') ->
    (asked t <= asked t' <= asked t + remaining)%nat
    /\ (invoked t <= invoked t')%nat
    /\ (invoked t' - invoked t <= asked t' - asked t)%nat
    /\ match r with
       | Resolved v =>
           (invoked t < invoked t')%nat
           /\ operation (invoked t' - 1)%nat = Return v
           /\ forall k, (invoked t <= k < invoked t' - 1)%nat ->
                exists e, operation k = Throw e /\ isRetryableError (Some e) = true
       | Rejected (ThrowEnhanced x) =>
           errContext x = context o /\ operationName x = opName
           /\ (attempts x = maxRetries o \/ retryable x = false)
       | Rejected (ThrowError e) => remaining = 0%nat /\ lastError = Some e
       | Rejected ThrowUndefined => remaining = 0%nat /\ lastError = None
       end.
Proof.
  induction remaining as [|remaining IH]; intros attempt lastError t r t' Hrel.
  - cbn [retryLoop]. intros [= <- <-]. repeat split; try lia.
    destruct lastError; auto.
  - cbn [retryLoop]. unfold attemptOnce.
    assert (Hnext : forall e res,
      (Z.eqb attempt (maxRetries o) || negb (isRetryableError (Some e))) = false ->
      forall t1,
        retryLoop connected operation opName o remaining (attempt + 1) (Some e) t1 = res ->
        Z.of_nat remaining = Z.max 0 (maxRetries o - (attempt + 1) + 1)
        /\ (0 < remaining)%nat).
    { intros e res [Hne%Z.eqb_neq _]%orb_false_iff t1 _. lia. }
    destruct (connected (asked t)) eqn:Hc.
    + destruct (operation (invoked t)) as [v|e] eqn:Hop.
      * intros [= <- <-].
        destruct (Z.ltb 1 attempt); cbn [invoked asked console];
          (repeat split; try lia;
           replace (S (invoked t) - 1)%nat with (invoked t) by lia; exact Hop).
      * destruct (Z.eqb attempt (maxRetries o) || negb (isRetryableError (Some e))) eqn:Hstop.
        -- intros [= <- <-]. cbn [invoked asked errContext operationName attempts retryable].
           repeat split; try lia.
           apply orb_true_iff in Hstop as [Heq%Z.eqb_eq | Hr%negb_true_iff]; auto.
        -- intros H. destruct (Hnext _ _ Hstop _ H) as [Hrel' Hpos].
           apply orb_false_iff in Hstop as [_ Hr%negb_false_iff].
           apply (IH _ _ _ _ _ Hrel') in H. cbn [invoked asked console] in H.
           destruct H as (Ha & Hi & Hd & Hr').
           repeat split; try lia.
           destruct r as [v | [e' | x |]].
           ++ destruct Hr' as (Hlt & Hv & Hprev). repeat split; [lia | exact Hv |].
              intros k Hk. destruct (decide (k = invoked t)) as [->|Hne]; [eauto|].
              apply Hprev. lia.
           ++ destruct Hr' as [? _]. lia.
           ++ exact Hr'.
           ++ destruct Hr' as [? _]. lia.
    + destruct (Z.eqb attempt (maxRetries o)
                || negb (isRetryableError (Some (newError "Database connection lost"))))
        eqn:Hstop.
      * intros [= <- <-]. cbn [invoked asked errContext operationName attempts retryable].
        repeat split; try lia.
        apply orb_true_iff in Hstop as [Heq%Z.eqb_eq | Hr%negb_true_iff]; auto.
      * intros H. destruct (Hnext _ _ Hstop _ H) as [Hrel' Hpos].
        apply (IH _ _ _ _ _ Hrel') in H. cbn [invoked asked console] in H.
        destruct H as (Ha & Hi & Hd & Hr').
        repeat split; try lia.
        destruct r as [v | [e' | x |]].
        -- destruct Hr' as (Hlt & Hv & Hprev). repeat split; [lia | exact Hv |].
           intros k Hk. apply Hprev. lia.
        -- destruct Hr' as [? _]. lia.
        -- exact Hr'.
        -- destruct Hr' as [? _]. lia.
Qed.

End RetryLoopFacts.

Lemma handlePersistenceOperation_retrying {A : Type}
    (connected : nat -> bool) (operation : nat -> Outcome A) opName o t :
  enableRetry o = true ->
  handlePersistenceOperation connected operation opName o t
  = retryLoop connected operation opName o (Z.to_nat (maxRetries o)) 1 None t.
Proof. intros H. unfold handlePersistenceOperation. now rewrite H. Qed.

Lemma handlePersistenceOperation_single {A : Type}
    (connected : nat -> bool) (operation : nat -> Outcome A) opName o t :
  enableRetry o = false ->
  handlePersistenceOperation connected operation opName o t
  = handleDatabaseOperation connected operation (opName +:+ " failed") t.
Proof. intros H. unfold handlePersistenceOperation. now rewrite H. Qed.

Lemma handleDatabaseOperation_counts {A : Type}
    (connected : nat -> bool) (operation : nat -> Outcome A) msg t :
  let res := handleDatabaseOperation connected operation msg t in
  asked (snd res) = S (asked t)
  /\ (invoked t <= invoked (snd res) <= S (invoked t))%nat.
Proof.
  unfold handleDatabaseOperation, attemptOnce.
  destruct (connected (asked t)); [destruct (operation (invoked t))|];
    cbn; repeat split; lia.
Qed.

(** Every run of [handlePersistenceOperation] is capped: it asks
    [isConnected()] at most [maxRetries] times (once when [enableRetry] is
    off) and invokes the operation at most once per such check, whatever the
    connection and the operation do. *)
Theorem handlePersistenceOperation_capped {A : Type}
    (connected : nat -> bool) (operation : nat -> Outcome A)
    (opName : string) (o : Options) :
  let res := handlePersistenceOperation connected operation opName o noTrace in
  (asked (snd res) <= if enableRetry o then Z.to_nat (maxRetries o) else 1)%nat
  /\ (invoked (snd res) <= asked (snd res))%nat.
Proof.
  cbv zeta. destruct (enableRetry o) eqn:Hen.
  - rewrite handlePersistenceOperation_retrying by assumption.
    destruct (retryLoop connected operation opName o (Z.to_nat (maxRetries o)) 1 None noTrace)
      as [r t'] eqn:Hrun.
    apply retryLoop_invariant in Hrun as (Ha & Hi & Hd & _); [|lia].
    cbn [snd]. change (asked noTrace) with 0%nat in *.
    change (invoked noTrace) with 0%nat in *. lia.
  - rewrite handlePersistenceOperation_single by assumption.
    pose proof (handleDatabaseOperation_counts connected operation
                  (opName +:+ " failed") noTrace) as H.
    cbv zeta in H. change (asked noTrace) with 0%nat in H.
    change (invoked noTrace) with 0%nat in H. lia.
Qed.

(** A value that [handlePersistenceOperation] resolves to is the value of the
    last invocation of the operation, and every invocation before it failed
    with an error that [isRetryableError] accepts. *)
Theorem handlePersistenceOperation_resolved {A : Type}
    (connected : nat -> bool) (operation : nat -> Outcome A)
    (opName : string) (o : Options) (v : A) (t' : Trace) :
  handlePersistenceOperation connected operation opName o noTrace = (Resolved v, t') ->
  (0 < invoked t')%nat
  /\ operation (invoked t' - 1)%nat = Return v
  /\ forall k, (k < invoked t' - 1)%nat ->
       exists e, operation k = Throw e /\ isRetryableError (Some e) = true.
Proof.
  destruct (enableRetry o) eqn:Hen.
  - rewrite handlePersistenceOperation_retrying by assumption. intros Hrun.
    apply retryLoop_invariant in Hrun as (_ & _ & _ & Hlt & Hv & Hprev); [|lia].
    change (invoked noTrace) with 0%nat in *.
    split; [lia|]. split; [exact Hv|]. intros k Hk. apply Hprev. lia.
  - rewrite handlePersistenceOperation_single by assumption.
    unfold handleDatabaseOperation, attemptOnce, noTrace. cbn [asked invoked console].
    destruct (connected 0%nat); [|discriminate].
    destruct (operation 0%nat) as [v0|e] eqn:Hop; [|discriminate].
    intros [= <- <-]. cbn [invoked]. split; [lia|]. split; [exact Hop|]. intros k Hk. lia.
Qed.

Lemma handlePersistenceOperation_resolved_witness :
  Sample.flaky 2 = Return 42
  /\ forall k, (k < 2)%nat ->
       exists e, Sample.flaky k = Throw e /\ isRetryableError (Some e) = true.
Proof.
  destruct (handlePersistenceOperation_resolved Sample.online Sample.flaky
              "Project save (1)" defaultOptions 42
              {| asked := 3; invoked := 3;
                 console := [WarnRetrying "Project save (1)" 1 3 Sample.networkTimeout 1000;
                             WarnRetrying "Project save (1)" 2 3 Sample.networkTimeout 2000;
                             LogSucceeded "Project save (1)" 3 3] |} eq_refl)
    as (_ & Hv & Hprev).
  split; [exact Hv | exact Hprev].
Defined.

(** With [maxRetries] zero or negative the loop body never runs: the operation
    is not invoked, the connection is not asked, and what is thrown is the
    [lastError] that was never assigned, [undefined]. *)
Theorem handlePersistenceOperation_no_attempts {A : Type}
    (connected : nat -> bool) (operation : nat -> Outcome A)
    (opName : string) (o : Options) (t : Trace) :
  enableRetry o = true -> maxRetries o <= 0 ->
  handlePersistenceOperation connected operation opName o t = (Rejected ThrowUndefined, t).
Proof.
  intros Hen Hmax. rewrite handlePersistenceOperation_retrying by assumption.
  replace (Z.to_nat (maxRetries o)) with 0%nat by lia. reflexivity.
Qed.

Lemma handlePersistenceOperation_no_attempts_witness :
  handlePersistenceOperation Sample.online Sample.flaky "File update (7)"
    {| opt_maxRetries := Some 0; opt_baseDelay := None; opt_enableRetry := None;
       opt_context := None |} noTrace
  = (Rejected ThrowUndefined, noTrace).
Proof.
  apply (handlePersistenceOperation_no_attempts Sample.online Sample.flaky); [reflexivity|].
  cbn. lia.
Defined.

(** With [enableRetry] off there is one attempt and no classification: an
    error of the operation is rethrown as it is, retryable or not, and a lost
    connection is reported as "Database not connected" without invoking the
    operation. *)
Theorem handlePersistenceOperation_without_retry {A : Type}
    (connected : nat -> bool) (operation : nat -> Outcome A)
    (opName : string) (o : Options) :
  enableRetry o = false ->
  (connected 0%nat = false ->
     handlePersistenceOperation connected operation opName o noTrace
     = (Rejected (ThrowError (newError "Database not connected")),
        {| asked := 1; invoked := 0;
           console := [LogError ((opName +:+ " failed") +:+ ":")
                         (newError "Database not connected")] |}))
  /\ (forall e, connected 0%nat = true -> operation 0%nat = Throw e ->
        handlePersistenceOperation connected operation opName o noTrace
        = (Rejected (ThrowError e),
           {| asked := 1; invoked := 1;
              console := [LogError ((opName +:+ " failed") +:+ ":") e] |}))
  /\ (forall v, connected 0%nat = true -> operation 0%nat = Return v ->
        handlePersistenceOperation connected operation opName o noTrace
        = (Resolved v, {| asked := 1; invoked := 1; console := [] |})).
Proof.
  intros Hen. rewrite handlePersistenceOperation_single by assumption.
  unfold handleDatabaseOperation, attemptOnce, noTrace. cbn [asked invoked console].
  split; [|split].
  - intros ->. reflexivity.
  - intros e -> ->. reflexivity.
  - intros v -> ->. reflexivity.
Qed.

Lemma handlePersistenceOperation_without_retry_witness :
  handlePersistenceOperation Sample.online
    (fun _ => Throw Sample.networkTimeout : Outcome Z) "Project load (1)"
    {| opt_maxRetries := None; opt_baseDelay := None; opt_enableRetry := Some false;
       opt_context := None |} noTrace
  = (Rejected (ThrowError Sample.networkTimeout),
     {| asked := 1; invoked := 1;
        console := [LogError "Project load (1) failed:" Sample.networkTimeout] |}).
Proof.
  apply (handlePersistenceOperation_without_retry Sample.online
           (fun _ => Throw Sample.networkTimeout : Outcome Z) "Project load (1)");
    reflexivity.
Defined.

Lemma connection_lost_retryable :
  isRetryableError (Some (newError "Database connection lost")) = true.
Proof. reflexivity. Qed.

Lemma retryLoop_lost_retry {A : Type} (connected : nat -> bool)
    (operation : nat -> Outcome A) opName o remaining attempt lastError t :
  connected (asked t) = false -> attempt <> maxRetries o ->
  retryLoop connected operation opName o (S remaining) attempt lastError t
  = retryLoop connected operation opName o remaining (attempt + 1)
      (Some (newError "Database connection lost"))
      {| asked := S (asked t); invoked := invoked t;
         console := console t
           ++ [WarnRetrying opName attempt (maxRetries o)
                 (newError "Database connection lost")
                 (baseDelay o * 2 ^ (attempt - 1))] |}.
Proof.
  intros Hc Hne. cbn [retryLoop]. unfold attemptOnce. rewrite Hc.
  destruct (Z.eqb_spec attempt (maxRetries o)); [contradiction|].
  rewrite connection_lost_retryable. reflexivity.
Qed.

Lemma retryLoop_lost_raise {A : Type} (connected : nat -> bool)
    (operation : nat -> Outcome A) opName o remaining lastError t :
  connected (asked t) = false ->
  retryLoop connected operation opName o (S remaining) (maxRetries o) lastError t
  = (Rejected (ThrowEnhanced
       {| message := opName +:+ " failed after " +:+ pretty (maxRetries o)
                     +:+ " attempts: " +:+ "Database connection lost";
          originalError := newError "Database connection lost";
          attempts := maxRetries o;
          retryable := true;
          errContext := context o;
          operationName := opName |}),
     {| asked := S (asked t); invoked := invoked t; console := console t |}).
Proof.
  intros Hc. cbn [retryLoop]. unfold attemptOnce. rewrite Hc, Z.eqb_refl. reflexivity.
Qed.

Lemma retryLoop_offline {A : Type} (connected : nat -> bool) (operation : nat -> Outcome A)
    opName o :
  (forall k, connected k = false) ->
  forall r attempt lastError t,
    attempt = maxRetries o - Z.of_nat r ->
    retryLoop connected operation opName o (S r) attempt lastError t
    = (Rejected (ThrowEnhanced
         {| message := opName +:+ " failed after " +:+ pretty (maxRetries o)
                       +:+ " attempts: " +:+ "Database connection lost";
            originalError := newError "Database connection lost";
            attempts := maxRetries o;
            retryable := true;
            errContext := context o;
            operationName := opName |}),
       {| asked := (asked t + S r)%nat; invoked := invoked t;
          console := console t
            ++ ((fun k => WarnRetrying opName (attempt + Z.of_nat k) (maxRetries o)
                            (newError "Database connection lost")
                            (baseDelay o * 2 ^ (attempt + Z.of_nat k - 1)))
                <$> seq 0 r) |}).
Proof.
  intros Hoff. induction r as [|r IH]; intros attempt lastError t Hat.
  - replace attempt with (maxRetries o) by lia.
    rewrite retryLoop_lost_raise by apply Hoff.
    cbn [seq fmap list_fmap]. rewrite app_nil_r.
    do 3 f_equal. lia.
  - rewrite retryLoop_lost_retry by (apply Hoff || lia).
    rewrite IH by lia. cbn [asked invoked console].
    f_equal. f_equal.
    + lia.
    + rewrite <- app_assoc. f_equal. cbn [seq fmap list_fmap app].
      rewrite Z.add_0_r. f_equal.
      rewrite <- fmap_S_seq, <- list_fmap_compose. apply list_fmap_ext.
      intros _ k _. cbn. f_equal; [lia | f_equal; f_equal; lia].
Qed.

(** A lost connection counts as a retryable failure: while [isConnected()]
    keeps answering no, the operation is never invoked, the check is repeated
    on each of the [maxRetries] attempts, and the failure raised at the end
    carries "Database connection lost" as its cause and [retryable = true]. *)
Theorem handlePersistenceOperation_offline {A : Type}
    (connected : nat -> bool) (operation : nat -> Outcome A)
    (opName : string) (o : Options) :
  (forall k, connected k = false) ->
  enableRetry o = true -> 1 <= maxRetries o ->
  exists x t',
    handlePersistenceOperation connected operation opName o noTrace
    = (Rejected (ThrowEnhanced x), t')
    /\ originalError x = newError "Database connection lost"
    /\ attempts x = maxRetries o
    /\ retryable x = true
    /\ invoked t' = 0%nat
    /\ asked t' = Z.to_nat (maxRetries o).
Proof.
  intros Hoff Hen Hmax. rewrite handlePersistenceOperation_retrying by assumption.
  destruct (Z.to_nat (maxRetries o)) as [|r] eqn:Hn; [lia|].
  rewrite (retryLoop_offline connected operation opName o Hoff r 1 None noTrace) by lia.
  eexists _, _. split; [reflexivity|]. cbn. repeat split.
Qed.

Lemma handlePersistenceOperation_offline_witness :
  exists x t',
    handlePersistenceOperation Sample2.offline Sample.flaky "Project save (1)"
      defaultOptions noTrace
    = (Rejected (ThrowEnhanced x), t')
    /\ originalError x = newError "Database connection lost"
    /\ attempts x = 3
    /\ retryable x = true
    /\ invoked t' = 0%nat
    /\ asked t' = 3%nat.
Proof.
  apply (handlePersistenceOperation_offline Sample2.offline Sample.flaky
           "Project save (1)" defaultOptions); [reflexivity..|cbn; lia].
Defined.

Lemma handlePersistenceOperation_enhanced {A : Type}
    (connected : nat -> bool) (operation : nat -> Outcome A) opName o t x t' :
  handlePersistenceOperation connected operation opName o t
  = (Rejected (ThrowEnhanced x), t') ->
  errContext x = context o /\ operationName x = opName.
Proof.
  destruct (enableRetry o) eqn:Hen.
  - rewrite handlePersistenceOperation_retrying by assumption. intros Hrun.
    apply retryLoop_invariant in Hrun as (_ & _ & _ & Hc & Hn & _); [auto | lia].
  - rewrite handlePersistenceOperation_single by assumption.
    unfold handleDatabaseOperation.
    destruct (attemptOnce _ _ _ _) as [[v|e] t1]; discriminate.
Qed.

(** The wrappers name the entity themselves: whatever [context] the caller
    put into the options, a failure raised through [handleProjectSave],
    [handleProjectLoad] or [handleFileOperation] carries the context and the
    operation name that the wrapper built from its own arguments. *)
Theorem wrappers_fix_context {A : Type}
    (connected : nat -> bool) (operation : nat -> Outcome A)
    (options : Options) (t t' : Trace) (x : EnhancedError) :
  (forall projectId,
      handleProjectSave operation connected projectId options t
      = (Rejected (ThrowEnhanced x), t') ->
      errContext x = [("projectId", projectId); ("operation", "save")]
      /\ operationName x = "Project save (" +:+ projectId +:+ ")")
  /\ (forall projectId,
      handleProjectLoad operation connected projectId options t
      = (Rejected (ThrowEnhanced x), t') ->
      errContext x = [("projectId", projectId); ("operation", "load")]
      /\ operationName x = "Project load (" +:+ projectId +:+ ")")
  /\ (forall fileId operationType,
      handleFileOperation operation connected fileId operationType options t
      = (Rejected (ThrowEnhanced x), t') ->
      errContext x = [("fileId", fileId); ("operation", operationType)]
      /\ operationName x = "File " +:+ operationType +:+ " (" +:+ fileId +:+ ")").
Proof.
  split; [|split]; intros *; intros H;
    apply handlePersistenceOperation_enhanced in H as [-> ->]; split; reflexivity.
Qed.

Lemma wrappers_fix_context_witness :
  exists x t',
    handleProjectSave (fun _ => Throw Sample.validationFailed : Outcome Z) Sample.online
      "64f0" Sample.withContext noTrace
    = (Rejected (ThrowEnhanced x), t')
    /\ errContext x = [("projectId", "64f0"); ("operation", "save")]
    /\ operationName x = "Project save (64f0)".
Proof.
  assert (exists x t',
    handleProjectSave (fun _ => Throw Sample.validationFailed : Outcome Z) Sample.online
      "64f0" Sample.withContext noTrace = (Rejected (ThrowEnhanced x), t'))
    as (x & t' & Hrun) by (eexists _, _; reflexivity).
  exists x, t'. split; [exact Hrun|].
  exact (proj1 (wrappers_fix_context Sample.online
                  (fun _ => Throw Sample.validationFailed : Outcome Z)
                  Sample.withContext noTrace t' x) "64f0" Hrun).
Defined.

(** ** [retryOperation] *)

Section RetryOperationFacts.

Context {A : Type}.
Variable operation : nat -> Outcome A.
Variables maxRetries baseDelay : Z.

Let backoff (attempt : Z) (k : nat) : Z := baseDelay * 2 ^ (attempt + Z.of_nat k - 1).

Lemma backoff_shift attempt k :
  backoff (attempt + 1) <$> seq 0 k = backoff attempt <$> seq 1 k.
Proof.
  rewrite <- fmap_S_seq, <- list_fmap_compose. apply list_fmap_ext.
  intros _ j _. unfold backoff. cbn. do 2 f_equal. lia.
Qed.

Lemma retryOperation_loop_step remaining attempt lastError t e :
  operation (tries t) = Throw e -> attempt <> maxRetries ->
  retryOperation_loop operation maxRetries baseDelay (S remaining) attempt lastError t
  = retryOperation_loop operation maxRetries baseDelay remaining (attempt + 1) (Some e)
      {| tries := S (tries t); waits := waits t ++ [baseDelay * 2 ^ (attempt - 1)] |}.
Proof.
  intros He Hne. cbn [retryOperation_loop]. rewrite He.
  destruct (Z.eqb_spec attempt maxRetries); [contradiction | reflexivity].
Qed.

Lemma retryOperation_loop_resolves k v :
  forall remaining attempt lastError t,
    (k < remaining)%nat ->
    Z.of_nat remaining = maxRetries - attempt + 1 ->
    (forall j, (j < k)%nat -> exists e, operation (tries t + j)%nat = Throw e) ->
    operation (tries t + k)%nat = Return v ->
    retryOperation_loop operation maxRetries baseDelay remaining attempt lastError t
    = (Resolved v,
       {| tries := (tries t + S k)%nat;
          waits := waits t ++ (backoff attempt <$> seq 0 k) |}).
Proof.
  induction k as [|k IH]; intros remaining attempt lastError t Hk Hrel Hfail Hok.
  - destruct remaining as [|remaining]; [lia|]. cbn [retryOperation_loop].
    rewrite Nat.add_0_r in Hok. rewrite Hok. cbn [seq fmap list_fmap].
    rewrite app_nil_r. do 2 f_equal. lia.
  - destruct remaining as [|remaining]; [lia|].
    destruct (Hfail 0%nat ltac:(lia)) as [e He]. rewrite Nat.add_0_r in He.
    rewrite (retryOperation_loop_step _ _ _ _ e) by (assumption || lia).
    rewrite (IH remaining (attempt + 1)); cbn [tries waits]; try lia.
    + do 2 f_equal; [lia|]. rewrite <- app_assoc. f_equal.
      rewrite backoff_shift. cbn [seq fmap list_fmap app]. f_equal.
      unfold backoff. do 2 f_equal. lia.
    + intros j Hj. replace (S (tries t) + j)%nat with (tries t + S j)%nat by lia.
      apply Hfail. lia.
    + replace (S (tries t) + k)%nat with (tries t + S k)%nat by lia. exact Hok.
Qed.

Lemma retryOperation_loop_rejects :
  forall remaining attempt lastError t e,
    Z.of_nat (S remaining) = maxRetries - attempt + 1 ->
    (forall j, (j < remaining)%nat -> exists e', operation (tries t + j)%nat = Throw e') ->
    operation (tries t + remaining)%nat = Throw e ->
    retryOperation_loop operation maxRetries baseDelay (S remaining) attempt lastError t
    = (Rejected (ThrowError e),
       {| tries := (tries t + S remaining)%nat;
          waits := waits t ++ (backoff attempt <$> seq 0 remaining) |}).
Proof.
  induction remaining as [|remaining IH]; intros attempt lastError t e Hrel Hfail Hlast.
  - cbn [retryOperation_loop]. rewrite Nat.add_0_r in Hlast. rewrite Hlast.
    destruct (Z.eqb_spec attempt maxRetries) as [Heq|Hne]; [|lia].
    cbn [seq fmap list_fmap]. rewrite app_nil_r. do 2 f_equal. lia.
  - destruct (Hfail 0%nat ltac:(lia)) as [e0 He0]. rewrite Nat.add_0_r in He0.
    rewrite (retryOperation_loop_step _ _ _ _ e0) by (assumption || lia).
    rewrite (IH (attempt + 1) _ _ e); cbn [tries waits]; try lia.
    + do 2 f_equal; [lia|]. rewrite <- app_assoc. f_equal.
      rewrite backoff_shift. cbn [seq fmap list_fmap app]. f_equal.
      unfold backoff. do 2 f_equal. lia.
    + intros j Hj. replace (S (tries t) + j)%nat with (tries t + S j)%nat by lia.
      apply Hfail. lia.
    + replace (S (tries t) + remaining)%nat with (tries t + S remaining)%nat by lia.
      exact Hlast.
Qed.

End RetryOperationFacts.

(** [retryOperation] invokes the operation until it succeeds, at most
    [maxRetries] times, waiting [baseDelay], then twice, four times ... that
    long between invocations. It resolves to the first success, and when
    every invocation fails it throws the error of the last one as it is. With
    [maxRetries] below 1 it invokes nothing and throws [undefined]. *)
Theorem retryOperation_outcome {A : Type} (operation : nat -> Outcome A)
    (maxRetries baseDelay : option Z) :
  let n := Z.to_nat (default 3 maxRetries) in
  let wait (k : nat) := default 1000 baseDelay * 2 ^ Z.of_nat k in
  (n = 0%nat ->
     retryOperation operation maxRetries baseDelay
     = (Rejected ThrowUndefined, {| tries := 0; waits := [] |}))
  /\ (forall k v,
        (k < n)%nat ->
        (forall j, (j < k)%nat -> exists e, operation j = Throw e) ->
        operation k = Return v ->
        retryOperation operation maxRetries baseDelay
        = (Resolved v, {| tries := S k; waits := wait <$> seq 0 k |}))
  /\ (forall e,
        (0 < n)%nat ->
        (forall j, (j < n - 1)%nat -> exists e', operation j = Throw e') ->
        operation (n - 1)%nat = Throw e ->
        retryOperation operation maxRetries baseDelay
        = (Rejected (ThrowError e), {| tries := n; waits := wait <$> seq 0 (n - 1) |})).
Proof.
  cbv zeta. unfold retryOperation.
  set (m := default 3 maxRetries). set (b := default 1000 baseDelay).
  assert (Hwait : forall k,
    (fun j : nat => b * 2 ^ (1 + Z.of_nat j - 1)) <$> seq 0 k
    = (fun j : nat => b * 2 ^ Z.of_nat j) <$> seq 0 k).
  { intros k. apply list_fmap_ext. intros _ j _. cbn. do 2 f_equal. lia. }
  split; [|split].
  - intros ->. reflexivity.
  - intros k v Hk Hfail Hok.
    rewrite (retryOperation_loop_resolves operation m b k v); cbn [tries waits]; try lia.
    + now rewrite Hwait.
    + exact Hfail.
    + exact Hok.
  - intros e Hn Hfail Hlast.
    destruct (Z.to_nat m) as [|r] eqn:Hr; [lia|].
    replace (S r - 1)%nat with r in * by lia.
    rewrite (retryOperation_loop_rejects operation m b r 1 None _ e); cbn [tries waits];
      try lia.
    + now rewrite Hwait.
    + exact Hfail.
    + exact Hlast.
Qed.

Lemma retryOperation_outcome_witness :
  retryOperation Sample2.twice None None
  = (Resolved 7, {| tries := 3; waits := [1000; 2000] |})
  /\ retryOperation (fun _ => Throw Sample.duplicateKey : Outcome Z) (Some 2) (Some 50)
     = (Rejected (ThrowError Sample.duplicateKey), {| tries := 2; waits := [50] |}).
Proof.
  split.
  - apply (proj1 (proj2 (retryOperation_outcome Sample2.twice None None)) 2%nat 7).
    + cbn. lia.
    + intros [|[|j]] Hj; [eexists; reflexivity | eexists; reflexivity | lia].
    + reflexivity.
  - apply (proj2 (proj2 (retryOperation_outcome
                           (fun _ => Throw Sample.duplicateKey : Outcome Z)
                           (Some 2) (Some 50))) Sample.duplicateKey).
    + cbn. lia.
    + intros j _. eexists; reflexivity.
    + reflexivity.
Defined.

(** ** Ancestor walks: the simple cases *)

Lemma isFileDescendant_self store :
  acyclic store ->
  forall a, isFileDescendant (S (length store)) store a a = Some false.
Proof.
  intros Hacyclic a.
  destruct (isFileDescendant_fuel store Hacyclic a a) as [[|] Hb]; [|exact Hb].
  apply isFileDescendant_true in Hb. now apply Hacyclic in Hb.
Qed.

(** [isFileDescendant] answers yes for a direct child with one lookup, no for
    a candidate that does not exist, and, on a store with acyclic parent
    chains, no when a node is asked about itself. *)
Theorem isFileDescendant_basic store :
  (forall c a f fuel,
      findById store c = Some f -> parentId f = Some a ->
      isFileDescendant (S fuel) store c a = Some true)
  /\ (forall c a fuel,
      findById store c = None -> isFileDescendant (S fuel) store c a = Some false)
  /\ (acyclic store ->
      forall a, isFileDescendant (S (length store)) store a a = Some false).
Proof.
  split; [|split].
  - intros c a f fuel Hf Hp. cbn [isFileDescendant]. now rewrite Hf, Hp, N.eqb_refl.
  - intros c a fuel Hf. cbn [isFileDescendant]. now rewrite Hf.
  - apply isFileDescendant_self.
Qed.

Lemma isFileDescendant_basic_witness :
  isFileDescendant 6 Sample.tree 1 1 = Some false.
Proof.
  apply (proj2 (proj2 (isFileDescendant_basic Sample.tree))).
  apply parentsBelow_acyclic. reflexivity.
Defined.

Lemma findFolderIn_found store id proj f :
  findById store id = Some f -> type f = folder -> projectId f = proj ->
  is_Some (findFolderIn store id proj).
Proof.
  intros Hf Hty Hpr. apply findById_Some in Hf as [Hin Hid].
  destruct (findFolderIn store id proj) as [g|] eqn:Hg; [eauto|].
  exfalso. apply (findFolderIn_None _ _ _ Hg). exists f. auto.
Qed.

(** [validateHierarchyOperation] does not reject the move of a folder into
    itself: on a store with acyclic parent chains, a folder of the project
    given as its own new parent passes both the descendant check and the
    target check. *)
Theorem validateHierarchyOperation_self_move store id proj f :
  acyclic store ->
  findById store id = Some f -> type f = folder -> projectId f = proj ->
  validateHierarchyOperation (S (length store)) store id (Some id) proj
  = Some (Return true).
Proof.
  intros Hacyclic Hf Hty Hpr. unfold validateHierarchyOperation. rewrite Hf.
  unfold isFolder. rewrite Hty.
  rewrite (isFileDescendant_self store Hacyclic id).
  now destruct (findFolderIn_found store id proj f Hf Hty Hpr) as [g ->].
Qed.

Lemma validateHierarchyOperation_self_move_witness :
  validateHierarchyOperation 6 Sample.tree 4 (Some 4%N) 1 = Some (Return true).
Proof.
  apply (validateHierarchyOperation_self_move Sample.tree 4 1
           (Sample.mk 4 "components" folder (Some 1%N) 0)); try reflexivity.
  apply parentsBelow_acyclic. reflexivity.
Defined.

(** ** Names: a node and its own name *)

(** I3: within one directory of one project no two documents share a
    name. *)
Definition uniqueNames (store : list FileMetadata) : Prop :=
  forall f g, f ∈ store -> g ∈ store ->
    projectId f = projectId g -> parentId f = parentId g -> name f = name g -> f = g.

(** On a store that keeps I3, a document is in conflict with its own name
    unless it is the one excluded: [checkNamingConflict] with [excludeId] set
    to the document's id lets a rename to the current name pass, and
    [generateUniqueName] then keeps the name. *)
Theorem checkNamingConflict_excludes_self store f :
  uniqueNames store -> f ∈ store ->
  checkNamingConflict store (projectId f) (name f) (parentId f) None = true
  /\ checkNamingConflict store (projectId f) (name f) (parentId f) (Some (_id f)) = false
  /\ forall fuel,
       generateUniqueName (S fuel) store (projectId f) (name f) (parentId f)
         (Some (_id f)) = Some (name f).
Proof.
  intros Hnames Hf.
  assert (Hfree : checkNamingConflict store (projectId f) (name f) (parentId f)
                    (Some (_id f)) = false).
  { destruct (checkNamingConflict _ _ _ _ (Some (_id f))) eqn:Hc; [|reflexivity].
    apply checkNamingConflict_spec in Hc as (g & Hg & Hpr & Hn & Hp & He).
    exfalso. apply He. f_equal. f_equal. now apply Hnames. }
  split; [|split; [exact Hfree|]].
  - apply checkNamingConflict_spec. exists f. repeat split; auto; discriminate.
  - intros fuel. unfold generateUniqueName. cbn [generateUniqueName_loop].
    now rewrite Hfree.
Qed.

Lemma checkNamingConflict_excludes_self_witness :
  checkNamingConflict Sample.tree 1 "App.js" (Some 1%N) None = true
  /\ checkNamingConflict Sample.tree 1 "App.js" (Some 1%N) (Some 2%N) = false
  /\ forall fuel,
       generateUniqueName (S fuel) Sample.tree 1 "App.js" (Some 1%N) (Some 2%N)
       = Some "App.js".
Proof.
  apply (checkNamingConflict_excludes_self Sample.tree
           (Sample.mk 2 "App.js" file (Some 1%N) 100)).
  - intros f g Hf Hg _ Hp Hn. unfold Sample.tree in Hf, Hg.
    repeat (apply elem_of_cons in Hf as [->|Hf]); try (now inversion Hf);
      repeat (apply elem_of_cons in Hg as [->|Hg]); try (now inversion Hg);
      try reflexivity; try discriminate Hp; discriminate Hn.
  - by_decide.
Defined.

(** ** Paths *)

Lemma string_app_assoc (s t u : string) : (s +:+ t) +:+ u = s +:+ (t +:+ u).
Proof.
  induction s as [|a s IH]; [reflexivity|]. now rewrite !string_app_cons, IH.
Qed.

Lemma join_snoc (names : list string) (x : string) :
  names <> [] -> join "/" (names ++ [x]) = join "/" names +:+ "/" +:+ x.
Proof.
  induction names as [|p [|q names] IH]; intros Hne; [congruence|reflexivity|].
  change (p +:+ "/" +:+ join "/" ((q :: names) ++ [x])
          = (p +:+ "/" +:+ join "/" (q :: names)) +:+ "/" +:+ x).
  rewrite IH by discriminate. now rewrite !string_app_assoc.
Qed.

(** An id above every parent reference of the store. *)
Definition aboveParents (store : list FileMetadata) : ObjectId :=
  N.succ (foldr N.max 0%N (omap parentId store)).

Lemma aboveParents_fresh store f :
  f ∈ store -> parentId f <> Some (aboveParents store).
Proof.
  unfold aboveParents. intros Hf Hp.
  assert (Hle : forall l (p : N), p ∈ l -> (p <= foldr N.max 0 l)%N).
  { induction l as [|q l IH]; intros p Hin; [inversion Hin|].
    cbn [foldr]. apply elem_of_cons in Hin as [->|Hin]; [lia|].
    specialize (IH _ Hin). lia. }
  specialize (Hle (omap parentId store) (N.succ (foldr N.max 0%N (omap parentId store)))).
  assert (Hin : N.succ (foldr N.max 0%N (omap parentId store)) ∈ omap parentId store).
  { apply list_elem_of_omap. eauto. }
  specialize (Hle Hin). lia.
Qed.

Section Paths.

Variable store : list FileMetadata.

Lemma chainNames_nonempty f names : chainNames store f names -> names <> [].
Proof. intros H. destruct H; try discriminate. now destruct names. Qed.

Lemma chainNames_functional f names1 :
  chainNames store f names1 -> forall names2, chainNames store f names2 -> names1 = names2.
Proof.
  induction 1 as [f Hp|f p Hp Hf|f p parent names Hp Hf Hc IH]; intros names2 H2;
    inversion H2; subst; try congruence.
  f_equal. apply IH. congruence.
Qed.

(** The loop only ever puts names in front of what the path holds. *)
Lemma getFilePath_loop_acc fuel :
  forall currentFile path,
    getFilePath_loop fuel store currentFile path
    = (fun r => r ++ path) <$> getFilePath_loop fuel store currentFile [].
Proof.
  induction fuel as [|fuel IH]; intros cur path; [reflexivity|].
  cbn [getFilePath_loop]. destruct cur as [f|]; [|reflexivity]. cbv zeta.
  destruct (parentId f) as [p|]; [|reflexivity].
  rewrite (IH _ (name f :: path)), (IH _ [name f]).
  destruct (getFilePath_loop fuel store (findById store p) []) as [r|]; [|reflexivity].
  cbn. now rewrite <- app_assoc.
Qed.

Lemma getFilePath_loop_chain f names :
  chainNames store f names ->
  forall fuel path, (length names < fuel)%nat ->
    getFilePath_loop fuel store (Some f) path = Some (names ++ path).
Proof.
  induction 1 as [f Hp|f p Hp Hf|f p parent names Hp Hf Hc IH]; intros fuel path Hlen.
  - destruct fuel as [|fuel]; [cbn in Hlen; lia|].
    cbn [getFilePath_loop]. now rewrite Hp.
  - destruct fuel as [|[|fuel]]; [cbn in Hlen; lia..|].
    cbn [getFilePath_loop]. now rewrite Hp, Hf.
  - destruct fuel as [|fuel]; [cbn in Hlen; lia|].
    cbn [getFilePath_loop]. rewrite Hp, Hf. cbv zeta.
    rewrite IH by (rewrite length_app in Hlen; cbn in Hlen; lia).
    now rewrite <- app_assoc.
Qed.

Lemma getFilePath_loop_sound :
  forall fuel f path r,
    getFilePath_loop fuel store (Some f) path = Some r ->
    exists names, chainNames store f names /\ r = names ++ path
                  /\ (length names <= fuel)%nat.
Proof.
  induction fuel as [|fuel IH]; intros f path r; [discriminate|].
  cbn [getFilePath_loop]. cbv zeta.
  destruct (parentId f) as [p|] eqn:Hp.
  - destruct (findById store p) as [parent|] eqn:Hf.
    + intros H. apply IH in H as (names & Hc & -> & Hlen).
      exists (names ++ [name f]). split; [now apply (chain_step _ f p parent)|].
      split; [now rewrite <- app_assoc|]. rewrite length_app. cbn. lia.
    + destruct fuel as [|fuel]; [discriminate|]. cbn [getFilePath_loop].
      intros [= <-]. exists [name f]. split; [now apply (chain_dangling _ f p)|].
      split; [reflexivity|cbn; lia].
  - intros [= <-]. exists [name f]. split; [now apply chain_root|].
    split; [reflexivity|cbn; lia].
Qed.

Lemma getFullPath_chain f names :
  chainNames store f names ->
  forall fuel, (length names <= fuel)%nat ->
    getFullPath fuel store f = Some (join "/" names).
Proof.
  induction 1 as [f Hp|f p Hp Hf|f p parent names Hp Hf Hc IH]; intros fuel Hlen.
  - destruct fuel as [|fuel]; [cbn in Hlen; lia|].
    cbn [getFullPath]. now rewrite Hp.
  - destruct fuel as [|fuel]; [cbn in Hlen; lia|].
    cbn [getFullPath]. now rewrite Hp, Hf.
  - destruct fuel as [|fuel]; [rewrite length_app in Hlen; cbn in Hlen; lia|].
    cbn [getFullPath]. rewrite Hp, Hf.
    rewrite IH by (rewrite length_app in Hlen; cbn in Hlen; lia).
    rewrite join_snoc by (now apply (chainNames_nonempty parent)). reflexivity.
Qed.

Lemma getFullPath_sound :
  forall fuel f s,
    getFullPath fuel store f = Some s ->
    exists names, chainNames store f names /\ s = join "/" names
                  /\ (length names <= fuel)%nat.
Proof.
  induction fuel as [|fuel IH]; intros f s; [discriminate|].
  cbn [getFullPath].
  destruct (parentId f) as [p|] eqn:Hp.
  - destruct (findById store p) as [parent|] eqn:Hf.
    + destruct (getFullPath fuel store parent) as [parentPath|] eqn:Hpp; [|discriminate].
      intros [= <-]. apply IH in Hpp as (names & Hc & -> & Hlen).
      exists (names ++ [name f]). split; [now apply (chain_step _ f p parent)|].
      split; [|rewrite length_app; cbn; lia].
      rewrite join_snoc by (now apply (chainNames_nonempty parent)). reflexivity.
    + intros [= <-]. exists [name f]. split; [now apply (chain_dangling _ f p)|].
      split; [reflexivity|cbn; lia].
  - intros [= <-]. exists [name f]. split; [now apply chain_root|].
    split; [reflexivity|cbn; lia].
Qed.

(** With an ancestor that no document refers to, the ancestor walk of
    [isFileDescendant] and the loop of [getFilePath] take the same steps. *)
Lemma getFilePath_loop_settles a :
  (forall f, f ∈ store -> parentId f <> Some a) ->
  forall fuel id path,
    is_Some (isFileDescendant fuel store id a) ->
    is_Some (getFilePath_loop fuel store (findById store id) path).
Proof.
  intros Hfresh. induction fuel as [|fuel IH]; intros id path; [intros [? [=]]|].
  cbn [isFileDescendant getFilePath_loop].
  destruct (findById store id) as [f|] eqn:Hf; [|eauto]. cbv zeta.
  destruct (parentId f) as [p|] eqn:Hp; [|eauto].
  destruct (N.eqb_spec p a) as [->|Hne].
  - apply findById_Some in Hf as [Hin _]. now apply Hfresh in Hin.
  - apply IH.
Qed.

End Paths.

(** [getFilePath] rebuilds the path one parent at a time: the empty string
    for an id that is not in the store, the document's own name when it has
    no parent or its parent is missing, and otherwise the path of the parent,
    a slash, and the name. On a store with acyclic parent chains it settles
    within one lookup per document and one more. *)
Theorem getFilePath_steps store :
  (forall id fuel,
      findById store id = None -> getFilePath (S fuel) store id = Some EmptyString)
  /\ (forall id f fuel,
      findById store id = Some f -> parentId f = None ->
      getFilePath (S fuel) store id = Some (name f))
  /\ (forall id f p fuel,
      findById store id = Some f -> parentId f = Some p -> findById store p = None ->
      getFilePath (S (S fuel)) store id = Some (name f))
  /\ (forall id f p fuel s,
      findById store id = Some f -> parentId f = Some p -> is_Some (findById store p) ->
      getFilePath fuel store p = Some s ->
      getFilePath (S fuel) store id = Some (s +:+ "/" +:+ name f))
  /\ (acyclic store ->
      forall id, is_Some (getFilePath (S (length store)) store id)).
Proof.
  unfold getFilePath. repeat split.
  - intros id fuel Hf. now rewrite Hf.
  - intros id f fuel Hf Hp. rewrite Hf. cbn [getFilePath_loop]. now rewrite Hp.
  - intros id f p fuel Hf Hp Hq. rewrite Hf. cbn [getFilePath_loop]. now rewrite Hp, Hq.
  - intros id f p fuel s Hf Hp [g Hg]. rewrite Hf, Hg. cbn [getFilePath_loop].
    rewrite Hp, Hg. cbv zeta.
    destruct (getFilePath_loop fuel store (Some g) []) as [r|] eqn:Hr; [|discriminate].
    intros [= <-]. rewrite getFilePath_loop_acc, Hr. cbn.
    apply getFilePath_loop_sound in Hr as (names & Hc & -> & _).
    rewrite app_nil_r. f_equal. apply join_snoc. now apply (chainNames_nonempty store g).
  - intros Hacyclic id.
    destruct (getFilePath_loop_settles store (aboveParents store)
                (fun f Hf => aboveParents_fresh store f Hf) (S (length store)) id [])
      as [r Hr].
    + now apply isFileDescendant_fuel.
    + rewrite Hr. eauto.
Qed.

Lemma getFilePath_steps_witness :
  getFilePath 3 Sample.tree 5 = Some "src/components/Button.js"
  /\ is_Some (getFilePath 6 Sample.tree 5).
Proof.
  pose proof (getFilePath_steps Sample.tree) as (_ & Hroot & _ & Hstep & Hsettles).
  split.
  - apply (Hstep 5%N (Sample.mk 5 "Button.js" file (Some 4%N) 50) 4%N 2%nat
             "src/components"); [reflexivity|reflexivity|by_decide|].
    apply (Hstep 4%N (Sample.mk 4 "components" folder (Some 1%N) 0) 1%N 1%nat
             "src"); [reflexivity|reflexivity|by_decide|].
    now apply (Hroot 1%N (Sample.mk 1 "src" folder None 0) 0%nat).
  - apply Hsettles. apply parentsBelow_acyclic. reflexivity.
Defined.

(** [getFilePath] of an id and [getFullPath] of the document with that id
    give the same path: each settles when the other does, the method with one
    lookup less, and both return the names on the parent chain joined by
    slashes. *)
Theorem getFilePath_getFullPath store id f :
  findById store id = Some f ->
  (forall fuel s,
      getFilePath fuel store id = Some s -> getFullPath fuel store f = Some s)
  /\ (forall fuel s,
      getFullPath fuel store f = Some s -> getFilePath (S fuel) store id = Some s)
  /\ (forall fuel s,
      getFullPath fuel store f = Some s ->
      exists names, chainNames store f names /\ s = join "/" names).
Proof.
  intros Hf. unfold getFilePath. rewrite Hf. repeat split.
  - intros fuel s.
    destruct (getFilePath_loop fuel store (Some f) []) as [r|] eqn:Hr; [|discriminate].
    intros [= <-]. apply getFilePath_loop_sound in Hr as (names & Hc & -> & Hlen).
    rewrite app_nil_r. now apply getFullPath_chain.
  - intros fuel s Hs. apply getFullPath_sound in Hs as (names & Hc & -> & Hlen).
    rewrite (getFilePath_loop_chain store f names Hc) by lia. now rewrite app_nil_r.
  - intros fuel s Hs. apply getFullPath_sound in Hs as (names & Hc & -> & _). eauto.
Qed.

Lemma getFilePath_getFullPath_witness :
  getFullPath 3 Sample.tree (Sample.mk 5 "Button.js" file (Some 4%N) 50)
  = Some "src/components/Button.js".
Proof.
  apply (proj1 (getFilePath_getFullPath Sample.tree 5
                  (Sample.mk 5 "Button.js" file (Some 4%N) 50) eq_refl) 3%nat).
  reflexivity.
Defined.

(** ** The two traversals of a folder *)

(** Both settle, or none does; when they do, they found the same
    documents. *)
Definition sameDocuments (a b : option (list FileMetadata)) : Prop :=
  match a, b with
  | Some xs, Some ys => xs ≡ₚ ys
  | None, None => True
  | _, _ => False
  end.

Section Traversals.

Variable store : list FileMetadata.

(** [getChildren] only ever pushes to [descendants]. *)
Lemma getChildren_acc :
  forall fuel p acc,
    getChildren fuel store p acc = (fun ds => acc ++ ds) <$> getChildren fuel store p [].
Proof.
  induction fuel as [|fuel IH]; intros p acc; [reflexivity|].
  cbn [getChildren]. generalize (findByParent store p). intros cs.
  revert acc. induction cs as [|c cs IHcs]; intros acc.
  - cbn. now rewrite app_nil_r.
  - cbn [forEachM]. cbv zeta. destruct (isFolder c).
    + rewrite (IH _ (acc ++ [c])), (IH _ ([] ++ [c])).
      destruct (getChildren fuel store (_id c) []) as [d|]; [|reflexivity].
      cbn [fmap option_fmap option_map].
      rewrite (IHcs ((acc ++ [c]) ++ d)), (IHcs (([] ++ [c]) ++ d)).
      destruct (forEachM _ cs []) as [r|]; [|reflexivity].
      cbn. now rewrite <- !app_assoc.
    + rewrite (IHcs (acc ++ [c])), (IHcs ([] ++ [c])).
      destruct (forEachM _ cs []) as [r|]; [|reflexivity].
      cbn. now rewrite <- !app_assoc.
Qed.

Lemma traversals_agree :
  forall fuel p,
    sameDocuments (findAllChildren fuel store p) (getChildren fuel store p []).
Proof.
  induction fuel as [|fuel IH]; intros p; [exact I|].
  cbn [findAllChildren getChildren]. cbv zeta.
  assert (Hgen : forall cs accF accD,
             accF ≡ₚ accD ++ cs ->
             sameDocuments
               (forEachM
                  (fun child allChildren =>
                     if isFolder child
                     then match findAllChildren fuel store (_id child) with
                          | None => None
                          | Some grandChildren => Some (allChildren ++ grandChildren)
                          end
                     else Some allChildren) cs accF)
               (forEachM
                  (fun child descendants =>
                     if isFolder child
                     then getChildren fuel store (_id child) (descendants ++ [child])
                     else Some (descendants ++ [child])) cs accD)).
  { induction cs as [|c cs IHcs]; intros accF accD Hacc.
    - cbn. now rewrite app_nil_r in Hacc.
    - cbn [forEachM]. destruct (isFolder c).
      + specialize (IH (_id c)). rewrite (getChildren_acc _ _ (accD ++ [c])).
        destruct (findAllChildren fuel store (_id c)) as [g|],
                 (getChildren fuel store (_id c) []) as [d|];
          cbn [fmap option_fmap option_map]; cbn in IH; try contradiction; [|exact I].
        apply IHcs.
        rewrite Hacc, IH, <- !app_assoc. apply Permutation_app_head.
        cbn. constructor. apply Permutation_app_comm.
      + apply IHcs. now rewrite Hacc, <- app_assoc. }
  apply Hgen. reflexivity.
Qed.

(** In what [getChildren] pushes, a document comes after its parent, unless
    the parent is the folder asked about. *)
Definition parentFirst (top : ObjectId) (ds : list FileMetadata) : Prop :=
  forall i g, ds !! i = Some g ->
    parentId g = Some top
    \/ exists j f, (j < i)%nat /\ ds !! j = Some f /\ type f = folder
                   /\ parentId g = Some (_id f).

Lemma parentFirst_push top acc c d :
  parentFirst top acc -> parentId c = Some top ->
  (d = [] \/ type c = folder /\ parentFirst (_id c) d) ->
  parentFirst top (acc ++ c :: d).
Proof.
  intros Hacc Hc Hd i g Hi.
  apply lookup_app_Some in Hi as [Hi|[Hle Hi]].
  - destruct (Hacc i g Hi) as [H|(j & f & Hj & Hf & Hty & Hp)]; [now left|].
    right. exists j, f. repeat split; auto. now apply lookup_app_l_Some.
  - destruct (i - length acc)%nat as [|k] eqn:Hk.
    + cbn in Hi. injection Hi as <-. now left.
    + cbn in Hi. destruct Hd as [->|[Hty Hd]]; [discriminate Hi|].
      right. destruct (Hd k g Hi) as [H|(j & f & Hj & Hf & Htf & Hp)].
      * exists (length acc), c. repeat split; auto; [lia|].
        rewrite lookup_app_r by lia. now rewrite Nat.sub_diag.
      * exists (length acc + S j)%nat, f. repeat split; auto; [lia|].
        rewrite lookup_app_r by lia.
        now replace (length acc + S j - length acc)%nat with (S j) by lia.
Qed.

Lemma getChildren_parentFirst :
  forall fuel p ds,
    getChildren fuel store p [] = Some ds -> parentFirst p ds.
Proof.
  induction fuel as [|fuel IH]; intros p ds; [discriminate|].
  cbn [getChildren]. cbv zeta.
  assert (Hgen : forall cs acc r,
             (forall c, c ∈ cs -> parentId c = Some p) ->
             parentFirst p acc ->
             forEachM
               (fun child descendants =>
                  if isFolder child
                  then getChildren fuel store (_id child) (descendants ++ [child])
                  else Some (descendants ++ [child])) cs acc = Some r ->
             parentFirst p r).
  { induction cs as [|c cs IHcs]; intros acc r Hcs Hacc.
    - cbn. now intros [= <-].
    - cbn [forEachM].
      assert (Hc : parentId c = Some p) by (apply Hcs; left).
      assert (Hrest : forall c', c' ∈ cs -> parentId c' = Some p)
        by (intros c' Hc'; apply Hcs; now right).
      destruct (isFolder c) eqn:Hty.
      + rewrite (getChildren_acc _ _ (acc ++ [c])).
        destruct (getChildren fuel store (_id c) []) as [d|] eqn:Hd; [|discriminate].
        cbn [fmap option_fmap option_map]. apply IHcs; [exact Hrest|].
        rewrite <- app_assoc. apply parentFirst_push; auto. right.
        split; [|now apply IH]. unfold isFolder in Hty. now destruct (type c).
      + apply IHcs; [exact Hrest|].
        apply parentFirst_push; auto. }
  apply Hgen.
  - intros c Hc. unfold findByParent in Hc. apply list_elem_of_filter in Hc. tauto.
  - intros i g Hi. discriminate Hi.
Qed.

End Traversals.

(** [FileMetadata.findAllChildren] and [getAllDescendants] are two
    implementations of one traversal: given the same fuel both settle or none
    does, and they return the same documents with the same multiplicities,
    in a different order at most. *)
Theorem findAllChildren_getAllDescendants store fuel folderId :
  sameDocuments (findAllChildren fuel store folderId)
                (getAllDescendants fuel store folderId).
Proof. apply traversals_agree. Qed.

(** On a store that keeps the invariants of the data model
    [getAllDescendants] settles within one level of recursion per document
    and one more, and returns every document whose parent chain meets the
    folder, each one once, and nothing else; the folder itself is not among
    them. *)
Theorem getAllDescendants_exact store folderId :
  uniqueIds store -> acyclic store -> parentsAreFolders store ->
  exists ds,
    getAllDescendants (S (length store)) store folderId = Some ds
    /\ NoDup ds
    /\ (forall f, f ∈ ds <-> f ∈ store /\ descendantOf store (_id f) folderId)
    /\ (forall f, f ∈ ds -> _id f <> folderId).
Proof.
  intros Hu Ha Hf.
  destruct (getAllDescendants_spec store Hu Ha Hf folderId) as (ds & Hds & Hnd & Hmem).
  exists ds. repeat split; try apply Hmem; auto.
  intros f Hin Heq. apply Hmem in Hin as [_ Hd]. rewrite Heq in Hd. now apply Ha in Hd.
Qed.

Lemma sample_tree_invariants :
  uniqueIds Sample.tree /\ acyclic Sample.tree /\ parentsAreFolders Sample.tree.
Proof.
  split; [|split].
  - unfold uniqueIds. by_decide.
  - apply parentsBelow_acyclic. reflexivity.
  - intros f g Hf Hg Hp. unfold Sample.tree in Hf, Hg.
    repeat (apply elem_of_cons in Hg as [->|Hg]); try (now inversion Hg);
      try reflexivity;
      repeat (apply elem_of_cons in Hf as [->|Hf]); try (now inversion Hf);
      discriminate Hp.
Qed.

Lemma getAllDescendants_exact_witness :
  exists ds,
    getAllDescendants 6 Sample.tree 1 = Some ds
    /\ NoDup ds
    /\ (forall f, f ∈ ds <-> f ∈ Sample.tree /\ descendantOf Sample.tree (_id f) 1)
    /\ (forall f, f ∈ ds -> _id f <> 1%N).
Proof.
  apply (getAllDescendants_exact Sample.tree 1); apply sample_tree_invariants.
Defined.

(** The order of [getAllDescendants]: whatever the store holds, a document
    of the result is a child of the folder asked about or comes after its
    parent, which is a folder of the result. *)
Theorem getAllDescendants_parent_first store fuel folderId ds :
  getAllDescendants fuel store folderId = Some ds ->
  forall i g, ds !! i = Some g ->
    parentId g = Some folderId
    \/ exists j f, (j < i)%nat /\ ds !! j = Some f /\ type f = folder
                   /\ parentId g = Some (_id f).
Proof. intros H. now apply (getChildren_parentFirst store fuel). Qed.

Lemma getAllDescendants_parent_first_witness :
  getAllDescendants 6 Sample.tree 1
  = Some [Sample.mk 2 "App.js" file (Some 1%N) 100;
          Sample.mk 3 "index.js" file (Some 1%N) 250;
          Sample.mk 4 "components" folder (Some 1%N) 0;
          Sample.mk 5 "Button.js" file (Some 4%N) 50]
  /\ (parentId (Sample.mk 5 "Button.js" file (Some 4%N) 50) = Some 1%N
      \/ exists j f, (j < 3)%nat
           /\ [Sample.mk 2 "App.js" file (Some 1%N) 100;
               Sample.mk 3 "index.js" file (Some 1%N) 250;
               Sample.mk 4 "components" folder (Some 1%N) 0;
               Sample.mk 5 "Button.js" file (Some 4%N) 50] !! j = Some f
           /\ type f = folder
           /\ parentId (Sample.mk 5 "Button.js" file (Some 4%N) 50) = Some (_id f)).
Proof.
  split; [reflexivity|].
  apply (getAllDescendants_parent_first Sample.tree 6 1 _ eq_refl 3
           (Sample.mk 5 "Button.js" file (Some 4%N) 50)).
  reflexivity.
Defined.

(** A node of type file has nothing below it. *)
Lemma findByParent_file store f :
  parentsAreFolders store -> f ∈ store -> type f = file ->
  findByParent store (_id f) = [].
Proof.
  intros Hfolders Hf Hty.
  destruct (findByParent store (_id f)) as [|c cs] eqn:Hcs; [reflexivity|].
  assert (Hc : c ∈ findByParent store (_id f)) by (rewrite Hcs; left).
  apply elem_of_findByParent in Hc as [Hc Hp].
  rewrite (Hfolders c f Hc Hf Hp) in Hty. discriminate.
Qed.

(** Asked about a node of type file, the traversals find nothing and
    [calculateFolderSize] answers 0 whatever the size of the file is: the node
    asked about is never counted itself. *)
Theorem calculateFolderSize_of_file store f fuel :
  parentsAreFolders store -> f ∈ store -> type f = file ->
  getAllDescendants (S fuel) store (_id f) = Some []
  /\ findAllChildren (S fuel) store (_id f) = Some []
  /\ calculateFolderSize (S fuel) store (_id f) = Some 0.
Proof.
  intros Hfolders Hf Hty.
  pose proof (findByParent_file store f Hfolders Hf Hty) as Hnone.
  unfold calculateFolderSize, getAllDescendants.
  cbn [getChildren findAllChildren]. cbv zeta. rewrite Hnone. now cbn.
Qed.

Lemma calculateFolderSize_of_file_witness :
  getAllDescendants 1 Sample.tree 3 = Some []
  /\ findAllChildren 1 Sample.tree 3 = Some []
  /\ calculateFolderSize 1 Sample.tree 3 = Some 0.
Proof.
  apply (calculateFolderSize_of_file Sample.tree
           (Sample.mk 3 "index.js" file (Some 1%N) 250) 0).
  - apply sample_tree_invariants.
  - by_decide.
  - reflexivity.
Defined.

(** ** [deleteProject]: what it leaves alone *)

Lemma elem_of_deleteFirst id p ps :
  (p ∈ deleteFirst id ps -> p ∈ ps)
  /\ (p ∈ ps -> project_id p <> id -> p ∈ deleteFirst id ps).
Proof.
  induction ps as [|q ps [IH1 IH2]]; [split; auto|].
  cbn [deleteFirst]. destruct (N.eqb_spec (project_id q) id) as [Heq|Hne]; split.
  - intros H. now right.
  - intros H Hp. apply elem_of_cons in H as [->|H]; [contradiction|exact H].
  - intros H. apply elem_of_cons in H as [->|H]; [left|right; auto].
  - intros H Hp. apply elem_of_cons in H as [->|H]; [left|right; auto].
Qed.

(** The three stores after [deleteProject], whatever it answered: each is
    as it was or has gone through its one deletion. *)
Lemma deleteProject_stores connected s3 db id :
  let db' := snd (deleteProject connected s3 db id) in
  let keys := omap truthyKey (filter (fun f => projectId f = id) (fileMetadata db)) in
  (projects db' = projects db \/ projects db' = deleteFirst id (projects db))
  /\ (fileMetadata db' = fileMetadata db
      \/ fileMetadata db' = filter (fun f => projectId f <> id) (fileMetadata db))
  /\ (bucket db' = bucket db
      \/ exists errors, s3 = S3Deleted errors
           /\ bucket db' = filter (fun k => k ∉ keys \/ k ∈ errors) (bucket db)).
Proof.
  cbv zeta. unfold deleteProject, handleDatabaseOperation, attemptOnce, noTrace.
  cbn [asked invoked console].
  destruct (connected 0%nat); [|cbn; auto].
  destruct (findProject (projects db) id); [|cbn; auto].
  cbn [asked invoked console].
  destruct (connected 1%nat); [|cbn; auto].
  cbn [asked invoked console].
  assert (Hb : forall b,
             b = match omap truthyKey (filter (fun f => projectId f = id) (fileMetadata db)) with
                 | [] => bucket db
                 | _ :: _ =>
                     match deleteFiles s3
                             (omap truthyKey
                                (filter (fun f => projectId f = id) (fileMetadata db)))
                             (bucket db) with
                     | Return b => b
                     | Throw _ => bucket db
                     end
                 end ->
             b = bucket db
             \/ exists errors, s3 = S3Deleted errors
                  /\ b = filter
                           (fun k => k ∉ omap truthyKey
                                       (filter (fun f => projectId f = id) (fileMetadata db))
                                     \/ k ∈ errors) (bucket db)).
  { intros b ->. unfold deleteFiles.
    destruct (omap truthyKey _) as [|k ks]; [now left|].
    destruct s3 as [e|errors]; [now left|]. right. eauto. }
  destruct (connected 2%nat); [|cbn; auto].
  cbn [asked invoked console].
  destruct (connected 3%nat); cbn; auto.
Qed.

(** [deleteProject] never touches what belongs to another project, whether
    it succeeds or fails on the way: documents of other projects, other
    project records and blobs that are not the blob of a document of the
    project stay, and nothing is ever added. *)
Theorem deleteProject_frame connected s3 db id :
  let db' := snd (deleteProject connected s3 db id) in
  (forall f, f ∈ fileMetadata db -> projectId f <> id -> f ∈ fileMetadata db')
  /\ (forall p, p ∈ projects db -> project_id p <> id -> p ∈ projects db')
  /\ (forall k, k ∈ bucket db ->
        (forall f, f ∈ fileMetadata db -> projectId f = id -> truthyKey f <> Some k) ->
        k ∈ bucket db')
  /\ (forall f, f ∈ fileMetadata db' -> f ∈ fileMetadata db)
  /\ (forall p, p ∈ projects db' -> p ∈ projects db)
  /\ (forall k, k ∈ bucket db' -> k ∈ bucket db).
Proof.
  pose proof (deleteProject_stores connected s3 db id) as H. cbv zeta in H |- *.
  destruct H as (Hp & Hf & Hb).
  repeat split.
  - intros f Hin Hne. destruct Hf as [->| ->]; [exact Hin|].
    apply list_elem_of_filter. auto.
  - intros p Hin Hne. destruct Hp as [->| ->]; [exact Hin|].
    now apply elem_of_deleteFirst.
  - intros k Hin Hk. destruct Hb as [->|(errors & _ & ->)]; [exact Hin|].
    apply list_elem_of_filter. split; [|exact Hin]. left.
    intros Hkeys. apply list_elem_of_omap in Hkeys as (f & Hf' & Hkey).
    apply list_elem_of_filter in Hf' as [Hpr Hf']. now apply (Hk f).
  - intros f Hin. destruct Hf as [Heq|Heq]; rewrite Heq in Hin; [exact Hin|].
    apply list_elem_of_filter in Hin. tauto.
  - intros p Hin. destruct Hp as [Heq|Heq]; rewrite Heq in Hin; [exact Hin|].
    now apply elem_of_deleteFirst in Hin.
  - intros k Hin. destruct Hb as [Heq|(errors & _ & Heq)]; rewrite Heq in Hin; [exact Hin|].
    apply list_elem_of_filter in Hin. tauto.
Qed.

(** A project that is not there: [deleteProject] answers 404
    [PROJECT_NOT_FOUND] when the database is connected and 500 when it is
    not, and changes nothing; documents that carry the id of the missing
    project are not cleaned up. *)
Theorem deleteProject_missing connected s3 db id :
  findProject (projects db) id = None ->
  deleteProject connected s3 db id
  = (if connected 0%nat
     then JsonFailure 404 (StrCode "PROJECT_NOT_FOUND") "Project not found"
     else JsonFailure 500 (StrCode "DELETE_PROJECT_FAILED") "Database not connected",
     db).
Proof.
  intros Hnone. unfold deleteProject, handleDatabaseOperation, attemptOnce, noTrace.
  cbn [asked invoked console]. rewrite Hnone.
  destruct (connected 0%nat); reflexivity.
Qed.

Lemma deleteProject_missing_witness :
  deleteProject Sample.online (S3Deleted []) Sample2.workspace 7
  = (JsonFailure 404 (StrCode "PROJECT_NOT_FOUND") "Project not found",
     Sample2.workspace).
Proof.
  apply (deleteProject_missing Sample.online (S3Deleted []) Sample2.workspace 7).
  reflexivity.
Defined.

(** [deleteProject] is not atomic. When it answers with a failure the
    project record is still there, so the deletion can be asked for again; but
    when the connection drops between the deletion of the documents and the
    deletion of the record, the documents of the project are already gone. *)
Theorem deleteProject_not_atomic connected s3 db id :
  (forall status code msg db',
      deleteProject connected s3 db id = (JsonFailure status code msg, db') ->
      projects db' = projects db)
  /\ (is_Some (findProject (projects db) id) ->
      connected 0%nat = true -> connected 1%nat = true -> connected 2%nat = true ->
      connected 3%nat = false ->
      exists db',
        deleteProject connected s3 db id
        = (JsonFailure 500 (StrCode "DELETE_PROJECT_FAILED") "Database not connected", db')
        /\ projects db' = projects db
        /\ fileMetadata db'
           = filter (fun f => projectId f <> id) (fileMetadata db)).
Proof.
  split.
  - intros status code msg db'.
    unfold deleteProject, handleDatabaseOperation, attemptOnce, noTrace.
    cbn [asked invoked console].
    destruct (connected 0%nat); [|now intros [= _ _ _ <-]].
    destruct (findProject (projects db) id); [|now intros [= _ _ _ <-]].
    cbn [asked invoked console].
    destruct (connected 1%nat); [|now intros [= _ _ _ <-]].
    cbn [asked invoked console].
    destruct (connected 2%nat); [|now intros [= _ _ _ <-]].
    cbn [asked invoked console].
    destruct (connected 3%nat); [discriminate|now intros [= _ _ _ <-]].
  - intros [p Hp] H0 H1 H2 H3.
    unfold deleteProject, handleDatabaseOperation, attemptOnce, noTrace.
    cbn [asked invoked console]. rewrite H0, Hp. cbn [asked invoked console].
    rewrite H1. cbn [asked invoked console]. rewrite H2. cbn [asked invoked console].
    rewrite H3. eexists. split; [reflexivity|]. split; reflexivity.
Qed.

Lemma deleteProject_not_atomic_witness :
  exists db',
    deleteProject (fun k => (k <? 3)%nat) (S3Deleted []) Sample2.workspace 1
    = (JsonFailure 500 (StrCode "DELETE_PROJECT_FAILED") "Database not connected", db')
    /\ projects db' = projects Sample2.workspace
    /\ fileMetadata db'
       = filter (fun f => projectId f <> 1%N) (fileMetadata Sample2.workspace).
Proof.
  apply (proj2 (deleteProject_not_atomic (fun k => (k <? 3)%nat) (S3Deleted [])
                  Sample2.workspace 1)); try reflexivity.
  by_decide.
Defined.

(** ** [deleteFile] *)

Lemma handleDatabaseOperation_online {A : Type} (connected : nat -> bool)
    (v : A) (errorMessage : string) (t : Trace) :
  (forall k, connected k = true) ->
  handleDatabaseOperation connected (fun _ => Return v) errorMessage t
  = (Resolved v,
     {| asked := S (asked t); invoked := S (invoked t); console := console t |}).
Proof.
  intros Hon. unfold handleDatabaseOperation, attemptOnce. now rewrite Hon.
Qed.

Lemma elem_of_deleteFirstFile id g fs :
  NoDup (_id <$> fs) ->
  g ∈ deleteFirstFile id fs <-> g ∈ fs /\ _id g <> id.
Proof.
  induction fs as [|f fs IH]; intros Hnd.
  - cbn. split; [inversion 1|intros [H _]; inversion H].
  - cbn in Hnd. apply NoDup_cons in Hnd as [Hf Hnd]. cbn [deleteFirstFile].
    destruct (N.eqb_spec (_id f) id) as [Heq|Hne].
    + split.
      * intros Hg. split; [now right|]. intros Hid. apply Hf.
        apply list_elem_of_fmap. exists g. split; [congruence|exact Hg].
      * intros [Hg Hid]. apply elem_of_cons in Hg as [->|Hg]; [contradiction|exact Hg].
    + rewrite !elem_of_cons, (IH Hnd). split.
      * intros [->|[Hg Hid]]; auto.
      * intros [[->|Hg] Hid]; auto.
Qed.

Lemma filter_all {A : Type} (P : A -> Prop) `{forall x, Decision (P x)} (l : list A) :
  (forall x, x ∈ l -> P x) -> filter P l = l.
Proof.
  induction l as [|x l IH]; intros Hall; [reflexivity|].
  rewrite filter_cons_True by (apply Hall; left).
  f_equal. apply IH. intros y Hy. apply Hall. now right.
Qed.

(** What [deleteFile] does to a node that exists while the database is
    connected. *)
Lemma deleteFile_online fuel connected s3 db id f :
  (forall k, connected k = true) ->
  findById (fileMetadata db) id = Some f ->
  deleteFile fuel connected s3 db id
  = match (if isFolder f then findAllChildren fuel (fileMetadata db) id else Some []) with
    | None => None
    | Some cs =>
        let keys := if isFolder f then omap truthyKey cs
                    else match truthyKey f with Some k => [k] | None => [] end in
        Some (JsonSuccess (S (length cs)) (length keys),
              {| projects := projects db;
                 fileMetadata :=
                   deleteFirstFile id
                     (filter (fun g => _id g ∉ _id <$> cs) (fileMetadata db));
                 bucket := match deleteFiles s3 keys (bucket db) with
                           | Return b => b
                           | Throw _ => bucket db
                           end |})
    end.
Proof.
  intros Hon Hf. unfold deleteFile. cbv zeta.
  rewrite Hf, handleDatabaseOperation_online by exact Hon.
  destruct (isFolder f) eqn:Hty.
  - destruct (findAllChildren fuel (fileMetadata db) id) as [cs|]; [|reflexivity].
    cbn [projects fileMetadata bucket].
    assert (Hb : match omap truthyKey cs with
                 | [] => bucket db
                 | _ :: _ => match deleteFiles s3 (omap truthyKey cs) (bucket db) with
                             | Return b => b
                             | Throw _ => bucket db
                             end
                 end
                 = match deleteFiles s3 (omap truthyKey cs) (bucket db) with
                   | Return b => b
                   | Throw _ => bucket db
                   end).
    { destruct (omap truthyKey cs); reflexivity. }
    rewrite Hb.
    destruct (_id <$> cs) as [|c0 ids] eqn:Hids.
    + rewrite handleDatabaseOperation_online by exact Hon.
      rewrite filter_all by (intros x _ Hx; inversion Hx). reflexivity.
    + rewrite !handleDatabaseOperation_online by exact Hon. reflexivity.
  - cbn [projects fileMetadata bucket fmap list_fmap].
    rewrite handleDatabaseOperation_online by exact Hon.
    rewrite filter_all by (intros x _ Hx; inversion Hx).
    destruct (truthyKey f); reflexivity.
Qed.

Lemma NoDup_ids_filter (P : FileMetadata -> Prop) `{forall x, Decision (P x)}
    (store : list FileMetadata) :
  uniqueIds store -> NoDup (_id <$> filter P store).
Proof.
  intros Hu. apply (sublist_NoDup _ (_id <$> store)); [exact Hu|].
  apply fmap_sublist, sublist_filter.
Qed.

(** The cascade of [deleteFile]. On a store that keeps the invariants of the
    data model and with the database connected, deleting a node that exists
    succeeds: the node and exactly the documents whose parent chain meets it
    are gone, every other document and every project record is kept, the
    number reported is that of the deleted documents, and the blobs of the
    deleted files are gone unless the blob store reported them among its
    errors. *)
Theorem deleteFile_cascade connected s3 db id f :
  uniqueIds (fileMetadata db) -> acyclic (fileMetadata db) ->
  parentsAreFolders (fileMetadata db) ->
  (forall k, connected k = true) ->
  findById (fileMetadata db) id = Some f ->
  exists ds m db',
    getAllDescendants (S (length (fileMetadata db))) (fileMetadata db) id = Some ds
    /\ deleteFile (S (length (fileMetadata db))) connected s3 db id
       = Some (JsonSuccess (S (length ds)) m, db')
    /\ projects db' = projects db
    /\ (forall g, g ∈ fileMetadata db'
                  <-> g ∈ fileMetadata db /\ _id g <> id
                      /\ ~ descendantOf (fileMetadata db) (_id g) id)
    /\ (forall errors g k,
          s3 = S3Deleted errors -> g ∈ fileMetadata db ->
          (g = f /\ type f = file) \/ descendantOf (fileMetadata db) (_id g) id ->
          truthyKey g = Some k -> k ∉ errors -> k ∉ bucket db').
Proof.
  intros Hu Ha Hfolders Hon Hf.
  destruct (getAllDescendants_spec _ Hu Ha Hfolders id) as (ds & Hds & Hnd & Hmem).
  pose proof (findById_Some _ _ _ Hf) as [Hin Hid].
  rewrite (deleteFile_online _ _ _ _ _ f Hon Hf).
  pose proof (traversals_agree (fileMetadata db) (S (length (fileMetadata db))) id) as Hsame.
  pose proof Hds as Hds'. unfold getAllDescendants in Hds'. rewrite Hds' in Hsame.
  assert (Hcs : exists cs,
             (if isFolder f
              then findAllChildren (S (length (fileMetadata db))) (fileMetadata db) id
              else Some []) = Some cs
             /\ cs ≡ₚ ds
             /\ (isFolder f = false -> cs = [])).
  { destruct (isFolder f) eqn:Hty.
    - destruct (findAllChildren _ _ id) as [cs|]; [|contradiction].
      exists cs. split; [reflexivity|]. split; [exact Hsame|discriminate].
    - exists []. split; [reflexivity|]. split; [|reflexivity].
      assert (Hfile : type f = file) by (unfold isFolder in Hty; now destruct (type f)).
      symmetry. replace ds with (@nil FileMetadata); [reflexivity|].
      destruct ds as [|d ds']; [reflexivity|]. exfalso.
      assert (Hd : d ∈ d :: ds') by left. apply Hmem in Hd as [_ Hd].
      rewrite <- Hid in Hd. now apply (file_no_descendant _ Hfolders f (_id d)). }
  destruct Hcs as (cs & -> & Hperm & Hfile). cbv zeta.
  assert (Hchild : forall g, g ∈ fileMetadata db ->
             (_id g ∈ _id <$> cs <-> descendantOf (fileMetadata db) (_id g) id)).
  { intros g Hg. split.
    - intros Hi. apply list_elem_of_fmap in Hi as (h & Hh & Hhc).
      rewrite Hperm in Hhc. apply Hmem in Hhc as [Hhs Hd]. now rewrite Hh.
    - intros Hd. apply list_elem_of_fmap. exists g. split; [reflexivity|].
      rewrite Hperm. apply Hmem. auto. }
  eexists ds, _, _. split; [exact Hds|].
  split; [rewrite (Permutation_length Hperm); reflexivity|].
  cbn [projects fileMetadata bucket]. split; [reflexivity|]. split.
  - intros g. rewrite elem_of_deleteFirstFile by (now apply NoDup_ids_filter).
    rewrite list_elem_of_filter. split.
    + intros [[Hni Hg] Hne]. repeat split; auto. intros Hd. now apply Hni, Hchild.
    + intros (Hg & Hne & Hnd'). repeat split; auto. intros Hi. now apply Hnd', Hchild.
  - intros errors g k -> Hg Hwhich Hk Herr.
    assert (Hkey : k ∈ (if isFolder f then omap truthyKey cs
                        else match truthyKey f with Some k => [k] | None => [] end)).
    { destruct Hwhich as [[-> Hty]|Hd].
      - unfold isFolder. rewrite Hty, Hk. left.
      - destruct (isFolder f) eqn:Hty.
        + apply list_elem_of_omap. exists g. split; [|exact Hk].
          rewrite Hperm. apply Hmem. auto.
        + apply (Hchild g Hg) in Hd. rewrite (Hfile eq_refl) in Hd. inversion Hd. }
    unfold deleteFiles.
    destruct (if isFolder f then omap truthyKey cs else _) as [|k0 ks] eqn:Hkeys;
      [inversion Hkey|].
    intros Hb. apply list_elem_of_filter in Hb as [[Hb|Hb] _]; contradiction.
Qed.

Lemma workspace_invariants :
  uniqueIds (fileMetadata Sample2.workspace)
  /\ acyclic (fileMetadata Sample2.workspace)
  /\ parentsAreFolders (fileMetadata Sample2.workspace).
Proof.
  split; [|split].
  - unfold uniqueIds. by_decide.
  - apply parentsBelow_acyclic. reflexivity.
  - intros f g Hf Hg Hp. cbn in Hf, Hg.
    repeat (apply elem_of_cons in Hg as [->|Hg]); try (now inversion Hg);
      try reflexivity;
      repeat (apply elem_of_cons in Hf as [->|Hf]); try (now inversion Hf);
      discriminate Hp.
Qed.

Lemma deleteFile_cascade_witness :
  exists ds m db',
    getAllDescendants 7 (fileMetadata Sample2.workspace) 4 = Some ds
    /\ deleteFile 7 Sample.online (S3Deleted []) Sample2.workspace 4
       = Some (JsonSuccess (S (length ds)) m, db')
    /\ projects db' = projects Sample2.workspace
    /\ (forall g, g ∈ fileMetadata db'
                  <-> g ∈ fileMetadata Sample2.workspace /\ _id g <> 4%N
                      /\ ~ descendantOf (fileMetadata Sample2.workspace) (_id g) 4)
    /\ (forall errors g k,
          S3Deleted [] = S3Deleted errors -> g ∈ fileMetadata Sample2.workspace ->
          (g = Sample.mk 4 "components" folder (Some 1%N) 0
           /\ type (Sample.mk 4 "components" folder (Some 1%N) 0) = file)
          \/ descendantOf (fileMetadata Sample2.workspace) (_id g) 4 ->
          truthyKey g = Some k -> k ∉ errors -> k ∉ bucket db').
Proof.
  apply (deleteFile_cascade Sample.online (S3Deleted []) Sample2.workspace 4
           (Sample.mk 4 "components" folder (Some 1%N) 0));
    try apply workspace_invariants; reflexivity.
Defined.

(** A node that is not there: [deleteFile] answers 404 [FILE_NOT_FOUND] when
    the database is connected and 500 when it is not, without a traversal,
    and changes nothing. *)
Theorem deleteFile_missing fuel connected s3 db id :
  findById (fileMetadata db) id = None ->
  deleteFile fuel connected s3 db id
  = Some (if connected 0%nat
          then JsonFailure 404 (StrCode "FILE_NOT_FOUND") "File not found"
          else JsonFailure 500 (StrCode "DELETE_FILE_FAILED") "Database not connected",
          db).
Proof.
  intros Hnone. unfold deleteFile, handleDatabaseOperation, attemptOnce, noTrace.
  cbn [asked invoked console]. rewrite Hnone.
  destruct (connected 0%nat); reflexivity.
Qed.

Lemma deleteFile_missing_witness :
  deleteFile 0 Sample.online (S3Deleted []) Sample2.workspace 7
  = Some (JsonFailure 404 (StrCode "FILE_NOT_FOUND") "File not found", Sample2.workspace).
Proof.
  apply (deleteFile_missing 0 Sample.online (S3Deleted []) Sample2.workspace 7).
  reflexivity.
Defined.

(** ** Blob keys *)

Definition noSlash (s : string) : Prop := includesChar slash s = false.

Lemma slash_splits (s s' t t' : string) :
  noSlash s -> noSlash s' ->
  s +:+ String slash t = s' +:+ String slash t' -> s = s' /\ t = t'.
Proof.
  unfold noSlash. revert s'. induction s as [|a s IH]; intros [|a' s'] Hs Hs'.
  - rewrite !string_app_empty_l. now intros [= ->].
  - rewrite string_app_empty_l, string_app_cons. intros [= <- _].
    cbn [includesChar] in Hs'. now rewrite Ascii.eqb_refl in Hs'.
  - rewrite string_app_empty_l, string_app_cons. intros [= -> _].
    cbn [includesChar] in Hs. now rewrite Ascii.eqb_refl in Hs.
  - rewrite !string_app_cons. intros [= <- H].
    cbn [includesChar] in Hs, Hs'. apply orb_false_elim in Hs as [_ Hs].
    apply orb_false_elim in Hs' as [_ Hs'].
    destruct (IH s' Hs Hs' H) as [-> ->]. auto.
Qed.

(** [generateS3Key] gives different keys to different files: when the
    project id and the file id hold no slash, the key determines the project,
    the file id and the file name. *)
Theorem generateS3Key_injective (p f n p' f' n' : string) :
  noSlash p -> noSlash f -> noSlash p' -> noSlash f' ->
  generateS3Key p f n = generateS3Key p' f' n' ->
  p = p' /\ f = f' /\ n = n'.
Proof.
  intros Hp Hf Hp' Hf'. unfold generateS3Key.
  change ("projects/" +:+ p +:+ "/files/" +:+ f +:+ "/" +:+ n)
    with ("projects/" +:+ (p +:+ String slash ("files/" +:+ (f +:+ String slash n)))).
  change ("projects/" +:+ p' +:+ "/files/" +:+ f' +:+ "/" +:+ n')
    with ("projects/" +:+ (p' +:+ String slash ("files/" +:+ (f' +:+ String slash n')))).
  rewrite !string_app_cons, !string_app_empty_l.
  intros [= H]. apply slash_splits in H as [-> H]; auto.
  injection H as H.
  apply slash_splits in H as [-> ->]; auto.
Qed.

Lemma generateS3Key_injective_witness :
  generateS3Key "1" "default" "App.js" = "projects/1/files/default/App.js"
  /\ ("1" = "1" /\ "default" = "default" /\ "App.js" = "App.js").
Proof.
  split; [reflexivity|].
  apply (generateS3Key_injective "1" "default" "App.js" "1" "default" "App.js");
    reflexivity.
Defined.

(** ** The pre-save check of the model and the counts of [deleteProject] *)

(** [fileMetadataSchema.pre('save', ...)]: what it hands to [next]. *)
Definition preSave (this : FileMetadata) : Outcome unit :=
  if isFolder this && bool_decide (is_Some (truthyKey this))
  then Throw (newError "Folders cannot have s3Key")
  else if isFile this && bool_decide (truthyKey this = None)
       then Throw (newError "Files must have s3Key")
       else Return tt.

Lemma preSave_ok (f : FileMetadata) :
  preSave f = Return tt
  <-> (type f = file /\ is_Some (truthyKey f)) \/ (type f = folder /\ truthyKey f = None).
Proof.
  unfold preSave, isFolder, isFile.
  destruct (type f); cbn [andb]; split.
  - case_bool_decide as Hk; [discriminate|]. intros _. left. split; [reflexivity|].
    destruct (truthyKey f); [eauto|congruence].
  - intros [[_ [k Hk]]|[[=] _]]. rewrite Hk.
    case_bool_decide; [discriminate|reflexivity].
  - case_bool_decide as Hk; [discriminate|]. intros _. right. split; [reflexivity|].
    destruct (truthyKey f); [exfalso; eauto|reflexivity].
  - intros [[[=] _]|[_ Hk]]. rewrite Hk.
    case_bool_decide as Hs; [destruct Hs; discriminate|reflexivity].
Qed.

Lemma preSave_keys (fs : list FileMetadata) :
  (forall f, f ∈ fs -> preSave f = Return tt) ->
  length (omap truthyKey fs) = length (List.filter isFile fs).
Proof.
  induction fs as [|f fs IH]; intros Hall; [reflexivity|].
  assert (Hf : preSave f = Return tt) by (apply Hall; left).
  assert (IH' : length (omap truthyKey fs) = length (List.filter isFile fs))
    by (apply IH; intros g Hg; apply Hall; now right).
  cbn [omap list_omap List.filter]. unfold isFile at 1.
  apply preSave_ok in Hf as [[-> [k ->]]|[-> ->]]; cbn; congruence.
Qed.

(** The check passes exactly the documents that keep I1: a file has a blob
    key and a folder has none. For a project whose documents all passed it, a
    successful [deleteProject] reports as deleted blobs the number of its
    documents of type file, and as deleted documents all of the project's. *)
Theorem deleteProject_counts connected s3 db id n m db' :
  (forall f, f ∈ fileMetadata db -> preSave f = Return tt) ->
  deleteProject connected s3 db id = (JsonSuccess n m, db') ->
  (forall f, f ∈ fileMetadata db ->
     (type f = file <-> is_Some (truthyKey f)))
  /\ n = length (filter (fun f => projectId f = id) (fileMetadata db))
  /\ m = length (List.filter isFile
                   (filter (fun f => projectId f = id) (fileMetadata db))).
Proof.
  intros Hall H. apply deleteProject_success in H. cbv zeta in H.
  destruct H as (_ & _ & _ & -> & ->). split; [|split; [reflexivity|]].
  - intros f Hf. specialize (Hall f Hf).
    apply preSave_ok in Hall as [[Hty Hk]|[Hty Hk]]; split; auto.
    + rewrite Hty. discriminate.
    + rewrite Hk. intros [k [=]].
  - apply preSave_keys. intros f Hf. apply list_elem_of_filter in Hf as [_ Hf]. auto.
Qed.

Lemma deleteProject_counts_witness :
  (forall f, f ∈ fileMetadata Sample2.workspace ->
     (type f = file <-> is_Some (truthyKey f)))
  /\ 5%nat = length (filter (fun f => projectId f = 1%N) (fileMetadata Sample2.workspace))
  /\ 3%nat = length (List.filter isFile
                       (filter (fun f => projectId f = 1%N)
                          (fileMetadata Sample2.workspace))).
Proof.
  apply (deleteProject_counts Sample.online (S3Deleted []) Sample2.workspace 1 5 3
           (snd (deleteProject Sample.online (S3Deleted []) Sample2.workspace 1))).
  - intros f Hf. cbn in Hf.
    repeat (apply elem_of_cons in Hf as [->|Hf]); try (now inversion Hf); reflexivity.
  - reflexivity.
Defined.
